(** * The ALAC encoder and decoder of python-audio-tools, embedded in Rocq

    The development follows the two C translation units of the codec:
    the encoder ([encode_alac] and the functions below it) and the decoder
    ([decode_frameset] and the functions below it).

    Conventions of the embedding.
    - A C integer is a [Z]; every operation whose C type is [int],
      [unsigned], [long] or [int64_t] is wrapped to the width of that type
      ([int32], [uint32], [int64]), two's complement.  A shift count is used
      as it stands: a count at or beyond the width shifts every bit out (ISO C
      leaves those shifts undefined).
    - A C array is a [list Z]; [a.[i]] reads it, and reads past the end give 0.
    - A [double] is a primitive binary64 [float].
    - A [BitstreamWriter] or [BitstreamRecorder] is the list of the bits
      written so far, oldest first; a [BitstreamReader] is the list of the
      bits not yet read together with the count of the bits already read.
    - [longjmp(encoder->residual_overflow, 1)] is the outcome [residual_overflow]
      of the [jmp] type; a short read of the decoder ([br_abort]) is the
      outcome [io_error] of the [rd] type, and [return status] with a status
      other than [OK] is the outcome [failed status]. *)

From Stdlib Require Import Floats.
From Stdlib Require Import ZArith List Bool Lia Permutation.
Import ListNotations.
Local Open Scope Z_scope.

(** ** C integer types *)

Module CInt.

Definition uint32 (z : Z) : Z := z mod 2 ^ 32.
Definition int32 (z : Z) : Z := (z + 2 ^ 31) mod 2 ^ 32 - 2 ^ 31.
Definition int64 (z : Z) : Z := (z + 2 ^ 63) mod 2 ^ 64 - 2 ^ 63.

Definition UINT_MAX : Z := 4294967295.
Definition INT_MAX : Z := 2147483647.

(** [x << n] on an [int]: the bits of [x] moved up by [n], kept to 32 bits.
    Counts of 32 and more leave no bit (the guard keeps the definition
    executable for the count [0u - 1]). *)
Definition shl32 (x n : Z) : Z :=
  if 32 <=? n then 0 else int32 (Z.shiftl x n).

Definition MIN (x y : Z) : Z := if x <? y then x else y.
Definition MAX (x y : Z) : Z := if x >? y then x else y.

(** C array read; out of range reads give 0. *)
Definition get (a : list Z) (i : Z) : Z :=
  if i <? 0 then 0 else nth (Z.to_nat i) a 0.

(** C array write [a[i] = v]; [None] when [i] is outside the array. *)
Definition set (a : list Z) (i v : Z) : option (list Z) :=
  if (0 <=? i) && (i <? Z.of_nat (length a))
  then Some (firstn (Z.to_nat i) a ++ v :: skipn (S (Z.to_nat i)) a)
  else None.

(** [a->len] of an array, of a recorder's bits, of an array of channels, and
    the channel [channels->_[c]]. *)
Definition alen (a : list Z) : Z := Z.of_nat (length a).
Definition alen_bits (a : list bool) : Z := Z.of_nat (length a).
Definition alen_channels (channels : list (list Z)) : Z := Z.of_nat (length channels).
Definition channel (channels : list (list Z)) (c : Z) : list Z :=
  nth (Z.to_nat c) channels [].

(** [for (i = lo; i < hi; i++) s = body(i, s);] *)
Definition for_loop {S : Type} (lo hi : Z) (body : Z -> S -> S) (s : S) : S :=
  fold_left (fun s n => body (lo + Z.of_nat n) s)
            (seq 0 (Z.to_nat (hi - lo))) s.

End CInt.

Export CInt.

Notation "a .[ i ]" := (get a i) (at level 1, left associativity, format "a .[ i ]").

(** ** Bit streams *)

(** The decoder's [status_t]. *)
Inductive status_t : Type :=
| OK
| INVALID_FRAME_CHANNEL_COUNT
| EXCESSIVE_FRAME_CHANNEL_COUNT
| FRAME_BLOCK_SIZE_MISMATCH
| INVALID_BLOCK_SIZE
| INVALID_PREDICTION_TYPE
| NOT_IMPLEMENTED_ERROR.

Module Bitstream.

Definition BitstreamWriter := list bool.
Definition BitstreamRecorder := list bool.

(** The [count] low bits of [value], most significant first. *)
Fixpoint bits_msb_first (count : nat) (value : Z) : list bool :=
  match count with
  | O => []
  | S n => Z.testbit value (Z.of_nat n) :: bits_msb_first n value
  end.

(** Modelled from the spec: bitstream.c is not among the sources.  "Big-endian,
    MSB-first bit stream"; "write N-bit unsigned". *)
Definition bw_write (bs : BitstreamWriter) (count value : Z) : BitstreamWriter :=
  bs ++ bits_msb_first (Z.to_nat count) value.

(** Modelled from the spec: "write N-bit signed (two's complement)".  The
    bits of a negative [Z] are those of its two's complement. *)
Definition bw_write_signed (bs : BitstreamWriter) (count value : Z) : BitstreamWriter :=
  bs ++ bits_msb_first (Z.to_nat count) value.

(** Modelled from the spec: "emit msb as a unary value terminated by 0":
    [value] bits opposite to [stop_bit], then [stop_bit]. *)
Definition bw_write_unary (bs : BitstreamWriter) (stop_bit : bool) (value : Z) : BitstreamWriter :=
  bs ++ repeat (negb stop_bit) (Z.to_nat value) ++ [stop_bit].

(** Modelled from the spec: "byte-align": zero bits up to the next byte boundary. *)
Definition bw_byte_align (bs : BitstreamWriter) : BitstreamWriter :=
  bs ++ repeat false (Z.to_nat ((- Z.of_nat (length bs)) mod 8)).

(** Modelled from the spec: a recorder "buffers bits and reports
    [bits_written] before being copied into an outer stream". *)
Definition bits_written (r : BitstreamRecorder) : Z := uint32 (alen_bits r).
Definition recorder_copy (r : BitstreamRecorder) (target : BitstreamWriter) : BitstreamWriter :=
  target ++ r.
Definition recorder_reset (r : BitstreamRecorder) : BitstreamRecorder := [].

Record BitstreamReader : Type := mkReader {
  unread : list bool;
  bits_read : Z
}.

Definition br_open (data : list bool) : BitstreamReader := mkReader data 0.

(** Outcomes of decoder code: a value and the reader after it, a short read
    ([br_abort], caught by the enclosing [br_try]), a status other than [OK]
    returned up the call chain, a store outside an array, or a loop that
    never ends. *)
Inductive rd (A : Type) : Type :=
| ok (a : A) (br : BitstreamReader)
| io_error
| failed (status : status_t)
| out_of_bounds
| diverges.
Arguments ok {A} a br.
Arguments io_error {A}.
Arguments failed {A} status.
Arguments out_of_bounds {A}.
Arguments diverges {A}.

(** Decoder code threads the reader: a computation takes the reader and
    gives an outcome. *)
Definition reading (A : Type) : Type := BitstreamReader -> rd A.

Definition ret {A : Type} (a : A) : reading A := fun br => ok a br.

Definition bind {A B : Type} (m : reading A) (f : A -> reading B) : reading B :=
  fun br =>
    match m br with
    | ok a br' => f a br'
    | io_error => io_error
    | failed status => failed status
    | out_of_bounds => out_of_bounds
    | diverges => diverges
    end.

(** The value of [n] bits read most significant first, on top of [acc]. *)
Fixpoint read_bits (n : nat) (acc : Z) (l : list bool) : option (Z * list bool) :=
  match n with
  | O => Some (acc, l)
  | S n' =>
      match l with
      | [] => None
      | b :: l' => read_bits n' (2 * acc + Z.b2z b) l'
      end
  end.

(** Modelled from the spec: "read N-bit unsigned"; a short read aborts. *)
Definition br_read (count : Z) : reading Z := fun br =>
  match read_bits (Z.to_nat count) 0 (unread br) with
  | Some (v, l) => ok (uint32 v) (mkReader l (bits_read br + Z.max 0 count))
  | None => io_error
  end.

(** Modelled from the spec: "read N-bit signed": the unsigned value,
    sign-extended from bit [count - 1]. *)
Definition br_read_signed (count : Z) : reading Z := fun br =>
  match read_bits (Z.to_nat count) 0 (unread br) with
  | Some (v, l) =>
      ok (if Z.testbit v (count - 1) then int32 (v - 2 ^ count) else int32 v)
         (mkReader l (bits_read br + Z.max 0 count))
  | None => io_error
  end.

Definition br_skip (count : Z) : reading unit := fun br =>
  match read_bits (Z.to_nat count) 0 (unread br) with
  | Some (_, l) => ok tt (mkReader l (bits_read br + Z.max 0 count))
  | None => io_error
  end.

(** Modelled from the spec: "byte-align" on the reading side drops the
    rest of the current byte. *)
Definition br_byte_align : reading unit := fun br =>
  let pad := (- bits_read br) mod 8 in
  ok tt (mkReader (skipn (Z.to_nat pad) (unread br)) (bits_read br + pad)).

End Bitstream.

Export Bitstream.

Notation "x <- m ;; f" := (bind m (fun x => f))
  (at level 61, m at next level, right associativity).
Notation "m ;;; f" := (bind m (fun _ => f))
  (at level 61, right associativity).

(** ** Doubles *)

Module CDouble.

Definition LONG_MIN : Z := - 2 ^ 63.

(** [(double)z] for an [int] or [unsigned] [z] (exact below 2^53). *)
Definition of_int (z : Z) : float :=
  if z <? 0 then (- of_uint63 (Uint63.of_Z (- z)))%float
  else of_uint63 (Uint63.of_Z z).

(** [lround]: to the nearest integer, halves away from zero.  What C leaves
    unspecified (NaN, infinities, values outside [long]) is [LONG_MIN], the
    x86-64 result. *)
Definition lround (x : float) : Z :=
  match Prim2SF x with
  | S754_zero _ => 0
  | S754_finite s m e =>
      let mag :=
        if 0 <=? e then Zpos m * 2 ^ e
        else let d := 2 ^ (- e) in
             let q := Zpos m / d in
             if d <=? 2 * (Zpos m mod d) then q + 1 else q in
      if 2 ^ 63 <=? mag then LONG_MIN else if s then - mag else mag
  | _ => LONG_MIN
  end.

(** [(unsigned)x]: truncation towards zero, kept to 32 bits. *)
Definition to_unsigned (x : float) : Z :=
  match Prim2SF x with
  | S754_finite s m e =>
      let mag := if 0 <=? e then Zpos m * 2 ^ e else Zpos m / 2 ^ (- e) in
      uint32 (if s then - mag else mag)
  | _ => 0
  end.

(** [pow(k, 2)] of libm, taken as the correctly rounded square. *)
Definition pow2 (k : float) : float := (k * k)%float.

Definition M_PI : float := 0x1.921fb54442d18p+1%float.

Definition fget (a : list float) (i : Z) : float :=
  if i <? 0 then 0%float else nth (Z.to_nat i) a 0%float.

End CDouble.

Export CDouble.

(** ** The encoder *)

Module Encoder.

(** Modelled from the spec: alac.h is not among the sources; "max_lpc_order = 8". *)
Definition MAX_QLP_COEFFS : Z := 8.
Definition MAX_LPC_ORDER : Z := 8.
Definition INTERLACING_SHIFT : Z := 2.

Record alac_encoding_options : Type := {
  block_size : Z;
  initial_history : Z;
  history_multiplier : Z;
  maximum_k : Z;
  minimum_interlacing_leftweight : Z;
  maximum_interlacing_leftweight : Z
}.

(** The fields of [struct alac_context] that outlive a call: the options, the
    sample width, the window computed once by [init_encoder], and the two
    recorders of [write_compressed_frame] (every other recorder is reset
    before it is written). *)
Record alac_context : Type := {
  options : alac_encoding_options;
  bits_per_sample : Z;
  tukey_window_ : list float;
  interlaced_frame : BitstreamRecorder;
  best_interlaced_frame : BitstreamRecorder
}.

(** [setjmp(encoder->residual_overflow)]: code under it either returns or
    leaves through [longjmp]. *)
Inductive jmp (A : Type) : Type :=
| returns (a : A)
| residual_overflow.
Arguments returns {A} a.
Arguments residual_overflow {A}.

Definition jbind {A B : Type} (m : jmp A) (f : A -> jmp B) : jmp B :=
  match m with
  | returns a => f a
  | residual_overflow => residual_overflow
  end.

Section WithLibm.

(** [cos] of libm. *)
Variable cos : float -> float.

Definition tukey_window (alpha : float) (block_size : Z) : list float :=
  let Np := to_unsigned (alpha / 2 * of_int block_size - 1)%float in
  for_loop 0 block_size
    (fun i window =>
       window ++
       [ if i <=? Np then
           ((1 - cos (M_PI * of_int i / of_int Np)) / 2)%float
         else if i >=? uint32 (block_size - Np - 1) then
           ((1 - cos (M_PI * of_int (uint32 (block_size - i - 1)) / of_int Np)) / 2)%float
         else 1%float ])
    [].

Definition init_encoder (opts : alac_encoding_options) (bps : Z) : alac_context :=
  {| options := opts;
     bits_per_sample := bps;
     tukey_window_ := tukey_window 0.5%float (block_size opts);
     interlaced_frame := [];
     best_interlaced_frame := [] |}.

End WithLibm.

Definition window_signal (sample_count : Z) (samples : list Z) (window : list float)
  : list float :=
  for_loop 0 sample_count
    (fun i windowed_signal =>
       windowed_signal ++ [ (of_int samples.[i] * fget window i)%float ])
    [].

Definition autocorrelate (sample_count : Z) (windowed_signal : list float)
           (max_lpc_order : Z) : list float :=
  for_loop 0 (max_lpc_order + 1)
    (fun i autocorrelated =>
       let a :=
         for_loop 0 (sample_count - i)
           (fun j a => (a + fget windowed_signal j * fget windowed_signal (j + i))%float)
           0%float in
       autocorrelated ++ [a])
    [].

(** [lp_coeff] is the list of its rows; row [i] holds the entries [0..i]. *)
Definition compute_lp_coefficients (max_lpc_order : Z) (autocorrelated : list float)
  : list (list float) :=
  let k := (fget autocorrelated 1 / fget autocorrelated 0)%float in
  let row0 := [k] in
  let error0 := (fget autocorrelated 0 * (1 - pow2 k))%float in
  let '(lp_coeff, _, _) :=
    for_loop 1 max_lpc_order
      (fun i '(lp_coeff, prev, error) =>
         let sum :=
           for_loop 0 i
             (fun j sum => (sum + fget prev j * fget autocorrelated (i - j))%float)
             0%float in
         let q := (fget autocorrelated (i + 1) - sum)%float in
         let k := (q / error)%float in
         let row :=
           for_loop 0 i
             (fun j row => row ++ [ (fget prev j - k * fget prev (i - j - 1))%float ])
             [] ++ [k] in
         (lp_coeff ++ [row], row, (error * (1 - pow2 k))%float))
      ([row0], row0, error0) in
  lp_coeff.

Definition quantize_coefficients (order : Z) (lp_coeff : list (list float)) : list Z :=
  let precision := 16 in
  let max_coeff := 2 ^ (precision - 1) - 1 in
  let min_coeff := - 2 ^ (precision - 1) in
  let shift := 9 in
  let row := nth (Z.to_nat (order - 1)) lp_coeff [] in
  fst (for_loop 0 order
         (fun i '(qlp_coefficients, error) =>
            let sum := (of_int error + fget row i * of_int (2 ^ shift))%float in
            let round_sum := lround sum in
            let q := int32 (MIN (MAX round_sum min_coeff) max_coeff) in
            (qlp_coefficients ++ [q], to_unsigned (sum - of_int q)%float))
         ([], 0)).

Definition SIGN_ONLY (value : Z) : Z :=
  if value >? 0 then 1 else if value <? 0 then -1 else 0.

Definition TRUNCATE_BITS (value bits : Z) : Z :=
  (* truncate value to bits *)
  let truncated := Z.land value (int32 (shl32 1 bits - 1)) in
  (* apply sign bit *)
  if negb (Z.land truncated (shl32 1 (uint32 (bits - 1))) =? 0)
  then int32 (truncated - shl32 1 bits)
  else truncated.

(** The coefficient update after a positive ([up = true]) or negative
    residual: [for (j = 0; j < order; j++) { ...; if (error <= 0) break; }]. *)
Fixpoint adapt (up : bool) (steps : nat) (j order i base_sample : Z)
         (samples coefficients : list Z) (error : Z) : list Z :=
  match steps with
  | O => coefficients
  | S steps' =>
      let diff := int32 (base_sample - samples.[i - order + j]) in
      let sign := SIGN_ONLY diff in
      let c := coefficients.[order - j - 1] in
      let coefficients :=
        match set coefficients (order - j - 1)
                  (int32 (if up then c - sign else c + sign)) with
        | Some cs => cs
        | None => coefficients
        end in
      let error :=
        int32 (error - Z.shiftr (int32 (diff * (if up then sign else - sign))) 9
                       * (j + 1)) in
      if (if up then error <=? 0 else error >=? 0) then coefficients
      else adapt up steps' (j + 1) order i base_sample samples coefficients error
  end.

Definition calculate_residuals (sample_size sample_count : Z) (samples : list Z)
           (order : Z) (qlp_coefficients : list Z) : list Z :=
  let coefficients := firstn (Z.to_nat order) qlp_coefficients in
  (* first sample always copied verbatim *)
  let residuals := [samples.[0]] in
  if order <? 31 then
    let residuals :=
      for_loop 1 (order + 1)
        (fun i residuals =>
           residuals ++ [TRUNCATE_BITS (int32 (samples.[i] - samples.[i - 1])) sample_size])
        residuals in
    fst (for_loop (order + 1) sample_count
           (fun i '(residuals, coefficients) =>
              let base_sample := samples.[i - order - 1] in
              let lpc_sum :=
                for_loop 0 order
                  (fun j lpc_sum =>
                     int64 (lpc_sum + int64 (coefficients.[j]
                                             * int32 (samples.[i - j - 1] - base_sample))))
                  (2 ^ 8) in
              let lpc_sum := Z.shiftr lpc_sum 9 in
              let error :=
                TRUNCATE_BITS (int32 (samples.[i] - base_sample - int32 lpc_sum))
                              sample_size in
              let coefficients :=
                if error >? 0 then
                  adapt true (Z.to_nat order) 0 order i base_sample samples coefficients error
                else if error <? 0 then
                  adapt false (Z.to_nat order) 0 order i base_sample samples coefficients error
                else coefficients in
              (residuals ++ [error], coefficients))
           (residuals, coefficients))
  else
    (* not sure if this ever happens *)
    for_loop 1 sample_count
      (fun i residuals =>
         residuals ++ [TRUNCATE_BITS (int32 (samples.[i] - samples.[i - 1])) sample_size])
      residuals.

(** [while (value) { bits++; value >>= 1; } return bits - 1;] on an
    [unsigned]: 32 rounds empty any value. *)
Fixpoint LOG2_loop (rounds : nat) (value bits : Z) : Z :=
  match rounds with
  | O => bits
  | S r => if value =? 0 then bits else LOG2_loop r (Z.shiftr value 1) (bits + 1)
  end.

Definition LOG2 (value : Z) : Z := uint32 (LOG2_loop 32 (uint32 value) 0 - 1).

(** [write_residual] for a [k] of 1 and more; at [k = 0] the C code
    divides by [(1 << 0) - 1]. *)
Definition write_residual (residual_block : BitstreamWriter)
           (value k sample_size : Z) : BitstreamWriter :=
  let divisor := uint32 (shl32 1 k - 1) in
  let MSB := value / divisor in
  let LSB := value mod divisor in
  if MSB >? 8 then
    let residual_block := bw_write residual_block 9 511 in
    bw_write residual_block sample_size value
  else
    let residual_block := bw_write_unary residual_block false MSB in
    if k >? 1 then
      if LSB >? 0 then bw_write residual_block k (uint32 (LSB + 1))
      else bw_write residual_block (k - 1) 0
    else residual_block.

(** The inner [while ((i < residual_count) && (residuals[i] == 0))]. *)
Fixpoint count_zeroes (rounds : nat) (residual_count : Z) (residuals : list Z)
         (i zeroes : Z) : Z * Z :=
  match rounds with
  | O => (i, zeroes)
  | S r =>
      if (i <? residual_count) && (residuals.[i] =? 0)
      then count_zeroes r residual_count residuals (i + 1) (uint32 (zeroes + 1))
      else (i, zeroes)
  end.

Record residual_coder : Type := {
  rc_i : Z;
  rc_history : Z;
  rc_sign_modifier : Z;
  rc_block : BitstreamWriter
}.

(** [if ((history < 128) && (i < residual_count))]: whether the encoder goes
    on to code a run of zeroes; [i] is already past the residual just coded. *)
Definition zero_run_follows (history i residual_count : Z) : bool :=
  (history <? 128) && (i <? residual_count).

(** [if (zeroes < 0xFFFF) sign_modifier = 1;] after [sign_modifier = 0]. *)
Definition sign_modifier_after_run (zeroes : Z) : Z :=
  if zeroes <? 65535 then 1 else 0.

(** The residual folded to an unsigned value:
    [(unsigned)(r << 1)] or [(unsigned)(-r << 1) - 1]. *)
Definition unsigned_residual (r : Z) : Z :=
  if r >=? 0 then uint32 (shl32 r 1)
  else uint32 (uint32 (shl32 (int32 (- r)) 1) - 1).

(** [const unsigned max_unsigned = (1 << sample_size);] *)
Definition max_unsigned (sample_size : Z) : Z := uint32 (shl32 1 sample_size).

(** One round of [while (i < residual_count)] in [encode_residuals]. *)
Definition encode_residual_step (encoder : alac_context)
           (sample_size residual_count : Z) (residuals : list Z)
           (st : residual_coder) : jmp residual_coder :=
  let max_unsigned := max_unsigned sample_size in
  let history_multiplier := uint32 (history_multiplier (options encoder)) in
  let maximum_k := uint32 (maximum_k (options encoder)) in
  let i := rc_i st in
  let history := rc_history st in
  let unsigned_i := unsigned_residual residuals.[i] in
  if unsigned_i >=? max_unsigned then
    (* raise a residual overflow exception
       which means writing an uncompressed frame instead *)
    residual_overflow
  else
    let k := LOG2 (int32 (Z.shiftr history 9 + 3)) in
    let k := MIN k maximum_k in
    let block :=
      write_residual (rc_block st) (uint32 (unsigned_i - rc_sign_modifier st))
                     k sample_size in
    if unsigned_i <=? 65535 then
      let history :=
        int32 (history
               + (int32 (uint32 (unsigned_i * history_multiplier))
                  - Z.shiftr (int32 (history * int32 history_multiplier)) 9)) in
      let i := i + 1 in
      if zero_run_follows history i residual_count then
        (* handle potential block of 0 residuals *)
        let k := uint32 (7 - LOG2 history + Z.shiftr (int32 (history + 16)) 6) in
        let k := MIN k maximum_k in
        let '(i, zeroes) :=
          count_zeroes (Z.to_nat (residual_count - i)) residual_count residuals i 0 in
        let block := write_residual block zeroes k 16 in
        returns {| rc_i := i; rc_history := 0;
                   rc_sign_modifier := sign_modifier_after_run zeroes;
                   rc_block := block |}
      else
        returns {| rc_i := i; rc_history := history;
                   rc_sign_modifier := 0; rc_block := block |}
    else
      returns {| rc_i := i + 1; rc_history := 65535;
                 rc_sign_modifier := 0; rc_block := block |}.

(** [while (i < residual_count)]: every round moves [i] on, so
    [residual_count] rounds are enough. *)
Fixpoint encode_residuals_loop (rounds : nat) (encoder : alac_context)
         (sample_size residual_count : Z) (residuals : list Z)
         (st : residual_coder) : jmp residual_coder :=
  match rounds with
  | O => returns st
  | S r =>
      if rc_i st <? residual_count then
        jbind (encode_residual_step encoder sample_size residual_count residuals st)
              (encode_residuals_loop r encoder sample_size residual_count residuals)
      else returns st
  end.

Definition encode_residuals (encoder : alac_context) (residual_block : BitstreamWriter)
           (sample_size residual_count : Z) (residuals : list Z)
  : jmp BitstreamWriter :=
  jbind (encode_residuals_loop (Z.to_nat residual_count) encoder
           sample_size residual_count residuals
           {| rc_i := 0;
              rc_history := int32 (initial_history (options encoder));
              rc_sign_modifier := 0;
              rc_block := residual_block |})
        (fun st => returns (rc_block st)).

Definition write_subframe_header (bs : BitstreamWriter) (order : Z)
           (qlp_coefficients : list Z) : BitstreamWriter :=
  let bs := bw_write bs 4 0 in (* prediction type *)
  let bs := bw_write bs 4 9 in (* QLP shift needed *)
  let bs := bw_write bs 3 4 in (* Rice modifier *)
  let bs := bw_write bs 5 order in
  for_loop 0 order (fun i bs => bw_write_signed bs 16 qlp_coefficients.[i]) bs.


Definition correlate_channels (channels : list (list Z))
           (interlacing_shift interlacing_leftweight : Z) : list (list Z) :=
  let frame_count := alen (channel channels 0) in
  let channel0 := channel channels 0 in
  let channel1 := channel channels 1 in
  if interlacing_leftweight >? 0 then
    let '(correlated0, correlated1) :=
      for_loop 0 frame_count
        (fun i '(correlated0, correlated1) =>
           let leftweight := int64 (int32 (channel0.[i] - channel1.[i])) in
           let leftweight := int64 (leftweight * interlacing_leftweight) in
           let leftweight := Z.shiftr leftweight interlacing_shift in
           (correlated0 ++ [int32 (channel1.[i] + int32 leftweight)],
            correlated1 ++ [int32 (channel0.[i] - channel1.[i])]))
        ([], []) in
    [correlated0; correlated1]
  else
    [channel0; channel1].

Definition compute_coefficients (encoder : alac_context) (sample_count : Z)
           (samples : list Z) (sample_size : Z) (residual : BitstreamWriter)
  : jmp (Z * list Z * BitstreamWriter) :=
  (* window the input samples *)
  let windowed_signal := window_signal sample_count samples (tukey_window_ encoder) in
  (* compute autocorrelation values for samples *)
  let autocorrelated := autocorrelate sample_count windowed_signal MAX_QLP_COEFFS in
  if negb (fget autocorrelated 0 =? 0)%float then
    (* transform autocorrelation values to lists of LP coefficients *)
    let lp_coeff := compute_lp_coefficients MAX_QLP_COEFFS autocorrelated in
    let qlp_coefficients4 := quantize_coefficients 4 lp_coeff in
    let qlp_coefficients8 := quantize_coefficients 8 lp_coeff in
    let residual_values4 :=
      calculate_residuals sample_size sample_count samples 4 qlp_coefficients4 in
    let residual_values8 :=
      calculate_residuals sample_size sample_count samples 8 qlp_coefficients8 in
    jbind (encode_residuals encoder [] sample_size sample_count residual_values4)
      (fun residual_block4 =>
    jbind (encode_residuals encoder [] sample_size sample_count residual_values8)
      (fun residual_block8 =>
    (* return the LPC coefficients/residual which is the smallest *)
    if bits_written residual_block4 <? uint32 (bits_written residual_block8 + 64) then
      returns (4, qlp_coefficients4, recorder_copy residual_block4 residual)
    else
      returns (8, qlp_coefficients8, recorder_copy residual_block8 residual)))
  else
    (* all samples are 0, so use a special case *)
    let order := 4 in
    let qlp_coefficients := [0; 0; 0; 0] in
    let residual_values4 :=
      calculate_residuals sample_size sample_count samples order qlp_coefficients in
    jbind (encode_residuals encoder residual sample_size sample_count residual_values4)
      (fun residual => returns (order, qlp_coefficients, residual)).

(** The 20 or 52 bits every frame starts with. *)
Definition write_frame_header (bs : BitstreamWriter) (encoder : alac_context)
           (len uncompressed_LSBs not_compressed : Z) : BitstreamWriter :=
  let bs := bw_write bs 16 0 in (* unused *)
  let bs := if len =? block_size (options encoder)
            then bw_write bs 1 0 else bw_write bs 1 1 in
  let bs := bw_write bs 2 uncompressed_LSBs in
  let bs := bw_write bs 1 not_compressed in
  if negb (len =? block_size (options encoder)) then bw_write bs 32 len else bs.

Definition write_LSBs (bs : BitstreamWriter) (uncompressed_LSBs : Z) (LSBs : list Z)
  : BitstreamWriter :=
  if uncompressed_LSBs >? 0 then
    for_loop 0 (alen LSBs) (fun i bs => bw_write bs (uncompressed_LSBs * 8) LSBs.[i]) bs
  else bs.

Definition write_non_interlaced_frame (bs : BitstreamWriter) (encoder : alac_context)
           (uncompressed_LSBs : Z) (LSBs : list Z) (channels : list (list Z))
  : jmp BitstreamWriter :=
  let residual := recorder_reset [] in
  let bs := write_frame_header bs encoder (alen (channel channels 0)) uncompressed_LSBs 0 in
  let bs := bw_write bs 8 0 in (* no interlacing shift *)
  let bs := bw_write bs 8 0 in (* no interlacing leftweight *)
  jbind (compute_coefficients encoder (alen (channel channels 0)) (channel channels 0)
           (bits_per_sample encoder - uncompressed_LSBs * 8) residual)
    (fun '(order, qlp_coefficients, residual) =>
       let bs := write_subframe_header bs order qlp_coefficients in
       let bs := write_LSBs bs uncompressed_LSBs LSBs in
       returns (recorder_copy residual bs)).

Definition write_interlaced_frame (bs : BitstreamWriter) (encoder : alac_context)
           (uncompressed_LSBs : Z) (LSBs : list Z)
           (interlacing_shift interlacing_leftweight : Z) (channels : list (list Z))
  : jmp BitstreamWriter :=
  let residual0 := recorder_reset [] in
  let residual1 := recorder_reset [] in
  let bs := write_frame_header bs encoder (alen (channel channels 0)) uncompressed_LSBs 0 in
  let bs := bw_write bs 8 interlacing_shift in
  let bs := bw_write bs 8 interlacing_leftweight in
  let correlated_channels :=
    correlate_channels channels interlacing_shift interlacing_leftweight in
  jbind (compute_coefficients encoder (alen (channel correlated_channels 0))
           (channel correlated_channels 0)
           (bits_per_sample encoder - uncompressed_LSBs * 8 + 1) residual0)
    (fun '(order0, qlp_coefficients0, residual0) =>
  jbind (compute_coefficients encoder (alen (channel correlated_channels 1))
           (channel correlated_channels 1)
           (bits_per_sample encoder - uncompressed_LSBs * 8 + 1) residual1)
    (fun '(order1, qlp_coefficients1, residual1) =>
       let bs := write_subframe_header bs order0 qlp_coefficients0 in
       let bs := write_subframe_header bs order1 qlp_coefficients1 in
       let bs := write_LSBs bs uncompressed_LSBs LSBs in
       let bs := recorder_copy residual0 bs in
       returns (recorder_copy residual1 bs))).

(** [for (i = lo; i < hi; i++)] over code that may [longjmp]. *)
Definition for_loop_jmp {S : Type} (lo hi : Z) (body : Z -> S -> jmp S) (s : S) : jmp S :=
  fold_left (fun m n => jbind m (body (lo + Z.of_nat n)))
            (seq 0 (Z.to_nat (hi - lo))) (returns s).

(** The search [for (leftweight = minimum; leftweight <= maximum; leftweight++)]
    of [write_compressed_frame]; the state is the two recorders and
    [best_interlaced_frame_bits]. *)
Definition try_leftweights (encoder : alac_context) (uncompressed_LSBs : Z)
           (LSBs : list Z) (channels : list (list Z))
  : jmp (BitstreamRecorder * BitstreamRecorder * Z) :=
  for_loop_jmp (minimum_interlacing_leftweight (options encoder))
               (maximum_interlacing_leftweight (options encoder) + 1)
    (fun leftweight '(interlaced_frame, best_interlaced_frame, best_interlaced_frame_bits) =>
       let interlaced_frame := recorder_reset interlaced_frame in
       jbind (write_interlaced_frame interlaced_frame encoder uncompressed_LSBs LSBs
                INTERLACING_SHIFT leftweight channels)
         (fun interlaced_frame =>
            if bits_written interlaced_frame <? best_interlaced_frame_bits then
              (* recorder_swap(&best_interlaced_frame, &interlaced_frame) *)
              returns (best_interlaced_frame, interlaced_frame,
                       bits_written interlaced_frame)
            else
              returns (interlaced_frame, best_interlaced_frame,
                       best_interlaced_frame_bits)))
    (interlaced_frame encoder, best_interlaced_frame encoder, UINT_MAX).

(** The two arrays filled by the loop
    [for (i = 0; i < channels->_[0]->len; i++) for (c = 0; c < channels->len; c++)]
    of [write_compressed_frame]: the low bits of every sample, sample after
    sample, and the remaining high bits, channel by channel. *)
Definition extract_LSBs (encoder : alac_context) (channels : list (list Z)) : list Z :=
  for_loop 0 (alen (channel channels 0))
    (fun i LSBs =>
       for_loop 0 (alen_channels channels)
         (fun c LSBs =>
            LSBs ++ [Z.land (channel channels c).[i]
                            (int32 (shl32 1 (bits_per_sample encoder - 16) - 1))])
         LSBs)
    [].

Definition extract_MSBs (encoder : alac_context) (channels : list (list Z))
  : list (list Z) :=
  for_loop 0 (alen_channels channels)
    (fun c channels_MSB =>
       channels_MSB ++
       [for_loop 0 (alen (channel channels 0))
          (fun i channel_MSB =>
             channel_MSB ++
             [Z.shiftr (channel channels c).[i] (bits_per_sample encoder - 16)])
          []])
    [].

Definition write_compressed_frame (bs : BitstreamWriter) (encoder : alac_context)
           (channels : list (list Z)) : jmp BitstreamWriter :=
  if bits_per_sample encoder <=? 16 then
    (* no uncompressed least-significant bits *)
    let uncompressed_LSBs := 0 in
    let LSBs := [] in
    if alen_channels channels =? 1 then
      write_non_interlaced_frame bs encoder uncompressed_LSBs LSBs channels
    else
      (* attempt all the interlacing leftweight combinations *)
      jbind (try_leftweights encoder 0 LSBs channels)
        (fun '(_, best_interlaced_frame, _) =>
           (* write the smallest leftweight to disk *)
           returns (recorder_copy best_interlaced_frame bs))
  else
    (* extract uncompressed least-significant bits *)
    let uncompressed_LSBs := (bits_per_sample encoder - 16) / 8 in
    let LSBs := extract_LSBs encoder channels in
    let channels_MSB := extract_MSBs encoder channels in
    if alen_channels channels =? 1 then
      write_non_interlaced_frame bs encoder uncompressed_LSBs LSBs channels_MSB
    else
      (* attempt all the interlacing leftweight combinations *)
      jbind (try_leftweights encoder uncompressed_LSBs LSBs channels_MSB)
        (fun '(_, best_interlaced_frame, _) =>
           (* write the smallest leftweight to disk *)
           returns (recorder_copy best_interlaced_frame bs)).

Definition write_uncompressed_frame (bs : BitstreamWriter) (encoder : alac_context)
           (channels : list (list Z)) : BitstreamWriter :=
  let bs := write_frame_header bs encoder (alen (channel channels 0)) 0 1 in
  for_loop 0 (alen (channel channels 0))
    (fun i bs =>
       for_loop 0 (alen_channels channels)
         (fun c bs => bw_write_signed bs (bits_per_sample encoder) (channel channels c).[i])
         bs)
    bs.

Definition write_frame (bs : BitstreamWriter) (encoder : alac_context)
           (channels : list (list Z)) : BitstreamWriter :=
  let bs := bw_write bs 3 (alen_channels channels - 1) in
  if alen (channel channels 0) >=? 10 then
    let compressed_frame := recorder_reset [] in
    match write_compressed_frame compressed_frame encoder channels with
    | returns compressed_frame => recorder_copy compressed_frame bs
    | residual_overflow =>
        (* a residual overflow exception occurred,
           so write an uncompressed frame instead *)
        write_uncompressed_frame bs encoder channels
    end
  else write_uncompressed_frame bs encoder channels.

Definition extract_1ch (frameset : list (list Z)) (c : Z) : list (list Z) :=
  [channel frameset c].
Definition extract_2ch (frameset : list (list Z)) (c0 c1 : Z) : list (list Z) :=
  [channel frameset c0; channel frameset c1].

(** The frames of a frameset, in the order [write_frameset] writes them. *)
Definition frameset_layout (channels : list (list Z)) : list (list (list Z)) :=
  match alen_channels channels with
  | 1 | 2 => [channels]
  | 3 => [extract_1ch channels 2; extract_2ch channels 0 1]
  | 4 => [extract_1ch channels 2; extract_2ch channels 0 1; extract_1ch channels 3]
  | 5 => [extract_1ch channels 2; extract_2ch channels 0 1; extract_2ch channels 3 4]
  | 6 => [extract_1ch channels 2; extract_2ch channels 0 1; extract_2ch channels 4 5;
          extract_1ch channels 3]
  | 7 => [extract_1ch channels 2; extract_2ch channels 0 1; extract_2ch channels 4 5;
          extract_1ch channels 6; extract_1ch channels 3]
  | 8 => [extract_1ch channels 2; extract_2ch channels 6 7; extract_2ch channels 0 1;
          extract_2ch channels 4 5; extract_1ch channels 3]
  | _ => for_loop 0 (alen_channels channels)
           (fun i frames => frames ++ [extract_1ch channels i]) []
  end.

Definition write_frameset (bs : BitstreamWriter) (encoder : alac_context)
           (channels : list (list Z)) : BitstreamWriter :=
  let bs := fold_left (fun bs frame => write_frame bs encoder frame)
                      (frameset_layout channels) bs in
  let bs := bw_write bs 3 7 in (* write the trailing '111' bits *)
  bw_byte_align bs.            (* and byte-align frameset *)

(** Modelled from the spec: the PCM source "exposes [read(n, out_buffer)]
    returning [0..n] frames and a status field; [channels],
    [bits_per_sample] metadata".  The samples still to be read are kept
    interleaved, frame after frame.  A read may return fewer frames than it
    is asked for: [pcm_short_reads] holds, read after read, how many frames
    the source has at hand (one at least); once the list is used up, every
    read returns as many frames as asked, as long as there are that many. *)
Record PCMReader : Type := {
  pcm_channels : Z;
  pcm_bits_per_sample : Z;
  pcm_samples : list Z;
  pcm_status_ok : bool;
  pcm_short_reads : list Z
}.

(** [read(pcm_frames, samples)]: between 0 and [pcm_frames] PCM frames, 0
    only when no whole frame is left. *)
Definition pcmreader_read (pcmreader : PCMReader) (pcm_frames : Z)
  : Z * list Z * PCMReader :=
  let available := alen (pcm_samples pcmreader) / pcm_channels pcmreader in
  let at_hand :=
    match pcm_short_reads pcmreader with
    | [] => pcm_frames
    | frames :: _ => MIN pcm_frames (MAX frames 1)
    end in
  let pcm_frames_read := MIN at_hand available in
  let n := Z.to_nat (pcm_frames_read * pcm_channels pcmreader) in
  (pcm_frames_read,
   firstn n (pcm_samples pcmreader),
   {| pcm_channels := pcm_channels pcmreader;
      pcm_bits_per_sample := pcm_bits_per_sample pcmreader;
      pcm_samples := skipn n (pcm_samples pcmreader);
      pcm_status_ok := pcm_status_ok pcmreader;
      pcm_short_reads := tl (pcm_short_reads pcmreader) |}).

Definition get_sample (samples : list Z) (c channel_count i : Z) : Z :=
  samples.[i * channel_count + c].

(** The four bytes ["mdat"], as bits. *)
Definition mdat_name : list bool :=
  bits_msb_first 8 109 ++ bits_msb_first 8 100 ++ bits_msb_first 8 97 ++ bits_msb_first 8 116.

(** [while ((pcm_frames_read = pcmreader->read(...)) > 0)]: every round
    takes at least one sample off the source. *)
Fixpoint encode_blocks (rounds : nat) (encoder : alac_context) (pcmreader : PCMReader)
         (output : BitstreamWriter) (frame_sizes : list (Z * Z))
  : BitstreamWriter * list (Z * Z) * PCMReader :=
  match rounds with
  | O => (output, frame_sizes, pcmreader)
  | S r =>
      let '(pcm_frames_read, samples, pcmreader) :=
        pcmreader_read pcmreader (block_size (options encoder)) in
      if pcm_frames_read >? 0 then
        let channel_count := pcm_channels pcmreader in
        (* convert flattened channels into lists of samples *)
        let channels :=
          for_loop 0 channel_count
            (fun c channels =>
               channels ++
               [for_loop 0 pcm_frames_read
                  (fun i channel => channel ++ [get_sample samples c channel_count i])
                  []])
            [] in
        (* perform encoding *)
        let output' := write_frameset output encoder channels in
        (* log each frameset's size in bytes and size in samples *)
        let frame_byte_size := (alen_bits output' - alen_bits output) / 8 in
        encode_blocks r encoder pcmreader output'
                      ((uint32 frame_byte_size, pcm_frames_read) :: frame_sizes)
      else (output, frame_sizes, pcmreader)
  end.

Section WithLibm.

Variable cos : float -> float.

(** [encode_alac]: the bits written after [output], and the frame sizes
    (or [None] for the NULL of a failed read). *)
Definition encode_alac (output : BitstreamWriter) (pcmreader : PCMReader)
           (block_size initial_history history_multiplier maximum_k : Z)
  : BitstreamWriter * option (list (Z * Z)) :=
  let encoder :=
    init_encoder cos
      {| Encoder.block_size := block_size;
         Encoder.initial_history := initial_history;
         Encoder.history_multiplier := history_multiplier;
         Encoder.maximum_k := maximum_k;
         minimum_interlacing_leftweight := 0;
         maximum_interlacing_leftweight := 4 |}
      (pcm_bits_per_sample pcmreader) in
  let mdat_header := length output in
  (* write placeholder mdat header *)
  let output := bw_write output 32 0 in
  let output := output ++ mdat_name in
  (* write frames from pcm_reader until empty *)
  let '(output, frame_sizes, pcmreader) :=
    encode_blocks (S (length (pcm_samples pcmreader))) encoder pcmreader output [] in
  if pcm_status_ok pcmreader then
    (* return to header and rewrite it with the actual value *)
    let total_mdat_size :=
      fold_left (fun total frame_size => uint32 (total + fst frame_size)) frame_sizes 8 in
    (firstn mdat_header output ++ bits_msb_first 32 total_mdat_size
       ++ skipn (mdat_header + 32) output,
     Some (rev frame_sizes))
  else (output, None).

End WithLibm.

End Encoder.

(** ** The decoder *)

Module Decoder.

(* the maximum coefficients that can fit in an unsigned 5-bit field *)
Definition MAX_COEFFICIENTS : Z := 31.

Record subframe_header : Type := {
  prediction_type : Z;
  shift_needed : Z;
  rice_modifier : Z;
  coeff_count : Z;
  coeff : list Z
}.

(** Modelled from the spec: alac.h is not among the sources; "[parameters]
    carries [block_size, bits_per_sample, history_multiplier,
    initial_history, maximum_K, channels]". *)
Record alac_parameters : Type := {
  block_size : Z;
  history_multiplier : Z;
  initial_history : Z;
  maximum_K : Z
}.

Record decoders_ALACDecoder : Type := {
  params : alac_parameters;
  bits_per_sample : Z;
  channels : Z
}.

Definition fail {A : Type} (status : status_t) : reading A := fun _ => failed status.
Definition array_fault {A : Type} : reading A := fun _ => out_of_bounds.
Definition never_returns {A : Type} : reading A := fun _ => diverges.

(** [for (i = lo; i < hi; i++)] over reading code. *)
Definition for_loop_rd {S : Type} (lo hi : Z) (body : Z -> S -> reading S) (s : S)
  : reading S :=
  fold_left (fun m n => x <- m ;; body (lo + Z.of_nat n) x)
            (seq 0 (Z.to_nat (hi - lo))) (ret s).

Definition read_subframe_header : reading subframe_header :=
  prediction_type <- br_read 4 ;;
  if negb (prediction_type =? 0) then fail INVALID_PREDICTION_TYPE
  else
    shift_needed <- br_read 4 ;;
    rice_modifier <- br_read 3 ;;
    coeff_count <- br_read 5 ;;
    coeff <- for_loop_rd 0 coeff_count
               (fun i coeff => c <- br_read_signed 16 ;; ret (coeff ++ [c])) [] ;;
    ret {| prediction_type := prediction_type;
           shift_needed := shift_needed;
           rice_modifier := rice_modifier;
           coeff_count := coeff_count;
           coeff := coeff |}.

(** [int bits = -1; while (value) { bits++; value >>= 1; } return bits;]
    on an [int]: a value that is not negative is empty within 32 rounds, a
    negative one never. *)
Fixpoint LOG2_loop (rounds : nat) (value bits : Z) : option Z :=
  match rounds with
  | O => None
  | S r => if value =? 0 then Some bits else LOG2_loop r (Z.shiftr value 1) (bits + 1)
  end.

Definition LOG2 (value : Z) : reading Z :=
  match LOG2_loop 33 value (-1) with
  | Some bits => ret bits
  | None => never_returns
  end.

(** Modelled from the spec: alac_residual.h is not among the sources; "a
    static prefix-code table mapping unary runs 0..8 to values and a
    9-1s prefix to escape", "the table returns -1 on escape". *)
Fixpoint read_huffman_code_MSB (ones : nat) (run : Z) : reading Z :=
  match ones with
  | O => ret (-1)
  | S n =>
      b <- br_read 1 ;;
      if b =? 0 then ret run else read_huffman_code_MSB n (run + 1)
  end.

Definition read_residual (k sample_size : Z) : reading Z :=
  msb <- read_huffman_code_MSB 9 0 ;;
  (* read a unary 0 value to a maximum of 9 bits *)
  if msb =? -1 then
    (* we've exceeded the maximum number of 1 bits,
       so return an unencoded value *)
    br_read sample_size
  else if k =? 0 then
    (* no least-significant bits to read, so return most-significant bits *)
    ret (uint32 msb)
  else
    (* read a set of least-significant bits *)
    lsb <- br_read (uint32 (k - 1)) ;;
    if lsb =? 0 then
      ret (uint32 (uint32 msb * uint32 (shl32 1 k - 1)))
    else
      b <- br_read 1 ;;
      let lsb := Z.lor (uint32 (Z.shiftl lsb 1)) b in
      ret (uint32 (int32 (msb * int32 (shl32 1 k - 1)) + uint32 (lsb - 1))).

Record residual_reader : Type := {
  rr_i : Z;
  rr_history : Z;
  rr_sign_modifier : Z;
  rr_residual : list Z
}.

(** [residual[i++] = value;] *)
Definition store_residual (st : residual_reader) (value : Z) : reading residual_reader :=
  match set (rr_residual st) (rr_i st) value with
  | Some residual =>
      ret {| rr_i := int32 (rr_i st + 1);
             rr_history := rr_history st;
             rr_sign_modifier := rr_sign_modifier st;
             rr_residual := residual |}
  | None => array_fault
  end.

(** [if ((history < 128) && ((i + 1) < block_size))]: whether the decoder
    goes on to read a run of zeroes; [i] is already past the residual just
    stored. *)
Definition zero_run_follows (history i block_size : Z) : bool :=
  (history <? 128) && (uint32 (int32 (i + 1)) <? block_size).

(** [if (zero_block_size <= 0xFFFF) sign_modifier = 1;] after
    [sign_modifier = 0]. *)
Definition sign_modifier_after_run (zero_block_size : Z) : Z :=
  if zero_block_size <=? 65535 then 1 else 0.

(** One round of [while (i < block_size)] in [read_residual_block]. *)
Definition read_residual_step (params : alac_parameters) (sample_size block_size : Z)
           (st : residual_reader) : reading residual_reader :=
  let maximum_k := uint32 (maximum_K params) in
  let history_multiplier := uint32 (history_multiplier params) in
  let history := rr_history st in
  (* get an unsigned residual based on "history"
     and on "sample_size" as a last resort *)
  k <- LOG2 (int32 (Z.shiftr history 9 + 3)) ;;
  r <- read_residual (MIN (uint32 k) maximum_k) sample_size ;;
  let unsigned_residual := uint32 (r + rr_sign_modifier st) in
  (* change unsigned residual into a signed residual
     and append it to "residuals" *)
  st <- store_residual st
          (if Z.odd unsigned_residual
           then int32 (- Z.shiftr (uint32 (unsigned_residual + 1)) 1)
           else int32 (Z.shiftr unsigned_residual 1)) ;;
  (* then use our old unsigned residual to update "history" *)
  let history :=
    if unsigned_residual >? 65535 then 65535
    else int32 (history
                + uint32 (uint32 (unsigned_residual * history_multiplier)
                          - Z.shiftr (uint32 (history * history_multiplier)) 9)) in
  (* if history gets too small, we may have a block of 0 samples
     which can be compressed more efficiently *)
  if zero_run_follows history (rr_i st) block_size then
    l <- LOG2 history ;;
    zero_block_size <-
      read_residual
        (MIN (uint32 (7 - l + Z.quot (int32 (history + 16)) 64)) maximum_k) 16 ;;
    st_zeroes <-
      (if zero_block_size >? 0 then
         (* ensure block of zeroes doesn't exceed
            remaining residual count *)
         let zero_block_size := MIN zero_block_size (uint32 (block_size - rr_i st)) in
         st <- for_loop_rd 0 zero_block_size (fun j st => store_residual st 0) st ;;
         ret (st, zero_block_size)
       else ret (st, zero_block_size)) ;;
    let '(st, zero_block_size) := st_zeroes in
    ret {| rr_i := rr_i st;
           rr_history := 0;
           rr_sign_modifier := sign_modifier_after_run zero_block_size;
           rr_residual := rr_residual st |}
  else
    ret {| rr_i := rr_i st;
           rr_history := history;
           rr_sign_modifier := 0;
           rr_residual := rr_residual st |}.

(** [while (i < block_size)]: every round stores at least one residual, so
    [block_size] rounds are enough. *)
Fixpoint read_residual_loop (rounds : nat) (params : alac_parameters)
         (sample_size block_size : Z) (st : residual_reader) : reading residual_reader :=
  match rounds with
  | O => ret st
  | S r =>
      if uint32 (rr_i st) <? block_size then
        st <- read_residual_step params sample_size block_size st ;;
        read_residual_loop r params sample_size block_size st
      else ret st
  end.

(** [residual] is the caller's array of [block_size] entries; the result
    is the array after the call. *)
Definition read_residual_block (params : alac_parameters) (sample_size block_size : Z)
           (residual : list Z) : reading (list Z) :=
  st <- read_residual_loop (Z.to_nat block_size) params sample_size block_size
          {| rr_i := 0;
             rr_history := int32 (initial_history params);
             rr_sign_modifier := 0;
             rr_residual := residual |} ;;
  ret (rr_residual st).

Definition SIGN_ONLY (value : Z) : Z :=
  if value >? 0 then 1 else if value <? 0 then -1 else 0.

(** The coefficient update after a positive ([up = true]) or negative
    residual: [for (j = 0; j < coeff_count; j++) { ...; if (residual <= 0) break; }]. *)
Fixpoint adapt (up : bool) (steps : nat) (j coeff_count i base_sample qlp_shift_needed : Z)
         (subframe coeff : list Z) (residual : Z) : list Z :=
  match steps with
  | O => coeff
  | S steps' =>
      let diff := int32 (base_sample - subframe.[i - coeff_count + j]) in
      let sign := SIGN_ONLY diff in
      let c := coeff.[coeff_count - j - 1] in
      let coeff :=
        match set coeff (coeff_count - j - 1)
                  (int32 (if up then c - sign else c + sign)) with
        | Some cs => cs
        | None => coeff
        end in
      let residual :=
        int32 (residual
               - Z.shiftr (int32 (diff * (if up then sign else - sign))) qlp_shift_needed
                 * (j + 1)) in
      if (if up then residual <=? 0 else residual >=? 0) then coeff
      else adapt up steps' (j + 1) coeff_count i base_sample qlp_shift_needed
                 subframe coeff residual
  end.

(** [subframe] is built entry by entry, in the order the loops store it.
    The rounding term [1 << (qlp_shift_needed - 1)] is that of the C code
    for a [qlp_shift_needed] from 1 to 31; at 0 the count of the C shift is
    [0u - 1], which C leaves undefined. *)
Definition decode_subframe (block_size : Z) (header : subframe_header)
           (residuals : list Z) : list Z :=
  let qlp_shift_needed := shift_needed header in
  let coeff_count := coeff_count header in
  let coeff := coeff header in
  let subframe := [residuals.[0]] in
  let subframe :=
    for_loop 1 (coeff_count + 1)
      (fun i subframe => subframe ++ [int32 (residuals.[i] + subframe.[i - 1])])
      subframe in
  fst (for_loop (coeff_count + 1) block_size
         (fun i '(subframe, coeff) =>
            let residual := residuals.[i] in
            let base_sample := subframe.[i - coeff_count - 1] in
            let qlp_sum :=
              for_loop 0 coeff_count
                (fun j qlp_sum =>
                   int64 (qlp_sum + int32 (coeff.[j]
                                           * int32 (subframe.[i - j - 1] - base_sample))))
                0 in
            let qlp_sum := int64 (qlp_sum + shl32 1 (uint32 (qlp_shift_needed - 1))) in
            let qlp_sum := Z.shiftr qlp_sum qlp_shift_needed in
            let sample := int32 (int32 qlp_sum + residual + base_sample) in
            let subframe := subframe ++ [sample] in
            let coeff :=
              if residual >? 0 then
                adapt true (Z.to_nat coeff_count) 0 coeff_count i base_sample
                      qlp_shift_needed subframe coeff residual
              else if residual <? 0 then
                adapt false (Z.to_nat coeff_count) 0 coeff_count i base_sample
                      qlp_shift_needed subframe coeff residual
              else coeff in
            (subframe, coeff))
         (subframe, coeff)).

(** The result is the pair [(left, right)]. *)
Definition decorrelate_channels (block_size interlacing_shift interlacing_leftweight : Z)
           (subframe_0 subframe_1 : list Z) : list Z * list Z :=
  for_loop 0 block_size
    (fun i '(left_, right_) =>
       let leftweight := int64 subframe_1.[i] in
       let leftweight := int64 (leftweight * interlacing_leftweight) in
       let leftweight := Z.shiftr leftweight interlacing_shift in
       let r := int32 (subframe_0.[i] - int32 leftweight) in
       (left_ ++ [int32 (subframe_1.[i] + r)], right_ ++ [r]))
    ([], []).

Definition decode_uncompressed_frame (bits_per_sample block_size channels : Z)
  : reading (list Z * list Z) :=
  if channels =? 2 then
    for_loop_rd 0 block_size
      (fun i '(channel_0, channel_1) =>
         s0 <- br_read_signed bits_per_sample ;;
         s1 <- br_read_signed bits_per_sample ;;
         ret (channel_0 ++ [s0], channel_1 ++ [s1]))
      ([], [])
  else
    for_loop_rd 0 block_size
      (fun i '(channel_0, channel_1) =>
         s0 <- br_read_signed bits_per_sample ;;
         ret (channel_0 ++ [s0], channel_1))
      ([], []).

(** The last loop of [decode_compressed_frame], for the channel [c]:
    [channel[i] <<= uncompressed_bits; channel[i] |= LSBs[c][i];].  The low
    bits are kept in the order they were read, sample after sample and, in
    every sample, channel after channel. *)
Definition apply_LSBs (uncompressed_bits block_size channels : Z) (LSBs : list Z)
           (c : Z) (channel : list Z) : list Z :=
  for_loop 0 block_size
    (fun i out =>
       out ++ [Z.lor (int32 (Z.shiftl channel.[i] uncompressed_bits))
                     LSBs.[i * channels + c]])
    [].

Definition decode_compressed_frame (params : alac_parameters)
           (uncompressed_LSBs bits_per_sample block_size channels : Z)
  : reading (list Z * list Z) :=
  let sample_size := uint32 (bits_per_sample - uncompressed_LSBs * 8 + (channels - 1)) in
  interlacing_shift <- br_read 8 ;;
  interlacing_leftweight <- br_read 8 ;;
  subframe_header <-
    for_loop_rd 0 channels
      (fun c headers => h <- read_subframe_header ;; ret (headers ++ [h])) [] ;;
  LSBs <-
    (if negb (uncompressed_LSBs =? 0) then
       let uncompressed_bits := uncompressed_LSBs * 8 in
       for_loop_rd 0 block_size
         (fun i LSBs =>
            for_loop_rd 0 channels
              (fun c LSBs => l <- br_read uncompressed_bits ;; ret (LSBs ++ [l]))
              LSBs)
         []
     else ret []) ;;
  subframe <-
    for_loop_rd 0 channels
      (fun c subframe =>
         residual <- read_residual_block params sample_size block_size
                       (repeat 0 (Z.to_nat block_size)) ;;
         match nth_error subframe_header (Z.to_nat c) with
         | Some header => ret (subframe ++ [decode_subframe block_size header residual])
         | None => array_fault
         end)
      [] ;;
  let subframe_0 := nth 0 subframe [] in
  let subframe_1 := nth 1 subframe [] in
  let '(channel_0, channel_1) :=
    if (channels =? 2) && (interlacing_leftweight >? 0) then
      decorrelate_channels block_size interlacing_shift interlacing_leftweight
                           subframe_0 subframe_1
    else (firstn (Z.to_nat block_size) subframe_0, firstn (Z.to_nat block_size) subframe_1) in
  (* apply uncompressed LSBs, if any *)
  if uncompressed_LSBs >? 0 then
    let uncompressed_bits := uncompressed_LSBs * 8 in
    if channels =? 2 then
      ret (apply_LSBs uncompressed_bits block_size channels LSBs 0 channel_0,
           apply_LSBs uncompressed_bits block_size channels LSBs 1 channel_1)
    else ret (apply_LSBs uncompressed_bits block_size channels LSBs 0 channel_0, channel_1)
  else ret (channel_0, channel_1).

(** The result is the frame's block size and its one or two channels. *)
Definition decode_frame (params : alac_parameters) (bits_per_sample channels : Z)
  : reading (Z * (list Z * list Z)) :=
  (* 20 or 52-bit frame header *)
  br_skip 16 ;;;
  has_sample_count <- br_read 1 ;;
  uncompressed_LSBs <- br_read 2 ;;
  not_uncompressed <- br_read 1 ;;
  frame_block_size <-
    (if has_sample_count =? 0 then ret (block_size params)
     else
       n <- br_read 32 ;;
       if n >? block_size params then fail INVALID_BLOCK_SIZE else ret n) ;;
  (* either compressed or uncompressed frame based on header *)
  decoded <-
    (if not_uncompressed =? 0 then
       decode_compressed_frame params uncompressed_LSBs bits_per_sample
                               frame_block_size channels
     else
       decode_uncompressed_frame bits_per_sample frame_block_size channels) ;;
  ret (frame_block_size, decoded).

Record frameset_state : Type := {
  fs_c : Z;
  fs_block_size : Z;
  fs_channels : Z;
  fs_samples : list (list Z)
}.

(** [while (channels != 8)]: every round adds one or two channels and stops
    once they exceed the stream's, so [self->channels + 1] rounds are enough.
    [fs_samples] holds, for every channel index [c] passed to
    [put_channel_data], the channel stored there. *)
Fixpoint decode_frames (rounds : nat) (self : decoders_ALACDecoder) (st : frameset_state)
  : reading frameset_state :=
  match rounds with
  | O => ret st
  | S r =>
      let channels := fs_channels st in
      let c := fs_c st in
      if negb (channels =? 8) then
        if negb (channels =? 1) && negb (channels =? 2) then
          (* only handle 1 or 2 channel frames *)
          fail INVALID_FRAME_CHANNEL_COUNT
        else if c + channels >? Decoder.channels self then
          (* ensure one doesn't decode too many channels *)
          fail EXCESSIVE_FRAME_CHANNEL_COUNT
        else
          frame <- decode_frame (params self) (bits_per_sample self) channels ;;
          let '(frame_block_size, (channel_0, channel_1)) := frame in
          if negb (c =? 0) && negb (fs_block_size st =? frame_block_size) then
            fail FRAME_BLOCK_SIZE_MISMATCH
          else
            let block_size := if c =? 0 then frame_block_size else fs_block_size st in
            let samples := fs_samples st ++ [firstn (Z.to_nat block_size) channel_0] in
            let samples :=
              if channels =? 2
              then samples ++ [firstn (Z.to_nat block_size) channel_1] else samples in
            next <- br_read 3 ;;
            decode_frames r self
              {| fs_c := c + channels;
                 fs_block_size := block_size;
                 fs_channels := next + 1;
                 fs_samples := samples |}
      else ret st
  end.

(** [put_channel_data(samples, c, self->channels, block_size, channel)]
    stores [channel[i]] at [samples[i * self->channels + c]]; the buffer
    read back frame after frame. *)
Definition interleave (total_channels pcm_frames : Z) (samples : list (list Z)) : list Z :=
  for_loop 0 pcm_frames
    (fun i out =>
       for_loop 0 total_channels
         (fun c out => out ++ [(nth (Z.to_nat c) samples []).[i]]) out)
    [].

(** The result is [*pcm_frames_read] and the [samples] buffer up to
    [pcm_frames_read * self->channels]. *)
Definition decode_frameset (self : decoders_ALACDecoder) : reading (Z * list Z) :=
  first <- br_read 3 ;;
  st <- decode_frames (Z.to_nat (channels self) + 1) self
          {| fs_c := 0;
             fs_block_size := block_size (params self);
             fs_channels := first + 1;
             fs_samples := [] |} ;;
  br_byte_align ;;;
  ret (fs_block_size st, interleave (channels self) (fs_block_size st) (fs_samples st)).

(** [ALACDecoder_read] called until the payload of [mdat_size] bytes is
    used up: the samples of all framesets, one after the other.  Every call
    reads at least three bits. *)
Fixpoint read_framesets (rounds : nat) (self : decoders_ALACDecoder) (mdat_end : Z)
         (pcm : list Z) : reading (list Z) :=
  match rounds with
  | O => ret pcm
  | S r => fun br =>
      if bits_read br >=? mdat_end then ok pcm br
      else (frameset <- decode_frameset self ;;
            read_framesets r self mdat_end (pcm ++ snd frameset)) br
  end.

(** The decoder over the bits [encode_alac] wrote: the 32-bit size and
    the name of the mdat atom, then its framesets. *)
Definition decode_alac (self : decoders_ALACDecoder) (file : list bool) : rd (list Z) :=
  (atom_size <- br_read 32 ;;
   br_skip 32 ;;;
   read_framesets (length file) self (atom_size * 8) [])
    (br_open file).

End Decoder.

(** * Properties *)

(** Boolean comparisons of the code, turned into propositions. *)
Ltac zbool :=
  repeat match goal with
    | H : (_ <? _) = true |- _ => apply Z.ltb_lt in H
    | H : (_ <? _) = false |- _ => apply Z.ltb_ge in H
    | H : (_ <=? _) = true |- _ => apply Z.leb_le in H
    | H : (_ <=? _) = false |- _ => apply Z.leb_gt in H
    | H : (_ =? _) = true |- _ => apply Z.eqb_eq in H
    | H : (_ =? _) = false |- _ => apply Z.eqb_neq in H
    | H : (_ >? _) = true |- _ => apply Z.gtb_lt in H
    | H : (_ >? _) = false |- _ => rewrite Z.gtb_ltb in H; apply Z.ltb_ge in H
    | H : (_ >=? _) = true |- _ => apply Z.geb_le in H
    | H : (_ >=? _) = false |- _ => rewrite Z.geb_leb in H; apply Z.leb_gt in H
    end.

(** ** C integers *)

Definition is_int (z : Z) : Prop := - 2 ^ 31 <= z < 2 ^ 31.
Definition is_unsigned (z : Z) : Prop := 0 <= z < 2 ^ 32.

Lemma int32_is_int (z : Z) : is_int (int32 z).
Proof. unfold is_int, int32. pose proof (Z.mod_pos_bound (z + 2 ^ 31) (2 ^ 32)). lia. Qed.

Lemma int32_id (z : Z) : is_int z -> int32 z = z.
Proof. unfold is_int, int32. intros H. rewrite Z.mod_small; lia. Qed.

Lemma uint32_is_unsigned (z : Z) : is_unsigned (uint32 z).
Proof. unfold is_unsigned, uint32. apply Z.mod_pos_bound. lia. Qed.

Lemma uint32_id (z : Z) : is_unsigned z -> uint32 z = z.
Proof. unfold is_unsigned, uint32. intros H. apply Z.mod_small; lia. Qed.

Lemma int64_id (z : Z) : - 2 ^ 63 <= z < 2 ^ 63 -> int64 z = z.
Proof. unfold int64. intros H. rewrite Z.mod_small; lia. Qed.

(** [int32] and [uint32] keep the value modulo 2^32. *)
Lemma int32_eqm (z : Z) : exists q, int32 z = z + q * 2 ^ 32.
Proof.
  unfold int32. exists (- ((z + 2 ^ 31) / 2 ^ 32)).
  pose proof (Z.div_mod (z + 2 ^ 31) (2 ^ 32)). lia.
Qed.

Lemma uint32_eqm (z : Z) : exists q, uint32 z = z + q * 2 ^ 32.
Proof.
  unfold uint32. exists (- (z / 2 ^ 32)).
  pose proof (Z.div_mod z (2 ^ 32)). lia.
Qed.

Lemma int32_congr (a b q : Z) : a = b + q * 2 ^ 32 -> int32 a = int32 b.
Proof.
  intros ->. unfold int32.
  replace (b + q * 2 ^ 32 + 2 ^ 31) with (b + 2 ^ 31 + q * 2 ^ 32) by ring.
  now rewrite Z.mod_add by lia.
Qed.

Lemma uint32_congr (a b q : Z) : a = b + q * 2 ^ 32 -> uint32 a = uint32 b.
Proof. intros ->. unfold uint32. now rewrite Z.mod_add by lia. Qed.

(** ** Loops *)

Lemma for_loop_empty {T : Type} (lo hi : Z) (body : Z -> T -> T) (s : T) :
  hi <= lo -> for_loop lo hi body s = s.
Proof.
  intros H. unfold for_loop. replace (Z.to_nat (hi - lo)) with 0%nat by lia. reflexivity.
Qed.

Lemma for_loop_last {T : Type} (lo hi : Z) (body : Z -> T -> T) (s : T) :
  lo <= hi -> for_loop lo (hi + 1) body s = body hi (for_loop lo hi body s).
Proof.
  intros H. unfold for_loop.
  replace (Z.to_nat (hi + 1 - lo)) with (S (Z.to_nat (hi - lo))) by lia.
  rewrite seq_S, fold_left_app. simpl. f_equal. lia.
Qed.

(** Induction over the rounds of a [for] loop. *)
Lemma for_loop_ind {T : Type} (P : Z -> T -> Prop) (lo hi : Z) (body : Z -> T -> T) (s : T) :
  lo <= hi ->
  P lo s ->
  (forall i x, lo <= i < hi -> P i x -> P (i + 1) (body i x)) ->
  P hi (for_loop lo hi body s).
Proof.
  intros Hle H0 Hstep.
  assert (forall n : nat, lo + Z.of_nat n <= hi ->
            P (lo + Z.of_nat n) (for_loop lo (lo + Z.of_nat n) body s)) as H.
  { induction n as [|n IH]; intros Hn.
    - rewrite Z.add_0_r, for_loop_empty by lia. exact H0.
    - replace (lo + Z.of_nat (S n)) with (lo + Z.of_nat n + 1) by lia.
      rewrite for_loop_last by lia. apply Hstep; [lia|]. apply IH. lia. }
  specialize (H (Z.to_nat (hi - lo))).
  replace (lo + Z.of_nat (Z.to_nat (hi - lo))) with hi in H by lia.
  apply H. lia.
Qed.

Lemma get_app_l (a b : list Z) (i : Z) : 0 <= i < alen a -> (a ++ b).[i] = a.[i].
Proof.
  unfold get, alen. intros H. destruct (i <? 0) eqn:E; zbool; [lia|].
  apply app_nth1. lia.
Qed.

Lemma get_app_last (a : list Z) (x : Z) : (a ++ [x]).[alen a] = x.
Proof.
  unfold get, alen. destruct (Z.of_nat (length a) <? 0) eqn:E; zbool; [lia|].
  rewrite Nat2Z.id, app_nth2 by (unfold ge; apply Nat.le_refl).
  rewrite Nat.sub_diag. reflexivity.
Qed.

Lemma alen_app (a b : list Z) : alen (a ++ b) = alen a + alen b.
Proof. unfold alen. rewrite length_app. lia. Qed.

Lemma get_in_range (a : list Z) (i : Z) : 0 <= i < alen a -> In a.[i] a.
Proof.
  unfold get, alen. intros H. destruct (i <? 0) eqn:E; zbool; [lia|]. apply nth_In. lia.
Qed.

Lemma get_out_of_range (a : list Z) (i : Z) : alen a <= i -> a.[i] = 0.
Proof.
  unfold get, alen. intros H. destruct (i <? 0) eqn:E; zbool; [reflexivity|].
  apply nth_overflow. lia.
Qed.

Lemma get_is_int (a : list Z) (i : Z) : Forall is_int a -> is_int a.[i].
Proof.
  intros H. destruct (Z_lt_dec i 0) as [Hn|Hn].
  - unfold get. destruct (i <? 0) eqn:E; zbool; [|lia]. unfold is_int; lia.
  - destruct (Z_lt_dec i (alen a)) as [Hi|Hi].
    + rewrite Forall_forall in H. apply H, get_in_range. lia.
    + rewrite get_out_of_range by lia. unfold is_int; lia.
Qed.

(** Two lists of the same length with the same entries are equal. *)
Lemma list_eq_get (a b : list Z) :
  alen a = alen b -> (forall i, 0 <= i < alen a -> a.[i] = b.[i]) -> a = b.
Proof.
  unfold alen. intros Hlen H. apply nth_ext with (d := 0) (d' := 0); [lia|].
  intros n Hn. specialize (H (Z.of_nat n)). unfold get in H.
  destruct (Z.of_nat n <? 0) eqn:E; zbool; [lia|]. rewrite Nat2Z.id in H. apply H. lia.
Qed.

Lemma get_app_last' (a : list Z) (x i : Z) : alen a = i -> (a ++ [x]).[i] = x.
Proof. intros <-. apply get_app_last. Qed.

(** A loop that appends one entry to each of two arrays per round. *)
Lemma for_loop_collect2 (f g : Z -> Z) (n : Z) (a b : list Z) :
  0 <= n ->
  for_loop 0 n (fun i '(a, b) => (a ++ [f i], b ++ [g i])) ([], []) = (a, b) ->
  alen a = n /\ alen b = n /\
  forall i, 0 <= i < n -> a.[i] = f i /\ b.[i] = g i.
Proof.
  intros Hn.
  pose proof
    (for_loop_ind
       (fun n (st : list Z * list Z) =>
          alen (fst st) = n /\ alen (snd st) = n /\
          forall i, 0 <= i < n -> (fst st).[i] = f i /\ (snd st).[i] = g i)
       0 n (fun i '(a, b) => (a ++ [f i], b ++ [g i])) ([], []) Hn) as H.
  intros E. rewrite E in H. apply H; clear H E.
  - repeat split; try reflexivity; lia.
  - intros i [c0 c1] Hi (H0 & H1 & H). cbn [fst snd] in *.
    rewrite !alen_app.
    split; [unfold alen in *; simpl; lia|].
    split; [unfold alen in *; simpl; lia|].
    intros j Hj. destruct (Z.eq_dec j i) as [->|Hne].
    + rewrite !get_app_last' by assumption. split; reflexivity.
    + rewrite !get_app_l by lia. apply H. lia.
Qed.

Lemma int32_add_sub (a x : Z) : is_int a -> int32 (int32 (a + x) - x) = a.
Proof.
  intros Ha. destruct (int32_eqm (a + x)) as [q Hq].
  rewrite (int32_congr _ a q) by lia. now apply int32_id.
Qed.

Lemma int32_sub_add (a b : Z) : is_int a -> int32 (int32 (a - b) + b) = a.
Proof.
  intros Ha. destruct (int32_eqm (a - b)) as [q Hq].
  rewrite (int32_congr _ a q) by lia. now apply int32_id.
Qed.

Lemma int64_int32 (z : Z) : int64 (int32 z) = int32 z.
Proof. apply int64_id. pose proof (int32_is_int z). unfold is_int in *. lia. Qed.

(** ** Channel decorrelation *)

(** C8: for two channels of the same length, every shift and every
    leftweight above 0, [decorrelate_channels] applied to what
    [correlate_channels] gives returns the two channels; and with leftweight 0
    [correlate_channels] passes both channels through unchanged. *)
Theorem decorrelate_correlate (s0 s1 : list Z) (shift leftweight : Z) :
  length s0 = length s1 ->
  Forall is_int s0 -> Forall is_int s1 ->
  (leftweight > 0 ->
   let correlated := Encoder.correlate_channels [s0; s1] shift leftweight in
   Decoder.decorrelate_channels (alen s0) shift leftweight
     (channel correlated 0) (channel correlated 1) = (s0, s1))
  /\ Encoder.correlate_channels [s0; s1] shift 0 = [s0; s1].
Proof.
  intros Hlen Hs0 Hs1. split; [|reflexivity].
  intros Hlw. unfold Encoder.correlate_channels.
  change (channel [s0; s1] 0) with s0. change (channel [s0; s1] 1) with s1.
  destruct (leftweight >? 0) eqn:E; zbool; [|lia].
  match goal with |- context [for_loop 0 ?n ?body ?init] =>
    destruct (for_loop 0 n body init) as [c0 c1] eqn:Ec end.
  apply (for_loop_collect2
           (fun i => int32 (s1.[i] + int32 (Z.shiftr (int64 (int64 (int32 (s0.[i] - s1.[i])) * leftweight)) shift)))
           (fun i => int32 (s0.[i] - s1.[i]))) in Ec; [|unfold alen; lia].
  destruct Ec as (Hc0 & Hc1 & Hc). cbv zeta.
  change (channel [c0; c1] 0) with c0. change (channel [c0; c1] 1) with c1.
  unfold Decoder.decorrelate_channels.
  match goal with |- context [for_loop 0 ?n ?body ?init] =>
    destruct (for_loop 0 n body init) as [l r] eqn:El end.
  apply (for_loop_collect2
           (fun i => int32 (c1.[i] + int32 (c0.[i] - int32 (Z.shiftr (int64 (int64 c1.[i] * leftweight)) shift))))
           (fun i => int32 (c0.[i] - int32 (Z.shiftr (int64 (int64 c1.[i] * leftweight)) shift)))) in El;
    [|unfold alen; lia].
  destruct El as (Hl & Hr & Hlr).
  assert (forall i, 0 <= i < alen s0 -> l.[i] = s0.[i] /\ r.[i] = s1.[i]) as Heq.
  { intros i Hi. destruct (Hlr i Hi) as [Hli Hri]. destruct (Hc i Hi) as [Hc0i Hc1i].
    rewrite Hli, Hri, Hc0i, Hc1i. rewrite !int64_int32.
    rewrite int32_add_sub by (now apply get_is_int).
    split; [|reflexivity]. apply int32_sub_add. now apply get_is_int. }
  f_equal; apply list_eq_get; try lia.
  - intros i Hi. apply Heq. lia.
  - unfold alen in *. lia.
  - intros i Hi. apply Heq. unfold alen in *. lia.
Qed.

(** C8 at two channels of three samples, shift 2 and leftweight 3. *)
Lemma decorrelate_correlate_witness :
  Decoder.decorrelate_channels 3 2 3
    (channel (Encoder.correlate_channels [[100; -7; 32767]; [-5; 9; -32768]] 2 3) 0)
    (channel (Encoder.correlate_channels [[100; -7; 32767]; [-5; 9; -32768]] 2 3) 1)
  = ([100; -7; 32767], [-5; 9; -32768]).
Proof.
  apply (decorrelate_correlate [100; -7; 32767] [-5; 9; -32768] 2 3).
  - reflexivity.
  - repeat constructor; unfold is_int; lia.
  - repeat constructor; unfold is_int; lia.
  - lia.
Defined.

(** ** Shifts and masks *)

Lemma shl32_1_small (n : Z) : 0 <= n <= 30 -> shl32 1 n = 2 ^ n.
Proof.
  intros H. unfold shl32. destruct (32 <=? n) eqn:E; zbool; [lia|].
  rewrite Z.shiftl_1_l. apply int32_id. unfold is_int.
  assert (2 ^ n <= 2 ^ 30) by (apply Z.pow_le_mono_r; lia).
  assert (0 < 2 ^ n) by (apply Z.pow_pos_nonneg; lia). lia.
Qed.

Lemma shl32_1_31 : shl32 1 31 = - 2 ^ 31.
Proof. reflexivity. Qed.

Lemma shl32_large (x n : Z) : 32 <= n -> shl32 x n = 0.
Proof. intros H. unfold shl32. destruct (32 <=? n) eqn:E; zbool; [reflexivity|lia]. Qed.

Lemma land_pow2 (t k : Z) :
  0 <= k -> Z.land t (2 ^ k) = if Z.testbit t k then 2 ^ k else 0.
Proof.
  intros Hk. apply Z.bits_inj'. intros i Hi.
  rewrite Z.land_spec, Z.pow2_bits_eqb by lia.
  destruct (Z.eqb_spec k i) as [->|Hne].
  - rewrite andb_true_r. destruct (Z.testbit t i) eqn:E.
    + rewrite Z.pow2_bits_true; auto.
    + now rewrite Z.bits_0.
  - rewrite andb_false_r. destruct (Z.testbit t k).
    + rewrite Z.pow2_bits_false; auto.
    + now rewrite Z.bits_0.
Qed.

Lemma testbit_top (t k : Z) :
  0 <= k -> 0 <= t < 2 ^ (k + 1) -> Z.testbit t k = (2 ^ k <=? t).
Proof.
  intros Hk Ht. replace (k + 1) with (Z.succ k) in Ht by lia.
  rewrite Z.pow_succ_r in Ht by lia.
  assert (0 < 2 ^ k) as Hp by (apply Z.pow_pos_nonneg; lia).
  destruct (2 ^ k <=? t) eqn:E; zbool.
  - apply Z.testbit_true; [lia|].
    replace (t / 2 ^ k) with 1; [reflexivity|].
    apply Z.div_unique with (r := t - 2 ^ k); lia.
  - apply Z.testbit_false; [lia|]. rewrite Z.div_small by lia. reflexivity.
Qed.

(** The range of [TRUNCATE_BITS] for widths inside an [int]. *)
Lemma TRUNCATE_BITS_range_small (v n : Z) :
  1 <= n <= 31 -> - 2 ^ (n - 1) <= Encoder.TRUNCATE_BITS v n < 2 ^ (n - 1).
Proof.
  intros Hn. unfold Encoder.TRUNCATE_BITS.
  assert (0 < 2 ^ (n - 1)) as Hp by (apply Z.pow_pos_nonneg; lia).
  assert (2 ^ n = 2 * 2 ^ (n - 1)) as Hd.
  { replace n with (Z.succ (n - 1)) at 1 by lia. rewrite Z.pow_succ_r by lia. reflexivity. }
  assert (2 ^ (n - 1) <= 2 ^ 30) as Hle by (apply Z.pow_le_mono_r; lia).
  rewrite (uint32_id (n - 1)) by (unfold is_unsigned; lia).
  assert (int32 (shl32 1 n - 1) = 2 ^ n - 1) as Hmask.
  { destruct (Z.eq_dec n 31) as [->|Hne]; [reflexivity|].
    rewrite shl32_1_small by lia. apply int32_id. unfold is_int. lia. }
  rewrite Hmask. replace (2 ^ n - 1) with (Z.ones n) by (rewrite Z.ones_equiv; lia).
  rewrite Z.land_ones by lia.
  pose proof (Z.mod_pos_bound v (2 ^ n)) as Hm.
  rewrite shl32_1_small by lia.
  rewrite land_pow2 by lia.
  rewrite (testbit_top (v mod 2 ^ n) (n - 1)) by (replace (n - 1 + 1) with n by lia; lia).
  destruct (2 ^ (n - 1) <=? v mod 2 ^ n) eqn:E; zbool.
  - replace (2 ^ (n - 1) =? 0) with false by (symmetry; apply Z.eqb_neq; lia).
    cbn [negb].
    assert (int32 (v mod 2 ^ n - shl32 1 n) = v mod 2 ^ n - 2 ^ n) as ->.
    { destruct (Z.eq_dec n 31) as [->|Hne].
      - rewrite shl32_1_31.
        rewrite (int32_congr _ (v mod 2 ^ 31 - 2 ^ 31) 1) by lia.
        apply int32_id. unfold is_int. lia.
      - rewrite shl32_1_small by lia. apply int32_id. unfold is_int. lia. }
    lia.
  - rewrite Z.eqb_refl. cbn [negb]. lia.
Qed.

(** Widths of 32 bits and more leave an [int] as it is. *)
Lemma TRUNCATE_BITS_wide (v n : Z) :
  is_int v -> 32 <= n -> Encoder.TRUNCATE_BITS v n = v.
Proof.
  intros Hv Hn. unfold Encoder.TRUNCATE_BITS.
  rewrite (shl32_large 1 n) by lia.
  change (int32 (0 - 1)) with (-1). rewrite Z.land_m1_r. rewrite Z.sub_0_r.
  rewrite (int32_id v Hv).
  match goal with |- (if ?c then _ else _) = _ => destruct c end; reflexivity.
Qed.

Lemma TRUNCATE_BITS_0 (v : Z) : Encoder.TRUNCATE_BITS v 0 = 0.
Proof.
  unfold Encoder.TRUNCATE_BITS. change (int32 (shl32 1 0 - 1)) with 0.
  repeat rewrite Z.land_0_r. reflexivity.
Qed.

Lemma TRUNCATE_BITS_range (v n : Z) :
  is_int v -> 1 <= n -> - 2 ^ (n - 1) <= Encoder.TRUNCATE_BITS v n < 2 ^ (n - 1).
Proof.
  intros Hv Hn. destruct (Z_le_dec n 31) as [H|H].
  - apply TRUNCATE_BITS_range_small. lia.
  - rewrite TRUNCATE_BITS_wide by (assumption || lia).
    assert (2 ^ 31 <= 2 ^ (n - 1)) by (apply Z.pow_le_mono_r; lia).
    unfold is_int in Hv. lia.
Qed.

Lemma TRUNCATE_BITS_is_int (v n : Z) :
  is_int v -> 0 <= n -> is_int (Encoder.TRUNCATE_BITS v n).
Proof.
  intros Hv Hn. destruct (Z.eq_dec n 0) as [->|H0].
  - rewrite TRUNCATE_BITS_0. unfold is_int. lia.
  - destruct (Z_le_dec n 31) as [H|H].
    + pose proof (TRUNCATE_BITS_range_small v n ltac:(lia)).
      assert (2 ^ (n - 1) <= 2 ^ 30) by (apply Z.pow_le_mono_r; lia).
      unfold is_int. lia.
    + rewrite TRUNCATE_BITS_wide by (assumption || lia). exact Hv.
Qed.

(** ** The residuals of [calculate_residuals] *)

Lemma for_loop_Forall (P : Z -> Prop) (lo hi : Z) (f : Z -> Z) (init : list Z) :
  Forall P init -> (forall i, P (f i)) ->
  Forall P (for_loop lo hi (fun i residuals => residuals ++ [f i]) init).
Proof.
  intros Hinit Hf. destruct (Z_le_dec lo hi) as [Hle|Hgt].
  - apply (for_loop_ind (fun _ l => Forall P l)); auto.
    intros i x _ Hx. apply Forall_app. split; auto.
  - rewrite for_loop_empty by lia. exact Hinit.
Qed.

Lemma calculate_residuals_is_int (sample_size sample_count : Z) (samples : list Z)
      (order : Z) (qlp_coefficients : list Z) :
  Forall is_int samples -> 0 <= sample_size ->
  Forall is_int
    (Encoder.calculate_residuals sample_size sample_count samples order qlp_coefficients).
Proof.
  intros Hs Hsize. unfold Encoder.calculate_residuals.
  assert (Forall is_int [samples.[0]]) as H0.
  { constructor; [now apply get_is_int|constructor]. }
  assert (forall v, is_int (Encoder.TRUNCATE_BITS (int32 v) sample_size)) as HT.
  { intros v. apply TRUNCATE_BITS_is_int; [apply int32_is_int|assumption]. }
  destruct (order <? 31).
  - match goal with |- context [for_loop 1 (order + 1) ?body ?init] =>
      assert (Forall is_int (for_loop 1 (order + 1) body init)) as H1
    end.
    { apply (for_loop_Forall is_int 1 (order + 1)
               (fun i => Encoder.TRUNCATE_BITS (int32 (samples.[i] - samples.[i - 1])) sample_size));
        auto. }
    match goal with |- context [for_loop (order + 1) sample_count ?body ?init] =>
      set (loop := for_loop (order + 1) sample_count body init)
    end.
    destruct (Z_le_dec (order + 1) sample_count) as [Hle|Hgt].
    + subst loop.
      apply (for_loop_ind (fun _ (st : list Z * list Z) => Forall is_int (fst st)));
        [lia|exact H1|].
      intros i [residuals coefficients] _ Hx. cbn [fst] in *. cbv beta iota zeta.
      cbn [fst]. apply Forall_app. split; [exact Hx|]. constructor; [apply HT|constructor].
    + subst loop. rewrite for_loop_empty by lia. exact H1.
  - apply (for_loop_Forall is_int 1 sample_count
             (fun i => Encoder.TRUNCATE_BITS (int32 (samples.[i] - samples.[i - 1])) sample_size));
      auto.
Qed.

(** C3, as amended: for every residual [r] that [calculate_residuals] emits
    and every width [n >= 1], the truncated value lies in the two's-complement
    range of [n] bits, [- 2^(n-1) <= TRUNCATE_BITS r n < 2^(n-1)]; so its
    absolute value is at most [2^(n-1)], and the lower end is reached. *)
Theorem truncated_residual_range (sample_size sample_count : Z) (samples : list Z)
        (order : Z) (qlp_coefficients : list Z) (r n : Z) :
  Forall is_int samples -> 0 <= sample_size -> 1 <= n ->
  In r (Encoder.calculate_residuals sample_size sample_count samples order qlp_coefficients) ->
  - 2 ^ (n - 1) <= Encoder.TRUNCATE_BITS r n < 2 ^ (n - 1).
Proof.
  intros Hs Hsize Hn Hin. apply TRUNCATE_BITS_range; [|assumption].
  pose proof (calculate_residuals_is_int sample_size sample_count samples order
                qlp_coefficients Hs Hsize) as H.
  rewrite Forall_forall in H. now apply H.
Qed.

(** C3 at the residual [-32768] of the samples [32767, -1, 0, ...]. *)
Lemma truncated_residual_range_witness :
  - 2 ^ (16 - 1)
  <= Encoder.TRUNCATE_BITS (-32768) 16 < 2 ^ (16 - 1).
Proof.
  apply (truncated_residual_range 16 10 [32767; -1; 0; 0; 0; 0; 0; 0; 0; 0] 4 [0; 0; 0; 0]).
  - repeat constructor; unfold is_int; lia.
  - lia.
  - lia.
  - vm_compute. right. left. reflexivity.
Defined.

(** C3 as stated fails: the first difference of the 16-bit samples 32767
    and -1 is the residual -32768, whose truncation to 16 bits has the absolute value
    [2^15], not one below it. *)
Lemma truncated_residual_reaches_bound :
  In (-32768)
     (Encoder.calculate_residuals 16 10 [32767; -1; 0; 0; 0; 0; 0; 0; 0; 0] 4 [0; 0; 0; 0])
  /\ Z.abs (Encoder.TRUNCATE_BITS (-32768) 16) = 2 ^ (16 - 1).
Proof. split; [vm_compute; right; left; reflexivity|reflexivity]. Qed.

(** ** Reading back what was written *)

Lemma bind_ok {A B : Type} (m : reading A) (f : A -> reading B)
      (br br' : BitstreamReader) (a : A) :
  m br = ok a br' -> bind m f br = f a br'.
Proof. intros H. unfold bind. now rewrite H. Qed.

Lemma read_bits_written (n : nat) (x acc : Z) (rest : list bool) :
  read_bits n acc (bits_msb_first n x ++ rest)
  = Some (acc * 2 ^ Z.of_nat n + x mod 2 ^ Z.of_nat n, rest).
Proof.
  revert acc. induction n as [|n IH]; intros acc.
  - cbn [read_bits bits_msb_first app]. rewrite Z.mod_1_r. f_equal. f_equal. simpl. lia.
  - cbn [read_bits bits_msb_first app]. rewrite IH. f_equal. f_equal.
    rewrite Nat2Z.inj_succ, Z.pow_succ_r by lia.
    rewrite (Z.mul_comm 2 (2 ^ Z.of_nat n)).
    rewrite (Z.rem_mul_r x (2 ^ Z.of_nat n) 2) by lia.
    rewrite Z.testbit_spec' by lia. ring.
Qed.

Lemma br_read_written (count x : Z) (rest : list bool) (pos : Z) :
  0 <= count ->
  br_read count (mkReader (bits_msb_first (Z.to_nat count) x ++ rest) pos)
  = ok (uint32 (x mod 2 ^ count)) (mkReader rest (pos + count)).
Proof.
  intros H. unfold br_read. cbn [unread bits_read].
  rewrite read_bits_written, Z2Nat.id by lia.
  rewrite Z.max_r by lia. reflexivity.
Qed.

Lemma bits_msb_first_length (n : nat) (x : Z) : length (bits_msb_first n x) = n.
Proof. induction n as [|n IH]; cbn [bits_msb_first length]; congruence. Qed.

Lemma br_read_bit (b : bool) (rest : list bool) (pos : Z) :
  br_read 1 (mkReader (b :: rest) pos) = ok (Z.b2z b) (mkReader rest (pos + 1)).
Proof. destruct b; reflexivity. Qed.

(** The last of [n + 1] written bits is the lowest. *)
Lemma bits_msb_first_last (n : nat) (x : Z) :
  bits_msb_first (S n) x = bits_msb_first n (Z.shiftr x 1) ++ [Z.testbit x 0].
Proof.
  induction n as [|n IH].
  - reflexivity.
  - change (bits_msb_first (S (S n)) x)
      with (Z.testbit x (Z.of_nat (S n)) :: bits_msb_first (S n) x).
    rewrite IH. cbn [bits_msb_first app]. f_equal.
    rewrite Z.shiftr_spec by lia. f_equal. lia.
Qed.

Lemma read_unary_written (m : nat) :
  forall (ones : nat) (run : Z) (rest : list bool) (pos : Z),
    (m < ones)%nat ->
    Decoder.read_huffman_code_MSB ones run
      (mkReader (repeat true m ++ false :: rest) pos)
    = ok (run + Z.of_nat m) (mkReader rest (pos + Z.of_nat m + 1)).
Proof.
  induction m as [|m IH]; intros ones run rest pos Hm.
  - destruct ones as [|ones]; [lia|].
    replace (run + Z.of_nat 0) with run by lia.
    replace (pos + Z.of_nat 0 + 1) with (pos + 1) by lia. reflexivity.
  - destruct ones as [|ones]; [lia|].
    cbn [repeat app Decoder.read_huffman_code_MSB].
    rewrite (bind_ok _ _ _ (mkReader (repeat true m ++ false :: rest) (pos + 1)) 1)
      by reflexivity.
    change (1 =? 0) with false. cbv iota.
    rewrite IH by lia.
    replace (run + 1 + Z.of_nat m) with (run + Z.of_nat (S m)) by lia.
    replace (pos + 1 + Z.of_nat m + 1) with (pos + Z.of_nat (S m) + 1) by lia.
    reflexivity.
Qed.

(** The divisor [(1 << k) - 1] of the residual coder, as an [unsigned]. *)
Lemma divisor_value (k : Z) :
  1 <= k -> uint32 (shl32 1 k - 1) = 2 ^ Z.min k 32 - 1.
Proof.
  intros Hk. destruct (Z_le_dec k 30) as [H30|H30].
  - rewrite shl32_1_small, Z.min_l by lia.
    apply uint32_id. unfold is_unsigned.
    assert (2 ^ 1 <= 2 ^ k <= 2 ^ 30) by (split; apply Z.pow_le_mono_r; lia). lia.
  - destruct (Z.eq_dec k 31) as [->|H31]; [reflexivity|].
    rewrite shl32_large, Z.min_r by lia. reflexivity.
Qed.

Lemma lor_shift_bit (y : Z) (b : bool) :
  Z.lor (Z.shiftl y 1) (Z.b2z b) = 2 * y + Z.b2z b.
Proof.
  rewrite Z.shiftl_mul_pow2 by lia. change (2 ^ 1) with 2.
  rewrite Z.mul_comm.
  assert (Z.land (2 * y) (Z.b2z b) = 0) as Hland; 
    [|now rewrite <- Z.lxor_lor, <- Z.add_nocarry_lxor by exact Hland].
  apply Z.bits_inj'. intros i Hi. rewrite Z.land_spec, Z.bits_0.
  destruct (Z.eq_dec i 0) as [->|Hne].
  - rewrite Z.testbit_even_0. reflexivity.
  - replace (Z.testbit (Z.b2z b) i) with false; [apply andb_false_r|].
    destruct b; cbn [Z.b2z].
    + symmetry. replace 1 with (2 ^ 0) by reflexivity. apply Z.pow2_bits_false. lia.
    + now rewrite Z.bits_0.
Qed.

Lemma shiftr1_testbit0 (x : Z) : 2 * Z.shiftr x 1 + Z.b2z (Z.testbit x 0) = x.
Proof.
  rewrite Z.shiftr_div_pow2 by lia. change (2 ^ 1) with 2.
  rewrite Z.bit0_mod. pose proof (Z.div_mod x 2). lia.
Qed.

Section ResidualCode.

Variables (v k W : Z).
Hypothesis Hv : 0 <= v < 2 ^ 32.
Hypothesis Hk : 1 <= k < 2 ^ 32.
Hypothesis Hmsb : v / (2 ^ k - 1) <= 8.

Let D := uint32 (shl32 1 k - 1).

Lemma divisor_bounds : 1 <= D <= 2 ^ 32 - 1 /\ D <= 2 ^ k - 1.
Proof.
  subst D. rewrite divisor_value by lia.
  destruct (Z_le_dec k 32) as [H|H].
  - rewrite Z.min_l by lia.
    assert (2 ^ 1 <= 2 ^ k <= 2 ^ 32) by (split; apply Z.pow_le_mono_r; lia). lia.
  - rewrite Z.min_r by lia.
    assert (2 ^ 32 <= 2 ^ k) by (apply Z.pow_le_mono_r; lia). lia.
Qed.

Lemma msb_bounds : 0 <= v / D <= 8.
Proof.
  pose proof divisor_bounds as [HD1 HD2]. split; [apply Z.div_pos; lia|].
  destruct (Z_le_dec k 32) as [H|H].
  - replace D with (2 ^ k - 1); [exact Hmsb|].
    subst D. rewrite divisor_value, Z.min_l by lia. reflexivity.
  - assert (D = 2 ^ 32 - 1) as HD.
    { subst D. rewrite divisor_value, Z.min_r by lia. reflexivity. }
    assert (v / D <= 1); [|lia].
    apply Z.div_le_upper_bound; lia.
Qed.

Lemma residual_value : v = v / D * D + v mod D.
Proof. pose proof divisor_bounds. pose proof (Z.div_mod v D). lia. Qed.

(** What [read_residual] does once the unary part is read. *)
Lemma read_residual_after_unary (tail : list bool) (pos : Z) :
  Decoder.read_residual k W
    (mkReader (repeat true (Z.to_nat (v / D)) ++ false :: tail) pos)
  = (lsb <- br_read (uint32 (k - 1)) ;;
     if lsb =? 0 then ret (uint32 (uint32 (v / D) * D))
     else
       b <- br_read 1 ;;
       let lsb := Z.lor (uint32 (Z.shiftl lsb 1)) b in
       ret (uint32 (int32 (v / D * int32 (shl32 1 k - 1)) + uint32 (lsb - 1))))
      (mkReader tail (pos + v / D + 1)).
Proof.
  pose proof msb_bounds as Hm.
  unfold Decoder.read_residual.
  rewrite (bind_ok _ _ _ (mkReader tail (pos + v / D + 1)) (v / D)).
  - destruct (v / D =? -1) eqn:E1; zbool; [lia|].
    destruct (k =? 0) eqn:E2; zbool; [lia|]. reflexivity.
  - rewrite read_unary_written by lia. rewrite Z2Nat.id by lia.
    rewrite Z.add_0_l. reflexivity.
Qed.

Lemma read_residual_result_lsb (x : Z) :
  x = v mod D + 1 ->
  uint32 (int32 (v / D * int32 (shl32 1 k - 1)) + uint32 (x - 1)) = v.
Proof.
  intros ->. pose proof divisor_bounds as [HD1 HD2].
  pose proof (Z.mod_pos_bound v D ltac:(lia)) as Hl.
  replace (v mod D + 1 - 1) with (v mod D) by lia.
  rewrite (uint32_id (v mod D)) by (unfold is_unsigned; lia).
  destruct (int32_eqm (shl32 1 k - 1)) as [q1 Hq1].
  destruct (uint32_eqm (shl32 1 k - 1)) as [q2 Hq2]. fold D in Hq2.
  destruct (int32_eqm (v / D * int32 (shl32 1 k - 1))) as [q3 Hq3].
  rewrite (uint32_congr _ v (q3 + v / D * (q1 - q2))).
  - apply uint32_id. exact Hv.
  - pose proof residual_value as Hval.
    set (M := v / D) in *. set (L := v mod D) in *.
    set (A := int32 (shl32 1 k - 1)) in *. set (I3 := int32 (M * A)) in *.
    set (Z0 := shl32 1 k - 1) in *. clearbody M L A I3 Z0 D.
    subst I3 A D. rewrite Hval. ring.
Qed.

(** C7: for every unsigned value [v], every parameter [k >= 1] and every
    escape width [W], if [v / (2^k - 1) <= 8] then [read_residual], applied to
    the bits [write_residual] wrote for [(v, k, W)], returns [v]; it leaves
    what follows those bits unread. *)
Theorem read_residual_write_residual (rest : list bool) (pos : Z) :
  Decoder.read_residual k W
    (mkReader (Encoder.write_residual [] v k W ++ rest) pos)
  = ok v (mkReader rest (pos + alen_bits (Encoder.write_residual [] v k W))).
Proof.
  pose proof msb_bounds as Hm. pose proof divisor_bounds as [HD1 HD2].
  pose proof (Z.mod_pos_bound v D ltac:(lia)) as Hl.
  unfold Encoder.write_residual. fold D.
  destruct (v / D >? 8) eqn:E8; zbool; [lia|].
  unfold bw_write_unary, bw_write. cbn [negb app].
  destruct (k >? 1) eqn:Ek; zbool.
  - destruct (v mod D >? 0) eqn:El; zbool.
    + (* the k bits of LSB + 1 *)
      rewrite (uint32_id (v mod D + 1)) by (unfold is_unsigned; lia).
      rewrite <- !app_assoc. cbn [app].
      rewrite read_residual_after_unary.
      replace (Z.to_nat k) with (S (Z.to_nat (k - 1))) by lia.
      rewrite bits_msb_first_last. rewrite <- !app_assoc. cbn [app].
      rewrite (uint32_id (k - 1)) by (unfold is_unsigned; lia).
      erewrite bind_ok by (apply br_read_written; lia).
      assert (0 <= Z.shiftr (v mod D + 1) 1 < 2 ^ (k - 1)) as Hs.
      { rewrite Z.shiftr_div_pow2 by lia. change (2 ^ 1) with 2.
        assert (2 ^ k = 2 * 2 ^ (k - 1)) as Hd.
        { replace k with (Z.succ (k - 1)) at 1 by lia. now rewrite Z.pow_succ_r by lia. }
        split; [apply Z.div_pos; lia|]. apply Z.div_lt_upper_bound; lia. }
      assert (1 <= Z.shiftr (v mod D + 1) 1 < 2 ^ 31) as Hs'.
      { rewrite Z.shiftr_div_pow2 by lia. change (2 ^ 1) with 2.
        split; [apply Z.div_le_lower_bound; lia|]. apply Z.div_lt_upper_bound; lia. }
      rewrite (Z.mod_small _ _ Hs).
      rewrite (uint32_id (Z.shiftr (v mod D + 1) 1)) by (unfold is_unsigned; lia).
      destruct (Z.shiftr (v mod D + 1) 1 =? 0) eqn:E0; zbool; [lia|].
      erewrite bind_ok by apply br_read_bit.
      cbv zeta. unfold ret.
      f_equal.
      * apply read_residual_result_lsb.
        rewrite (uint32_id (Z.shiftl _ 1)).
        -- rewrite lor_shift_bit. apply shiftr1_testbit0.
        -- unfold is_unsigned. rewrite Z.shiftl_mul_pow2 by lia. change (2 ^ 1) with 2. lia.
      * f_equal. unfold alen_bits.
        rewrite !length_app, repeat_length. cbn [length].
        rewrite ?length_app, ?bits_msb_first_length. cbn [length]. lia.
    + (* k - 1 zero bits *)
      rewrite <- !app_assoc. cbn [app].
      rewrite read_residual_after_unary.
      rewrite (uint32_id (k - 1)) by (unfold is_unsigned; lia).
      erewrite bind_ok by (apply br_read_written; lia).
      rewrite Z.mod_0_l by (apply Z.pow_nonzero; lia).
      change (uint32 0 =? 0) with true. cbv iota. unfold ret. f_equal.
      * rewrite (uint32_id (v / D)) by (unfold is_unsigned; lia).
        pose proof residual_value as Hval.
        replace (v / D * D) with v by lia. apply uint32_id. exact Hv.
      * f_equal. unfold alen_bits.
        rewrite !length_app, repeat_length. cbn [length].
        rewrite ?length_app, ?bits_msb_first_length. cbn [length]. lia.
  - (* k = 1: nothing after the unary part *)
    assert (k = 1) as Hk1 by lia.
    rewrite <- !app_assoc. cbn [app].
    rewrite read_residual_after_unary.
    rewrite Hk1 at 1. change (uint32 (1 - 1)) with 0.
    erewrite bind_ok by (apply (br_read_written 0 0 rest); lia).
    change (uint32 (0 mod 2 ^ 0) =? 0) with true. cbv iota. unfold ret. f_equal.
    + rewrite (uint32_id (v / D)) by (unfold is_unsigned; lia).
      pose proof residual_value as Hval.
      assert (D = 1) as HD by (subst D; rewrite Hk1; reflexivity).
      rewrite HD in *. rewrite Z.mod_1_r in Hval.
      replace (v / 1 * 1) with v by lia. apply uint32_id. exact Hv.
    + f_equal. unfold alen_bits. rewrite !length_app, repeat_length.
      cbn [length]. lia.
Qed.

End ResidualCode.

(** C7 at the value 100 with parameter 4. *)
Lemma read_residual_write_residual_witness :
  Decoder.read_residual 4 16
    (mkReader (Encoder.write_residual [] 100 4 16 ++ [true; false; true]) 7)
  = ok 100 (mkReader [true; false; true]
                     (7 + alen_bits (Encoder.write_residual [] 100 4 16))).
Proof.
  apply (read_residual_write_residual 100 4 16).
  - lia.
  - lia.
  - vm_compute. discriminate.
Defined.

(** ** Subframes without coefficients *)

(** The sum of [l[0..i]]. *)
Definition prefix_sum (l : list Z) (i : Z) : Z :=
  fold_right Z.add 0 (firstn (Z.to_nat (i + 1)) l).

Lemma firstn_succ_get (l : list Z) (n : nat) :
  fold_right Z.add 0 (firstn (S n) l)
  = fold_right Z.add 0 (firstn n l) + l.[Z.of_nat n].
Proof.
  revert n. induction l as [|x l IH]; intros n.
  - rewrite !firstn_nil. unfold get.
    destruct (Z.of_nat n <? 0); [|destruct (Z.to_nat (Z.of_nat n))]; reflexivity.
  - destruct n as [|n].
    + cbn. lia.
    + change (firstn (S (S n)) (x :: l)) with (x :: firstn (S n) l).
      change (firstn (S n) (x :: l)) with (x :: firstn n l).
      cbn [fold_right]. rewrite IH.
      replace ((x :: l).[Z.of_nat (S n)]) with (l.[Z.of_nat n]); [lia|].
      unfold get. destruct (Z.of_nat n <? 0) eqn:E1; destruct (Z.of_nat (S n) <? 0) eqn:E2;
        zbool; try lia.
      rewrite !Nat2Z.id. reflexivity.
Qed.

Lemma prefix_sum_0 (l : list Z) : prefix_sum l 0 = l.[0].
Proof.
  unfold prefix_sum. change (Z.to_nat (0 + 1)) with 1%nat.
  rewrite firstn_succ_get. reflexivity.
Qed.

Lemma prefix_sum_succ (l : list Z) (i : Z) :
  0 <= i -> prefix_sum l (i + 1) = prefix_sum l i + l.[i + 1].
Proof.
  intros Hi. unfold prefix_sum.
  replace (Z.to_nat (i + 1 + 1)) with (S (Z.to_nat (i + 1))) by lia.
  rewrite firstn_succ_get. rewrite Z2Nat.id by lia. reflexivity.
Qed.

(** The rounding term [(1 << (shift_needed - 1)) >> shift_needed] of a sum
    without coefficients. *)
Lemma rounding_term_vanishes (s : Z) :
  1 <= s <= 31 -> Z.shiftr (int64 (0 + shl32 1 (uint32 (s - 1)))) s = 0.
Proof.
  intros Hs.
  rewrite (uint32_id (s - 1)) by (unfold is_unsigned; lia).
  rewrite shl32_1_small by lia. rewrite Z.add_0_l.
  assert (0 < 2 ^ (s - 1) <= 2 ^ 30) as Hp.
  { split; [apply Z.pow_pos_nonneg; lia|apply Z.pow_le_mono_r; lia]. }
  rewrite int64_id by lia.
  rewrite Z.shiftr_div_pow2 by lia. apply Z.div_small.
  split; [lia|]. apply Z.pow_lt_mono_r; lia.
Qed.

(** C9, amended: for every residual array and every subframe header with
    [coeff_count = 0] and a [shift_needed] from 1 to 15 (at 0 the rounding
    term [1 << (shift_needed - 1)] is not defined), [decode_subframe]
    produces the prefix sums of the residuals in [int] arithmetic: for every
    [i < block_size], [subframe[i]] is the sum of [residuals[0..i]] kept to
    32 bits; it is that sum itself whenever the sum fits an [int]. *)
Theorem decode_subframe_prefix_sums (block_size : Z) (header : Decoder.subframe_header)
        (residuals : list Z) (i : Z) :
  Decoder.coeff_count header = 0 ->
  1 <= Decoder.shift_needed header < 16 ->
  Forall is_int residuals ->
  0 <= i < block_size ->
  (Decoder.decode_subframe block_size header residuals).[i]
  = int32 (prefix_sum residuals i)
  /\ (is_int (prefix_sum residuals i) ->
      (Decoder.decode_subframe block_size header residuals).[i] = prefix_sum residuals i).
Proof.
  intros Hcc Hs Hr Hi.
  assert ((Decoder.decode_subframe block_size header residuals).[i]
          = int32 (prefix_sum residuals i)) as H;
    [|split; [exact H|intros Hint; rewrite H; now apply int32_id]].
  destruct header as [pt s rm cc cf]. cbn [Decoder.coeff_count Decoder.shift_needed] in *.
  subst cc. unfold Decoder.decode_subframe.
  cbn [Decoder.coeff_count Decoder.shift_needed Decoder.coeff].
  rewrite (for_loop_empty 1 (0 + 1)) by lia.
  change (0 + 1) with 1.
  set (body := fun (i : Z) (st : list Z * list Z) => _).
  assert (alen (fst (for_loop 1 block_size body ([residuals.[0]], cf))) = block_size
          /\ forall j, 0 <= j < block_size ->
               (fst (for_loop 1 block_size body ([residuals.[0]], cf))).[j]
               = int32 (prefix_sum residuals j)) as [_ Hall].
  { apply (for_loop_ind
             (fun n (st : list Z * list Z) =>
                alen (fst st) = n /\
                forall j, 0 <= j < n -> (fst st).[j] = int32 (prefix_sum residuals j)));
      [lia| |].
    - split; [reflexivity|]. intros j Hj. assert (j = 0) as -> by lia.
      rewrite prefix_sum_0. cbn [fst]. change ([residuals.[0]].[0]) with (residuals.[0]).
      symmetry. apply int32_id. now apply get_is_int.
    - intros n [subframe coeff] Hn [Hlen Hsub]. cbn [fst] in *.
      subst body. cbv beta iota zeta. cbn [fst].
      rewrite (for_loop_empty 0 0) by lia.
      rewrite rounding_term_vanishes by lia.
      change (Z.to_nat 0) with 0%nat. cbn [Decoder.adapt].
      replace (if residuals.[n] >? 0 then coeff
               else if residuals.[n] <? 0 then coeff else coeff) with coeff
        by (destruct (residuals.[n] >? 0), (residuals.[n] <? 0); reflexivity).
      cbn [fst]. rewrite alen_app. split; [unfold alen in *; cbn [length]; lia|].
      intros j Hj. destruct (Z.eq_dec j n) as [->|Hne].
      + rewrite get_app_last' by assumption.
        replace (n - 0 - 1) with (n - 1) by lia.
        rewrite Hsub by lia.
        replace n with (n - 1 + 1) at 3 by lia.
        rewrite prefix_sum_succ by lia. replace (n - 1 + 1) with n by lia.
        destruct (int32_eqm (prefix_sum residuals (n - 1))) as [q Hq].
        apply (int32_congr _ _ q). change (int32 0) with 0. lia.
      + rewrite get_app_l by lia. apply Hsub. lia. }
  apply Hall. exact Hi.
Qed.

(** C9 at four residuals and the header the encoder writes, without coefficients. *)
Lemma decode_subframe_prefix_sums_witness :
  (Decoder.decode_subframe 4
     {| Decoder.prediction_type := 0; Decoder.shift_needed := 9;
        Decoder.rice_modifier := 4; Decoder.coeff_count := 0; Decoder.coeff := [] |}
     [5; -3; 7; 100]).[2]
  = prefix_sum [5; -3; 7; 100] 2.
Proof.
  apply (decode_subframe_prefix_sums 4 _ [5; -3; 7; 100] 2).
  - reflexivity.
  - cbn. lia.
  - repeat constructor; unfold is_int; lia.
  - lia.
  - vm_compute. split; [discriminate|reflexivity].
Defined.

(** C9 as stated fails: the sum of the residuals 2147483647 and 1 is
    [2^31], which no [int] holds; with the header the encoder writes, without
    coefficients, the second sample [decode_subframe] stores is
    [-2147483648]. *)
Lemma decode_subframe_sum_wraps :
  (Decoder.decode_subframe 2
     {| Decoder.prediction_type := 0; Decoder.shift_needed := 9;
        Decoder.rice_modifier := 4; Decoder.coeff_count := 0; Decoder.coeff := [] |}
     [2147483647; 1]).[1] = -2147483648
  /\ prefix_sum [2147483647; 1] 1 = 2147483648.
Proof. split; reflexivity. Qed.

(** ** Stores of the residual reader *)

(** An outcome that is not a store outside an array, and whose value, if
    there is one, satisfies [P]. *)
Definition within_bounds {A : Type} (P : A -> Prop) (o : rd A) : Prop :=
  match o with
  | ok a _ => P a
  | out_of_bounds => False
  | _ => True
  end.

Lemma bind_within {A B : Type} (P : A -> Prop) (Q : B -> Prop)
      (m : reading A) (f : A -> reading B) (br : BitstreamReader) :
  within_bounds P (m br) ->
  (forall a br', P a -> within_bounds Q (f a br')) ->
  within_bounds Q (bind m f br).
Proof. unfold bind. destruct (m br); cbn; auto. Qed.

Lemma within_weaken {A : Type} (P Q : A -> Prop) (o : rd A) :
  within_bounds P o -> (forall a, P a -> Q a) -> within_bounds Q o.
Proof. destruct o; cbn; auto. Qed.

Lemma br_read_within (count : Z) (br : BitstreamReader) :
  within_bounds (fun _ => True) (br_read count br).
Proof. unfold br_read. destruct (read_bits _ _ _) as [[v l]|]; cbn; auto. Qed.

Lemma read_huffman_within (ones : nat) :
  forall run br, within_bounds (fun _ => True) (Decoder.read_huffman_code_MSB ones run br).
Proof.
  induction ones as [|n IH]; intros run br; cbn [Decoder.read_huffman_code_MSB].
  - exact I.
  - apply (bind_within (fun _ => True)); [apply br_read_within|].
    intros b br' _. destruct (b =? 0); [exact I|apply IH].
Qed.

Lemma read_residual_within (k sample_size : Z) (br : BitstreamReader) :
  within_bounds (fun _ => True) (Decoder.read_residual k sample_size br).
Proof.
  unfold Decoder.read_residual.
  apply (bind_within (fun _ => True)); [apply read_huffman_within|].
  intros msb br' _. destruct (msb =? -1); [apply br_read_within|].
  destruct (k =? 0); [exact I|].
  apply (bind_within (fun _ => True)); [apply br_read_within|].
  intros lsb br'' _. destruct (lsb =? 0); [exact I|].
  apply (bind_within (fun _ => True)); [apply br_read_within|].
  intros; exact I.
Qed.

Lemma LOG2_within (value : Z) (br : BitstreamReader) :
  within_bounds (fun _ => True) (Decoder.LOG2 value br).
Proof. unfold Decoder.LOG2. destruct (Decoder.LOG2_loop 33 value (-1)); exact I. Qed.

Lemma for_loop_rd_last {T : Type} (lo hi : Z) (body : Z -> T -> reading T) (s : T) :
  lo <= hi ->
  Decoder.for_loop_rd lo (hi + 1) body s
  = bind (Decoder.for_loop_rd lo hi body s) (body hi).
Proof.
  intros H. unfold Decoder.for_loop_rd.
  replace (Z.to_nat (hi + 1 - lo)) with (S (Z.to_nat (hi - lo))) by lia.
  rewrite seq_S, fold_left_app. cbn [fold_left].
  replace (lo + Z.of_nat (0 + Z.to_nat (hi - lo))) with hi by lia. reflexivity.
Qed.

Lemma for_loop_rd_within {T : Type} (P : Z -> T -> Prop) (lo hi : Z)
      (body : Z -> T -> reading T) (s : T) (br : BitstreamReader) :
  lo <= hi ->
  P lo s ->
  (forall i x br', lo <= i < hi -> P i x -> within_bounds (P (i + 1)) (body i x br')) ->
  within_bounds (P hi) (Decoder.for_loop_rd lo hi body s br).
Proof.
  intros Hle H0 Hstep.
  assert (forall n : nat, lo + Z.of_nat n <= hi ->
            within_bounds (P (lo + Z.of_nat n))
              (Decoder.for_loop_rd lo (lo + Z.of_nat n) body s br)) as H.
  { induction n as [|n IH]; intros Hn.
    - rewrite Z.add_0_r. unfold Decoder.for_loop_rd.
      replace (Z.to_nat (lo - lo)) with 0%nat by lia. exact H0.
    - replace (lo + Z.of_nat (S n)) with (lo + Z.of_nat n + 1) by lia.
      rewrite for_loop_rd_last by lia.
      apply (bind_within (P (lo + Z.of_nat n))); [apply IH; lia|].
      intros x br' Hx. apply Hstep; [lia|exact Hx]. }
  specialize (H (Z.to_nat (hi - lo))).
  replace (lo + Z.of_nat (Z.to_nat (hi - lo))) with hi in H by lia.
  apply H. lia.
Qed.

Section ResidualBlock.

Variables (params : Decoder.alac_parameters) (sample_size block_size : Z).
Hypothesis Hblock : 0 <= block_size <= INT_MAX.

(** [i] counts the stores made so far; the array keeps its [block_size] entries. *)
Definition stores_in_bounds (st : Decoder.residual_reader) : Prop :=
  0 <= Decoder.rr_i st <= block_size
  /\ alen (Decoder.rr_residual st) = block_size.

Lemma store_residual_within (st : Decoder.residual_reader) (value : Z)
      (br : BitstreamReader) :
  stores_in_bounds st -> Decoder.rr_i st < block_size ->
  within_bounds
    (fun st' => stores_in_bounds st' /\ Decoder.rr_i st' = Decoder.rr_i st + 1)
    (Decoder.store_residual st value br).
Proof.
  intros [Hi Hlen] Hlt. unfold Decoder.store_residual, set.
  fold (alen (Decoder.rr_residual st)). rewrite Hlen.
  destruct ((0 <=? Decoder.rr_i st) && (Decoder.rr_i st <? block_size)) eqn:E.
  - unfold INT_MAX in Hblock. apply andb_true_iff in E. destruct E as [E1 E2]. zbool.
    unfold ret, within_bounds, stores_in_bounds.
    cbn [Decoder.rr_i Decoder.rr_residual].
    rewrite int32_id by (unfold is_int; lia).
    repeat split; try lia.
    unfold alen in *. rewrite length_app. cbn [length].
    rewrite length_firstn, length_skipn. lia.
  - apply andb_false_iff in E. destruct E as [E|E]; zbool; lia.
Qed.

(** The clamped run of zeroes fits the entries that are left. *)
Lemma store_zeroes_within (st : Decoder.residual_reader) (zero_block_size : Z)
      (br : BitstreamReader) :
  stores_in_bounds st ->
  0 <= zero_block_size <= block_size - Decoder.rr_i st ->
  within_bounds
    (fun st' => stores_in_bounds st'
                /\ Decoder.rr_i st' = Decoder.rr_i st + zero_block_size)
    (Decoder.for_loop_rd 0 zero_block_size
       (fun j st => Decoder.store_residual st 0) st br).
Proof.
  intros Hst Hz.
  apply (for_loop_rd_within
           (fun j st' => stores_in_bounds st'
                         /\ Decoder.rr_i st' = Decoder.rr_i st + j)); [lia| |].
  - split; [exact Hst|lia].
  - intros j x br' Hj [Hx Hxi].
    eapply within_weaken; [apply store_residual_within; [exact Hx|lia]|].
    intros st' [H1 H2]. split; [exact H1|lia].
Qed.

Lemma read_residual_step_within (st : Decoder.residual_reader) (br : BitstreamReader) :
  stores_in_bounds st -> Decoder.rr_i st < block_size ->
  within_bounds
    (fun st' => stores_in_bounds st' /\ Decoder.rr_i st < Decoder.rr_i st')
    (Decoder.read_residual_step params sample_size block_size st br).
Proof.
  intros Hst Hlt. unfold Decoder.read_residual_step.
  apply (bind_within (fun _ => True)); [apply LOG2_within|]. intros k br1 _.
  apply (bind_within (fun _ => True)); [apply read_residual_within|]. intros r br2 _.
  cbv zeta.
  eapply bind_within; [apply store_residual_within; assumption|].
  intros st1 br3 [Hst1 Hi1].
  match goal with |- context [Decoder.zero_run_follows ?h ?i ?b] =>
    destruct (Decoder.zero_run_follows h i b) eqn:Ez end.
  - unfold Decoder.zero_run_follows in Ez. apply andb_true_iff in Ez.
    destruct Ez as [_ Ez]. zbool.
    destruct Hst1 as [Hr1 Hl1]. unfold INT_MAX in Hblock.
    assert (Decoder.rr_i st1 + 1 < block_size) as Hroom.
    { destruct (Z.eq_dec (Decoder.rr_i st1 + 1) (2 ^ 31)) as [Heq|Hne].
      - rewrite Heq in Ez. change (uint32 (int32 (2 ^ 31))) with 2147483648 in Ez. lia.
      - rewrite int32_id in Ez by (unfold is_int; lia).
        rewrite uint32_id in Ez by (unfold is_unsigned; lia). exact Ez. }
    apply (bind_within (fun _ => True)); [apply LOG2_within|]. intros l br4 _.
    apply (bind_within (fun _ => True)); [apply read_residual_within|].
    intros zero_block_size br5 _.
    apply (bind_within
             (fun p : Decoder.residual_reader * Z =>
                stores_in_bounds (fst p) /\ Decoder.rr_i st1 <= Decoder.rr_i (fst p))).
    + destruct (zero_block_size >? 0) eqn:Ep; zbool.
      * eapply bind_within.
        -- apply store_zeroes_within; [split; assumption|].
           rewrite (uint32_id (block_size - Decoder.rr_i st1))
             by (unfold is_unsigned; lia).
           unfold MIN.
           destruct (zero_block_size <? block_size - Decoder.rr_i st1) eqn:Em; zbool; lia.
        -- intros st2 br6 [Hst2 Hi2]. cbn. split; [exact Hst2|].
           rewrite Hi2. unfold MIN.
           destruct (zero_block_size <? uint32 (block_size - Decoder.rr_i st1)); [lia|].
           pose proof (uint32_is_unsigned (block_size - Decoder.rr_i st1)) as Hu.
           unfold is_unsigned in Hu. lia.
      * cbn. split; [split; assumption|lia].
    + intros [st2 z] br6 [Hst2 Hi2]. cbn [fst] in *. cbn.
      unfold stores_in_bounds in *. cbn. split; [exact Hst2|lia].
  - cbn. unfold stores_in_bounds in *. cbn. split; [exact Hst1|lia].
Qed.

Lemma read_residual_loop_within (rounds : nat) :
  forall (st : Decoder.residual_reader) (br : BitstreamReader),
    stores_in_bounds st ->
    block_size - Decoder.rr_i st <= Z.of_nat rounds ->
    within_bounds
      (fun st' => stores_in_bounds st' /\ Decoder.rr_i st' = block_size)
      (Decoder.read_residual_loop rounds params sample_size block_size st br).
Proof.
  induction rounds as [|rounds IH]; intros st br Hst Hrounds;
    cbn [Decoder.read_residual_loop].
  - cbn. destruct Hst as [Hi Hl]. split; [split; assumption|lia].
  - destruct Hst as [Hi Hl]. unfold INT_MAX in Hblock.
    rewrite (uint32_id (Decoder.rr_i st)) by (unfold is_unsigned; lia).
    destruct (Decoder.rr_i st <? block_size) eqn:E; zbool.
    + eapply bind_within; [apply read_residual_step_within; [split; assumption|lia]|].
      intros st' br' [Hst' Hlt]. apply IH; [exact Hst'|lia].
    + cbn. split; [split; assumption|lia].
Qed.

(** C10: for every input bit stream and every block size (an [int], as the
    index [i] is), [read_residual_block] never stores outside its array of
    [block_size] residuals: a zero-run length read from the stream is
    clamped to the entries that are left, and when the block is read the
    index, which counts the stores, is exactly [block_size]. *)
Theorem read_residual_block_in_bounds (residual : list Z) (br : BitstreamReader) :
  alen residual = block_size ->
  Decoder.read_residual_block params sample_size block_size residual br <> out_of_bounds
  /\ forall st br',
       Decoder.read_residual_loop (Z.to_nat block_size) params sample_size block_size
         {| Decoder.rr_i := 0;
            Decoder.rr_history := int32 (Decoder.initial_history params);
            Decoder.rr_sign_modifier := 0;
            Decoder.rr_residual := residual |} br = ok st br' ->
       Decoder.rr_i st = block_size /\ alen (Decoder.rr_residual st) = block_size.
Proof.
  intros Hlen.
  pose proof (read_residual_loop_within (Z.to_nat block_size)
                {| Decoder.rr_i := 0;
                   Decoder.rr_history := int32 (Decoder.initial_history params);
                   Decoder.rr_sign_modifier := 0;
                   Decoder.rr_residual := residual |} br) as H.
  assert (stores_in_bounds
            {| Decoder.rr_i := 0;
               Decoder.rr_history := int32 (Decoder.initial_history params);
               Decoder.rr_sign_modifier := 0;
               Decoder.rr_residual := residual |}) as H0.
  { split; cbn; [lia|exact Hlen]. }
  specialize (H H0). cbn [Decoder.rr_i] in H. specialize (H ltac:(lia)).
  split.
  - unfold Decoder.read_residual_block, bind.
    destruct (Decoder.read_residual_loop _ _ _ _ _ _) eqn:E; cbn in *;
      try discriminate. destruct H.
  - intros st br' E. rewrite E in H. cbn in H. destruct H as [[_ Hl] Hi]. auto.
Qed.

End ResidualBlock.

(** C10 at a block of three residuals over a stream of twenty bits. *)
Lemma read_residual_block_in_bounds_witness :
  Decoder.read_residual_block
    {| Decoder.block_size := 4096; Decoder.history_multiplier := 40;
       Decoder.initial_history := 10; Decoder.maximum_K := 14 |}
    16 3 [0; 0; 0]
    (br_open [false; false; true; true; true; true; true; true; true; true;
              true; true; true; true; true; true; true; true; true; true])
  <> out_of_bounds.
Proof.
  apply (read_residual_block_in_bounds
           {| Decoder.block_size := 4096; Decoder.history_multiplier := 40;
              Decoder.initial_history := 10; Decoder.maximum_K := 14 |}
           16 3).
  - unfold INT_MAX. lia.
  - reflexivity.
Defined.

(** ** The two residual coders side by side *)

(** The options [encode_alac] is called with by default, and the decoder's
    parameters for the same stream. *)
Definition default_options : Encoder.alac_encoding_options :=
  {| Encoder.block_size := 4096;
     Encoder.initial_history := 10;
     Encoder.history_multiplier := 40;
     Encoder.maximum_k := 14;
     Encoder.minimum_interlacing_leftweight := 0;
     Encoder.maximum_interlacing_leftweight := 4 |}.

Definition default_parameters : Decoder.alac_parameters :=
  {| Decoder.block_size := 4096;
     Decoder.history_multiplier := 40;
     Decoder.initial_history := 10;
     Decoder.maximum_K := 14 |}.

(** A 16-bit encoder with the given window. *)
Definition encoder16 (window : list float) : Encoder.alac_context :=
  {| Encoder.options := default_options;
     Encoder.bits_per_sample := 16;
     Encoder.tukey_window_ := window;
     Encoder.interlaced_frame := [];
     Encoder.best_interlaced_frame := [] |}.

(** The residuals of the mono block 2, 0, ..., 0 of 19 samples at order 4
    with coefficients 0. *)
Definition residuals19 : list Z :=
  [2; -2; 0; 0; 0; -2; 0; 0; 0; 0; 0; 0; 0; 0; 0; 0; 0; 0; 0].

Lemma residuals19_calculated :
  Encoder.calculate_residuals 16 19 (2 :: repeat 0 18) 4 [0; 0; 0; 0] = residuals19.
Proof. reflexivity. Qed.

(** C2 fails on the code: the two coders do not follow the same state
    machine.  With one residual left (18 of 19 coded, history 124) the encoder
    takes the zero-run branch and the decoder does not; after a run of 0xFFFF
    zeroes the encoder leaves [sign_modifier] at 0 and the decoder sets it to
    1; and of the 32 bits the encoder writes for the residuals of the mono
    block 2, 0, ..., 0 the decoder reads 29 and leaves the run length unread. *)
Theorem residual_coders_disagree :
  Encoder.zero_run_follows 124 18 19 = true
  /\ Decoder.zero_run_follows 124 18 19 = false
  /\ Encoder.sign_modifier_after_run 65535 = 0
  /\ Decoder.sign_modifier_after_run 65535 = 1
  /\ exists block : list bool,
       Encoder.encode_residuals (encoder16 []) [] 16 19 residuals19 = Encoder.returns block
       /\ alen_bits block = 32
       /\ Decoder.read_residual_block default_parameters 16 19 (repeat 0 19) (br_open block)
          = ok residuals19 (mkReader [false; true; false] 29).
Proof.
  repeat split; try reflexivity.
  eexists. split; [vm_compute; reflexivity|]. split; reflexivity.
Qed.

(** ** Residual overflow *)

Section Overflow.

Variables (encoder : Encoder.alac_context) (sample_size residual_count : Z).
Variable residuals : list Z.

Lemma count_zeroes_skips (rounds : nat) :
  forall i zeroes i' zeroes',
    Encoder.count_zeroes rounds residual_count residuals i zeroes = (i', zeroes') ->
    i <= i' /\ forall j, i <= j < i' -> residuals.[j] = 0.
Proof.
  induction rounds as [|rounds IH]; intros i zeroes i' zeroes' H;
    cbn [Encoder.count_zeroes] in H.
  - injection H as <- <-. split; [lia|intros; lia].
  - destruct ((i <? residual_count) && (residuals.[i] =? 0)) eqn:E.
    + apply andb_true_iff in E. destruct E as [_ E]. zbool.
      apply IH in H. destruct H as [Hle Hz]. split; [lia|].
      intros j Hj. destruct (Z.eq_dec j i) as [->|Hne]; [exact E|apply Hz; lia].
    + injection H as <- <-. split; [lia|intros; lia].
Qed.

(** A round either raises, exactly when the residual it codes folds to
    [max_unsigned] or more, or moves past that residual and a run of zeroes. *)
Lemma encode_residual_step_cases (st : Encoder.residual_coder) :
  let u := Encoder.unsigned_residual residuals.[Encoder.rc_i st] in
  (Encoder.max_unsigned sample_size <= u
   /\ Encoder.encode_residual_step encoder sample_size residual_count residuals st
      = Encoder.residual_overflow)
  \/ (u < Encoder.max_unsigned sample_size
      /\ exists st',
           Encoder.encode_residual_step encoder sample_size residual_count residuals st
           = Encoder.returns st'
           /\ Encoder.rc_i st < Encoder.rc_i st'
           /\ forall j, Encoder.rc_i st < j < Encoder.rc_i st' -> residuals.[j] = 0).
Proof.
  cbv zeta. unfold Encoder.encode_residual_step. cbv zeta.
  destruct (Encoder.unsigned_residual residuals.[Encoder.rc_i st]
            >=? Encoder.max_unsigned sample_size) eqn:E; zbool; [left; auto|right].
  split; [lia|].
  destruct (Encoder.unsigned_residual residuals.[Encoder.rc_i st] <=? 65535).
  - match goal with |- context [Encoder.zero_run_follows ?h ?i ?n] =>
      destruct (Encoder.zero_run_follows h i n) end.
    + match goal with |- context [Encoder.count_zeroes ?r ?n ?l ?i ?z] =>
        destruct (Encoder.count_zeroes r n l i z) as [i' zeroes] eqn:Ec end.
      apply count_zeroes_skips in Ec. destruct Ec as [Hle Hz].
      eexists. split; [reflexivity|]. cbn [Encoder.rc_i]. split; [lia|].
      intros j Hj. apply Hz. lia.
    + eexists. split; [reflexivity|]. cbn [Encoder.rc_i]. split; [lia|]. intros; lia.
  - eexists. split; [reflexivity|]. cbn [Encoder.rc_i]. split; [lia|]. intros; lia.
Qed.

Lemma unsigned_residual_nonneg (r : Z) : 0 <= Encoder.unsigned_residual r.
Proof.
  unfold Encoder.unsigned_residual.
  destruct (r >=? 0); match goal with |- 0 <= uint32 ?z =>
    pose proof (uint32_is_unsigned z) as H; unfold is_unsigned in H; lia end.
Qed.

Lemma encode_residuals_loop_overflows (rounds : nat) :
  forall (st : Encoder.residual_coder) (j : Z),
    Encoder.rc_i st <= j < residual_count ->
    Encoder.max_unsigned sample_size <= Encoder.unsigned_residual residuals.[j] ->
    residual_count - Encoder.rc_i st <= Z.of_nat rounds ->
    Encoder.encode_residuals_loop rounds encoder sample_size residual_count residuals st
    = Encoder.residual_overflow.
Proof.
  induction rounds as [|rounds IH]; intros st j Hj Hu Hrounds; [lia|].
  cbn [Encoder.encode_residuals_loop].
  destruct (Encoder.rc_i st <? residual_count) eqn:E; zbool; [|lia].
  destruct (encode_residual_step_cases st) as [[_ ->]|(Hlt & st' & -> & Hi & Hz)];
    [reflexivity|].
  cbn [Encoder.jbind].
  assert (Encoder.rc_i st' <= j) as Hj'.
  { destruct (Z_le_dec (Encoder.rc_i st') j) as [H|H]; [exact H|exfalso].
    destruct (Z.eq_dec j (Encoder.rc_i st)) as [Heq|Hne].
    - rewrite Heq in Hu. lia.
    - rewrite Hz in Hu by lia. change (Encoder.unsigned_residual 0) with 0 in Hu.
      pose proof (unsigned_residual_nonneg residuals.[Encoder.rc_i st]). lia. }
  apply (IH st' j); lia.
Qed.

(** If a residual of the block folds to [max_unsigned] or more, the block
    is not coded: [encode_residuals] leaves through [longjmp]. *)
Lemma encode_residuals_overflows (residual_block : BitstreamWriter) (j : Z) :
  0 <= j < residual_count ->
  Encoder.max_unsigned sample_size <= Encoder.unsigned_residual residuals.[j] ->
  Encoder.encode_residuals encoder residual_block sample_size residual_count residuals
  = Encoder.residual_overflow.
Proof.
  intros Hj Hu. unfold Encoder.encode_residuals.
  rewrite (encode_residuals_loop_overflows _ _ j); cbn [Encoder.rc_i]; auto; lia.
Qed.

Lemma encode_residuals_loop_returns (rounds : nat) :
  forall st : Encoder.residual_coder,
    0 <= Encoder.rc_i st ->
    (forall j, 0 <= j < residual_count ->
               Encoder.unsigned_residual residuals.[j] < Encoder.max_unsigned sample_size) ->
    exists st',
      Encoder.encode_residuals_loop rounds encoder sample_size residual_count residuals st
      = Encoder.returns st'.
Proof.
  induction rounds as [|rounds IH]; intros st Hi Hall; cbn [Encoder.encode_residuals_loop].
  - eexists; reflexivity.
  - destruct (Encoder.rc_i st <? residual_count) eqn:E; zbool; [|eexists; reflexivity].
    destruct (encode_residual_step_cases st) as [[Hge _]|(Hlt & st' & -> & Hi' & _)].
    + specialize (Hall (Encoder.rc_i st) ltac:(lia)). lia.
    + cbn [Encoder.jbind]. apply IH; [lia|exact Hall].
Qed.

(** If every residual of the block folds below [max_unsigned], the block is coded. *)
Lemma encode_residuals_returns (residual_block : BitstreamWriter) :
  (forall j, 0 <= j < residual_count ->
             Encoder.unsigned_residual residuals.[j] < Encoder.max_unsigned sample_size) ->
  exists block,
    Encoder.encode_residuals encoder residual_block sample_size residual_count residuals
    = Encoder.returns block.
Proof.
  intros Hall. unfold Encoder.encode_residuals.
  destruct (encode_residuals_loop_returns (Z.to_nat residual_count)
              {| Encoder.rc_i := 0;
                 Encoder.rc_history := int32 (Encoder.initial_history (Encoder.options encoder));
                 Encoder.rc_sign_modifier := 0;
                 Encoder.rc_block := residual_block |}) as [st' ->];
    [cbn; lia|exact Hall|].
  eexists; reflexivity.
Qed.

End Overflow.

(** ** The uncompressed fallback *)

(** Some residual of the block folds to [max_unsigned] or more. *)
Definition folds_over (sample_size residual_count : Z) (residuals : list Z) : Prop :=
  exists j, 0 <= j < residual_count
            /\ Encoder.max_unsigned sample_size <= Encoder.unsigned_residual residuals.[j].

(** What [compute_coefficients] computes on the way: the autocorrelation
    of the windowed samples, the quantised coefficients of an order, the
    residuals of an order and their coded block. *)
Definition autocorrelated_of (encoder : Encoder.alac_context) (sample_count : Z)
           (samples : list Z) : list float :=
  Encoder.autocorrelate sample_count
    (Encoder.window_signal sample_count samples (Encoder.tukey_window_ encoder))
    Encoder.MAX_QLP_COEFFS.

Definition qlp_coefficients_of (encoder : Encoder.alac_context) (sample_count : Z)
           (samples : list Z) (order : Z) : list Z :=
  Encoder.quantize_coefficients order
    (Encoder.compute_lp_coefficients Encoder.MAX_QLP_COEFFS
       (autocorrelated_of encoder sample_count samples)).

Definition residual_values_of (encoder : Encoder.alac_context) (sample_count : Z)
           (samples : list Z) (sample_size order : Z) : list Z :=
  Encoder.calculate_residuals sample_size sample_count samples order
    (qlp_coefficients_of encoder sample_count samples order).

Definition residual_block_of (encoder : Encoder.alac_context) (sample_count : Z)
           (samples : list Z) (sample_size order : Z) : Encoder.jmp BitstreamRecorder :=
  Encoder.encode_residuals encoder [] sample_size sample_count
    (residual_values_of encoder sample_count samples sample_size order).

(** The residual arrays [compute_coefficients] codes for a channel: those
    of orders 4 and 8, or the one with coefficients 0 when the
    autocorrelation vanishes. *)
Definition residuals_to_code (encoder : Encoder.alac_context) (sample_count : Z)
           (samples : list Z) (sample_size : Z) : list (list Z) :=
  if negb (fget (autocorrelated_of encoder sample_count samples) 0 =? 0)%float then
    [residual_values_of encoder sample_count samples sample_size 4;
     residual_values_of encoder sample_count samples sample_size 8]
  else [Encoder.calculate_residuals sample_size sample_count samples 4 [0; 0; 0; 0]].

(** The leftweights [write_compressed_frame] tries, in order. *)
Definition leftweights (encoder : Encoder.alac_context) : list Z :=
  let lo := Encoder.minimum_interlacing_leftweight (Encoder.options encoder) in
  let hi := Encoder.maximum_interlacing_leftweight (Encoder.options encoder) in
  map (fun n => lo + Z.of_nat n) (seq 0 (Z.to_nat (hi + 1 - lo))).

(** The channels [write_compressed_frame] hands to [compute_coefficients],
    each with its sample size: the one channel of a mono frame, or the two
    correlated channels of every leftweight tried; above 16 bits, of the
    samples without their low bits. *)
Definition channels_to_code (encoder : Encoder.alac_context) (channels : list (list Z))
  : list (Z * list Z) :=
  let bps := Encoder.bits_per_sample encoder in
  let uncompressed_LSBs := if bps <=? 16 then 0 else (bps - 16) / 8 in
  let coded := if bps <=? 16 then channels else Encoder.extract_MSBs encoder channels in
  if alen_channels channels =? 1 then
    [(bps - uncompressed_LSBs * 8, channel coded 0)]
  else
    flat_map
      (fun leftweight =>
         let correlated :=
           Encoder.correlate_channels coded Encoder.INTERLACING_SHIFT leftweight in
         [(bps - uncompressed_LSBs * 8 + 1, channel correlated 0);
          (bps - uncompressed_LSBs * 8 + 1, channel correlated 1)])
      (leftweights encoder).

(** The compressed-frame attempt folds some residual to [2^sample_size] or more. *)
Definition attempt_folds_over (encoder : Encoder.alac_context)
           (channels : list (list Z)) : Prop :=
  exists sample_size samples residuals,
    In (sample_size, samples) (channels_to_code encoder channels)
    /\ In residuals (residuals_to_code encoder (alen samples) samples sample_size)
    /\ folds_over sample_size (alen samples) residuals.

Lemma compute_coefficients_overflows (encoder : Encoder.alac_context)
      (samples : list Z) (sample_size : Z) (residual : BitstreamWriter) (residuals : list Z) :
  In residuals (residuals_to_code encoder (alen samples) samples sample_size) ->
  folds_over sample_size (alen samples) residuals ->
  Encoder.compute_coefficients encoder (alen samples) samples sample_size residual
  = Encoder.residual_overflow.
Proof.
  intros Hin (j & Hj & Hu). unfold residuals_to_code in Hin.
  unfold Encoder.compute_coefficients. cbv zeta in *.
  fold (autocorrelated_of encoder (alen samples) samples).
  destruct (negb _).
  - destruct Hin as [<-|[<-|[]]].
    + now rewrite (encode_residuals_overflows _ _ _ _ _ j Hj Hu).
    + destruct (Encoder.encode_residuals encoder [] sample_size (alen samples)
                  (Encoder.calculate_residuals sample_size (alen samples) samples 4 _));
        [|reflexivity].
      cbn [Encoder.jbind]. now rewrite (encode_residuals_overflows _ _ _ _ _ j Hj Hu).
  - destruct Hin as [<-|[]].
    now rewrite (encode_residuals_overflows _ _ _ _ _ j Hj Hu).
Qed.

Lemma for_loop_jmp_raised {T : Type} (body : T -> Z -> Encoder.jmp T) (l : list Z) :
  fold_left (fun m i => Encoder.jbind m (fun s => body s i)) l Encoder.residual_overflow
  = Encoder.residual_overflow.
Proof. induction l as [|i l IH]; [reflexivity|exact IH]. Qed.



Lemma fold_jmp_overflows {T : Type} (body : Z -> T -> Encoder.jmp T) (lo : Z)
      (l : list nat) (n : nat) :
  In n l ->
  (forall s, body (lo + Z.of_nat n) s = Encoder.residual_overflow) ->
  forall init,
    fold_left (fun m n => Encoder.jbind m (body (lo + Z.of_nat n))) l init
    = Encoder.residual_overflow.
Proof.
  intros Hin Hbody. induction l as [|a l IH]; intros init; [destruct Hin|].
  cbn [fold_left]. destruct Hin as [->|Hin].
  - replace (Encoder.jbind init (body (lo + Z.of_nat n))) with (@Encoder.residual_overflow T)
      by (destruct init; cbn [Encoder.jbind]; [now rewrite Hbody|reflexivity]).
    clear. induction l as [|a l IH]; [reflexivity|exact IH].
  - apply IH. exact Hin.
Qed.

Lemma for_loop_jmp_overflows {T : Type} (lo hi : Z) (body : Z -> T -> Encoder.jmp T)
      (s : T) (i : Z) :
  lo <= i < hi ->
  (forall x, body i x = Encoder.residual_overflow) ->
  Encoder.for_loop_jmp lo hi body s = Encoder.residual_overflow.
Proof.
  intros Hi Hbody. unfold Encoder.for_loop_jmp.
  apply fold_jmp_overflows with (n := Z.to_nat (i - lo)).
  - apply in_seq. lia.
  - replace (lo + Z.of_nat (Z.to_nat (i - lo))) with i by lia. exact Hbody.
Qed.

Lemma in_leftweights (encoder : Encoder.alac_context) (leftweight : Z) :
  In leftweight (leftweights encoder)
  <-> Encoder.minimum_interlacing_leftweight (Encoder.options encoder) <= leftweight
      <= Encoder.maximum_interlacing_leftweight (Encoder.options encoder).
Proof.
  unfold leftweights. cbv zeta. rewrite in_map_iff. split.
  - intros (n & <- & Hn). apply in_seq in Hn. lia.
  - intros H.
    exists (Z.to_nat (leftweight
                      - Encoder.minimum_interlacing_leftweight (Encoder.options encoder))).
    split; [lia|]. apply in_seq. lia.
Qed.

Lemma write_non_interlaced_frame_overflows (bs : BitstreamWriter)
      (encoder : Encoder.alac_context) (uncompressed_LSBs : Z) (LSBs : list Z)
      (channels : list (list Z)) (residuals : list Z) :
  let sample_size := Encoder.bits_per_sample encoder - uncompressed_LSBs * 8 in
  let samples := channel channels 0 in
  In residuals (residuals_to_code encoder (alen samples) samples sample_size) ->
  folds_over sample_size (alen samples) residuals ->
  Encoder.write_non_interlaced_frame bs encoder uncompressed_LSBs LSBs channels
  = Encoder.residual_overflow.
Proof.
  cbv zeta. intros Hin Hover. unfold Encoder.write_non_interlaced_frame.
  now rewrite (compute_coefficients_overflows _ _ _ _ _ Hin Hover).
Qed.

Lemma write_interlaced_frame_overflows (bs : BitstreamWriter)
      (encoder : Encoder.alac_context) (uncompressed_LSBs : Z) (LSBs : list Z)
      (interlacing_shift interlacing_leftweight : Z)
      (channels : list (list Z)) (samples residuals : list Z) :
  let sample_size := Encoder.bits_per_sample encoder - uncompressed_LSBs * 8 + 1 in
  let correlated :=
    Encoder.correlate_channels channels interlacing_shift interlacing_leftweight in
  samples = channel correlated 0 \/ samples = channel correlated 1 ->
  In residuals (residuals_to_code encoder (alen samples) samples sample_size) ->
  folds_over sample_size (alen samples) residuals ->
  Encoder.write_interlaced_frame bs encoder uncompressed_LSBs LSBs
    interlacing_shift interlacing_leftweight channels
  = Encoder.residual_overflow.
Proof.
  cbv zeta. intros Hs Hin Hover. unfold Encoder.write_interlaced_frame. cbv zeta.
  destruct Hs as [->| ->].
  - now rewrite (compute_coefficients_overflows _ _ _ _ _ Hin Hover).
  - match goal with |- Encoder.jbind ?m _ = _ => destruct m as [[[o q] r]|] end;
      [|reflexivity].
    cbn [Encoder.jbind]. now rewrite (compute_coefficients_overflows _ _ _ _ _ Hin Hover).
Qed.

Lemma try_leftweights_overflows (encoder : Encoder.alac_context)
      (uncompressed_LSBs : Z) (LSBs : list Z) (channels : list (list Z))
      (leftweight : Z) (samples residuals : list Z) :
  let sample_size := Encoder.bits_per_sample encoder - uncompressed_LSBs * 8 + 1 in
  let correlated :=
    Encoder.correlate_channels channels Encoder.INTERLACING_SHIFT leftweight in
  In leftweight (leftweights encoder) ->
  samples = channel correlated 0 \/ samples = channel correlated 1 ->
  In residuals (residuals_to_code encoder (alen samples) samples sample_size) ->
  folds_over sample_size (alen samples) residuals ->
  Encoder.try_leftweights encoder uncompressed_LSBs LSBs channels
  = Encoder.residual_overflow.
Proof.
  cbv zeta. intros Hlw Hs Hin Hover. apply in_leftweights in Hlw.
  unfold Encoder.try_leftweights.
  apply for_loop_jmp_overflows with (i := leftweight); [lia|].
  intros [[i b] bits].
  change (recorder_reset i) with (@nil bool).
  now rewrite (write_interlaced_frame_overflows _ _ _ _ _ _ _ _ _ Hs Hin Hover).
Qed.

Lemma write_compressed_frame_overflows (bs : BitstreamWriter)
      (encoder : Encoder.alac_context) (channels : list (list Z)) :
  attempt_folds_over encoder channels ->
  Encoder.write_compressed_frame bs encoder channels = Encoder.residual_overflow.
Proof.
  intros (sample_size & samples & residuals & Hc & Hin & Hover).
  unfold channels_to_code in Hc. unfold Encoder.write_compressed_frame. cbv zeta in *.
  destruct (Encoder.bits_per_sample encoder <=? 16);
    destruct (alen_channels channels =? 1).
  - destruct Hc as [Hc|[]]. injection Hc as <- <-.
    now apply write_non_interlaced_frame_overflows with (residuals := residuals).
  - apply in_flat_map in Hc. destruct Hc as (lw & Hlw & Hc).
    rewrite (try_leftweights_overflows encoder 0 [] channels lw samples residuals);
      [reflexivity|exact Hlw| | |].
    + destruct Hc as [Hc|[Hc|[]]]; injection Hc as _ <-; auto.
    + destruct Hc as [Hc|[Hc|[]]]; injection Hc as <- _; exact Hin.
    + destruct Hc as [Hc|[Hc|[]]]; injection Hc as <- _; exact Hover.
  - destruct Hc as [Hc|[]]. injection Hc as <- <-.
    now apply write_non_interlaced_frame_overflows with (residuals := residuals).
  - apply in_flat_map in Hc. destruct Hc as (lw & Hlw & Hc).
    rewrite (try_leftweights_overflows encoder _ _ _ lw samples residuals);
      [reflexivity|exact Hlw| | |].
    + destruct Hc as [Hc|[Hc|[]]]; injection Hc as _ <-; auto.
    + destruct Hc as [Hc|[Hc|[]]]; injection Hc as <- _; exact Hin.
    + destruct Hc as [Hc|[Hc|[]]]; injection Hc as <- _; exact Hover.
Qed.

(** The options of the residual coder for which every round of
    [encode_residuals] is defined in C: a positive history to start with, a
    history multiplier that keeps it positive and within an [int], and a
    [maximum_k] of 1 and more, so that no [LOG2] is taken of 0 and no
    [write_residual] divides by [(1 << 0) - 1].  The values of the reference
    encoder, 10, 40 and 14, are among them. *)
Definition coder_options_in_range (encoder : Encoder.alac_context) : Prop :=
  1 <= Encoder.initial_history (Encoder.options encoder) <= 2 ^ 25
  /\ 1 <= Encoder.history_multiplier (Encoder.options encoder) <= 63
  /\ 1 <= Encoder.maximum_k (Encoder.options encoder) < 2 ^ 32.


(** An uncompressed frame as the format has it: 16 unused bits, the flag of
    a sample count, no uncompressed LSBs, the flag "not compressed", the
    sample count if the block is not a whole one, then the samples in
    [bits_per_sample] bits each, sample after sample and, in every sample,
    channel after channel. *)
Definition uncompressed_frame_bits (block_size bits_per_sample : Z)
           (channels : list (list Z)) : list bool :=
  let len := alen (channel channels 0) in
  repeat false 16
  ++ [negb (len =? block_size)]
  ++ [false; false]
  ++ [true]
  ++ (if len =? block_size then [] else bits_msb_first 32 len)
  ++ flat_map
       (fun i =>
          flat_map
            (fun c => bits_msb_first (Z.to_nat bits_per_sample)
                                     (channel channels (Z.of_nat c)).[Z.of_nat i])
            (seq 0 (length channels)))
       (seq 0 (length (channel channels 0))).

Lemma fold_left_flat_map {A B : Type} (g : B -> list A) (l : list B) :
  forall s, fold_left (fun s x => s ++ g x) l s = s ++ flat_map g l.
Proof.
  induction l as [|x l IH]; intros s; cbn [fold_left flat_map].
  - now rewrite app_nil_r.
  - now rewrite IH, app_assoc.
Qed.

Lemma fold_left_nested_flat_map {A B C : Type} (g : B -> C -> list A)
      (inner : list C) (l : list B) :
  forall s,
    fold_left (fun s x => fold_left (fun s y => s ++ g x y) inner s) l s
    = s ++ flat_map (fun x => flat_map (g x) inner) l.
Proof.
  induction l as [|x l IH]; intros s; cbn [fold_left flat_map].
  - now rewrite app_nil_r.
  - now rewrite IH, fold_left_flat_map, app_assoc.
Qed.

(** [write_uncompressed_frame] appends the bits of an uncompressed frame. *)
Lemma write_uncompressed_frame_bits (bs : BitstreamWriter) (encoder : Encoder.alac_context)
      (channels : list (list Z)) :
  Encoder.write_uncompressed_frame bs encoder channels
  = bs ++ uncompressed_frame_bits (Encoder.block_size (Encoder.options encoder))
                                  (Encoder.bits_per_sample encoder) channels.
Proof.
  unfold Encoder.write_uncompressed_frame, uncompressed_frame_bits. cbv zeta.
  unfold for_loop, alen, alen_channels. rewrite !Z.sub_0_r, !Nat2Z.id.
  unfold bw_write_signed.
  rewrite (fold_left_nested_flat_map
             (fun i c => bits_msb_first (Z.to_nat (Encoder.bits_per_sample encoder))
                                        (channel channels (0 + Z.of_nat c)).[0 + Z.of_nat i])).
  unfold Encoder.write_frame_header, bw_write. cbv zeta.
  destruct (Z.of_nat (length (channel channels 0))
            =? Encoder.block_size (Encoder.options encoder));
    cbn [negb]; rewrite <- !app_assoc; reflexivity.
Qed.

(** C4: for every frame of one channel or of two channels of one length,
    of ten samples or more, whose compressed-frame attempt folds some
    residual to [u >= 2^sample_size] (the options of the coder in range),
    [write_compressed_frame] raises the residual overflow, and [write_frame]
    emits the frame uncompressed: after the three bits of the channel count
    the stream holds the bits of an uncompressed frame, "not compressed"
    set and every sample in [bits_per_sample] bits, and no bit of the
    attempt, which was recorded apart. *)
Theorem write_frame_overflow_fallback (bs : BitstreamWriter)
        (encoder : Encoder.alac_context) (channels : list (list Z)) :
  coder_options_in_range encoder ->
  alen_channels channels = 1
  \/ (alen_channels channels = 2 /\ alen (channel channels 1) = alen (channel channels 0)) ->
  10 <= alen (channel channels 0) ->
  attempt_folds_over encoder channels ->
  Encoder.write_compressed_frame [] encoder channels = Encoder.residual_overflow
  /\ Encoder.write_frame bs encoder channels
     = bs ++ bits_msb_first 3 (alen_channels channels - 1)
          ++ uncompressed_frame_bits (Encoder.block_size (Encoder.options encoder))
                                     (Encoder.bits_per_sample encoder) channels.
Proof.
  intros _ _ Hlen Hover.
  pose proof (write_compressed_frame_overflows [] encoder channels Hover) as H.
  split; [exact H|]. unfold Encoder.write_frame. cbv zeta.
  destruct (alen (channel channels 0) >=? 10) eqn:E; zbool; [|lia].
  change (recorder_reset []) with (@nil bool). rewrite H.
  rewrite write_uncompressed_frame_bits. unfold bw_write. now rewrite <- app_assoc.
Qed.


(** ** An encoder for blocks of ten samples *)

(** The Tukey window of a block of ten samples. *)
Definition window10 : list float := [0; 1; 1; 1; 1; 1; 1; 1; 1; 0]%float.

Lemma tukey_window_10 (cos : float -> float) :
  cos 0%float = 1%float -> cos M_PI = (-1)%float ->
  Encoder.tukey_window cos 0.5%float 10 = window10.
Proof.
  intros H0 Hpi. unfold M_PI in Hpi. vm_compute. rewrite H0, Hpi. reflexivity.
Qed.

Definition encoder10 : Encoder.alac_context :=
  {| Encoder.options :=
       {| Encoder.block_size := 10;
          Encoder.initial_history := 10;
          Encoder.history_multiplier := 40;
          Encoder.maximum_k := 14;
          Encoder.minimum_interlacing_leftweight := 0;
          Encoder.maximum_interlacing_leftweight := 4 |};
     Encoder.bits_per_sample := 16;
     Encoder.tukey_window_ := window10;
     Encoder.interlaced_frame := [];
     Encoder.best_interlaced_frame := [] |}.

(** C4 at a mono block whose first sample, 40000, is outside 16 bits. *)
Lemma write_frame_overflow_fallback_witness :
  Encoder.write_compressed_frame [] encoder10 [[40000; 0; 0; 0; 0; 0; 0; 0; 0; 0]]
  = Encoder.residual_overflow
  /\ Encoder.write_frame [true] encoder10 [[40000; 0; 0; 0; 0; 0; 0; 0; 0; 0]]
     = [true] ++ bits_msb_first 3 (alen_channels [[40000; 0; 0; 0; 0; 0; 0; 0; 0; 0]] - 1)
          ++ uncompressed_frame_bits (Encoder.block_size (Encoder.options encoder10))
               (Encoder.bits_per_sample encoder10) [[40000; 0; 0; 0; 0; 0; 0; 0; 0; 0]].
Proof.
  apply (write_frame_overflow_fallback [true] encoder10
           [[40000; 0; 0; 0; 0; 0; 0; 0; 0; 0]]).
  - unfold coder_options_in_range. cbn. lia.
  - left. reflexivity.
  - vm_compute. discriminate.
  - exists 16, [40000; 0; 0; 0; 0; 0; 0; 0; 0; 0],
      (Encoder.calculate_residuals 16 10 [40000; 0; 0; 0; 0; 0; 0; 0; 0; 0] 4 [0; 0; 0; 0]).
    split; [left; reflexivity|]. split; [left; reflexivity|].
    exists 0. split; [vm_compute; split; [discriminate|reflexivity]|].
    vm_compute. discriminate.
Defined.


(** ** The order of the predictor *)

(** C5: for every block whose autocorrelation R[0] is not zero and whose
    residuals are coded without overflow at both orders,
    [compute_coefficients] returns order 4, with its coefficients and
    residual block, exactly when the block of order 4 is strictly shorter
    than the block of order 8 plus 64 bits, and order 8 otherwise. The
    lengths are those an [unsigned] counter holds. *)
Theorem compute_coefficients_order (encoder : Encoder.alac_context) (sample_count : Z)
        (samples : list Z) (sample_size : Z) (residual : BitstreamWriter)
        (block4 block8 : BitstreamRecorder) :
  (fget (autocorrelated_of encoder sample_count samples) 0 =? 0)%float = false ->
  residual_block_of encoder sample_count samples sample_size 4 = Encoder.returns block4 ->
  residual_block_of encoder sample_count samples sample_size 8 = Encoder.returns block8 ->
  alen_bits block4 <= UINT_MAX ->
  alen_bits block8 + 64 <= UINT_MAX ->
  exists order,
    Encoder.compute_coefficients encoder sample_count samples sample_size residual
    = Encoder.returns
        (order,
         qlp_coefficients_of encoder sample_count samples order,
         residual ++ (if order =? 4 then block4 else block8))
    /\ (order = 4 <-> alen_bits block4 < alen_bits block8 + 64)
    /\ (order = 8 <-> alen_bits block8 + 64 <= alen_bits block4).
Proof.
  intros HR H4 H8 Hb4 Hb8.
  unfold residual_block_of, residual_values_of, qlp_coefficients_of in H4, H8.
  unfold Encoder.compute_coefficients. cbv zeta.
  fold (autocorrelated_of encoder sample_count samples).
  rewrite HR. cbn [negb]. rewrite H4, H8. cbn [Encoder.jbind].
  unfold bits_written, UINT_MAX in *.
  assert (0 <= alen_bits block4 /\ 0 <= alen_bits block8) as [Hp4 Hp8]
      by (unfold alen_bits; lia).
  rewrite (uint32_id (alen_bits block4)) by (unfold is_unsigned; lia).
  rewrite (uint32_id (alen_bits block8)) by (unfold is_unsigned; lia).
  rewrite (uint32_id (alen_bits block8 + 64)) by (unfold is_unsigned; lia).
  destruct (alen_bits block4 <? alen_bits block8 + 64) eqn:E; zbool.
  - exists 4. split; [reflexivity|]. split; split; intros; lia.
  - exists 8. split; [reflexivity|]. split; split; intros; lia.
Qed.

(** The two residual blocks of the ten samples 3, 5, 8, ..., 233. *)
Definition fibonacci10 : list Z := [3; 5; 8; 13; 21; 34; 55; 89; 144; 233].

Definition fibonacci10_block4 : BitstreamRecorder :=
  Eval vm_compute in
    match residual_block_of encoder10 10 fibonacci10 16 4 with
    | Encoder.returns block => block
    | Encoder.residual_overflow => []
    end.

Definition fibonacci10_block8 : BitstreamRecorder :=
  Eval vm_compute in
    match residual_block_of encoder10 10 fibonacci10 16 8 with
    | Encoder.returns block => block
    | Encoder.residual_overflow => []
    end.

(** C5 at the ten samples 3, 5, 8, ..., 233: 147 bits against 144 + 64. *)
Lemma compute_coefficients_order_witness :
  exists order,
    Encoder.compute_coefficients encoder10 10 fibonacci10 16 []
    = Encoder.returns
        (order,
         qlp_coefficients_of encoder10 10 fibonacci10 order,
         [] ++ (if order =? 4 then fibonacci10_block4 else fibonacci10_block8))
    /\ (order = 4 <-> alen_bits fibonacci10_block4 < alen_bits fibonacci10_block8 + 64)
    /\ (order = 8 <-> alen_bits fibonacci10_block8 + 64 <= alen_bits fibonacci10_block4).
Proof.
  apply (compute_coefficients_order encoder10 10 fibonacci10 16 []).
  - vm_compute. reflexivity.
  - vm_compute. reflexivity.
  - vm_compute. reflexivity.
  - vm_compute. discriminate.
  - vm_compute. discriminate.
Defined.

(** ** The search for the interlacing leftweight *)

(** The candidate frame [write_compressed_frame] records for one leftweight. *)
Definition interlaced_candidate (encoder : Encoder.alac_context)
           (channels : list (list Z)) (leftweight : Z) : Encoder.jmp BitstreamRecorder :=
  if Encoder.bits_per_sample encoder <=? 16 then
    Encoder.write_interlaced_frame [] encoder 0 []
      Encoder.INTERLACING_SHIFT leftweight channels
  else
    Encoder.write_interlaced_frame [] encoder
      ((Encoder.bits_per_sample encoder - 16) / 8)
      (Encoder.extract_LSBs encoder channels)
      Encoder.INTERLACING_SHIFT leftweight
      (Encoder.extract_MSBs encoder channels).

Section LeftweightSearch.
Variable encoder : Encoder.alac_context.
Variable uncompressed_LSBs : Z.
Variable LSBs : list Z.
Variable channels : list (list Z).

Let candidate (leftweight : Z) : Encoder.jmp BitstreamRecorder :=
  Encoder.write_interlaced_frame [] encoder uncompressed_LSBs LSBs
    Encoder.INTERLACING_SHIFT leftweight channels.

Let lo := Encoder.minimum_interlacing_leftweight (Encoder.options encoder).

(** What the search holds after its first [n] leftweights. *)
Definition best_of_first (n : nat) (st : BitstreamRecorder * BitstreamRecorder * Z) : Prop :=
  let '(_, best, best_bits) := st in
  best_bits = alen_bits best
  /\ exists leftweight,
      lo <= leftweight < lo + Z.of_nat n
      /\ candidate leftweight = Encoder.returns best
      /\ forall lw frame,
          lo <= lw < lo + Z.of_nat n ->
          candidate lw = Encoder.returns frame ->
          alen_bits best <= alen_bits frame
          /\ (lw < leftweight -> alen_bits best < alen_bits frame).

Hypothesis candidates_fit :
  forall lw, lo <= lw <= Encoder.maximum_interlacing_leftweight (Encoder.options encoder) ->
    exists frame, candidate lw = Encoder.returns frame /\ alen_bits frame < UINT_MAX.

Lemma try_leftweights_first (n : nat) :
  lo + Z.of_nat n <= Encoder.maximum_interlacing_leftweight (Encoder.options encoder) + 1 ->
  exists st,
    Encoder.for_loop_jmp lo (lo + Z.of_nat n)
      (fun leftweight '(interlaced_frame, best_interlaced_frame, best_interlaced_frame_bits) =>
         let interlaced_frame := recorder_reset interlaced_frame in
         Encoder.jbind
           (Encoder.write_interlaced_frame interlaced_frame encoder uncompressed_LSBs LSBs
              Encoder.INTERLACING_SHIFT leftweight channels)
           (fun interlaced_frame =>
              if bits_written interlaced_frame <? best_interlaced_frame_bits then
                Encoder.returns (best_interlaced_frame, interlaced_frame,
                                 bits_written interlaced_frame)
              else
                Encoder.returns (interlaced_frame, best_interlaced_frame,
                                 best_interlaced_frame_bits)))
      (Encoder.interlaced_frame encoder, Encoder.best_interlaced_frame encoder, UINT_MAX)
    = Encoder.returns st
    /\ (n = 0%nat -> snd st = UINT_MAX)
    /\ (n <> 0%nat -> best_of_first n st).
Proof.
  unfold Encoder.for_loop_jmp.
  replace (lo + Z.of_nat n - lo) with (Z.of_nat n) by lia. rewrite Nat2Z.id.
  induction n as [|n IH]; intros Hn.
  - eexists. split; [reflexivity|]. split; [reflexivity|]. intros H; now destruct H.
  - destruct IH as [[[other best] best_bits] [E [H0 Hbest]]]; [lia|].
    rewrite seq_S, fold_left_app, E. cbn [fold_left Encoder.jbind Nat.add].
    unfold recorder_reset. fold (candidate (lo + Z.of_nat n)).
    destruct (candidates_fit (lo + Z.of_nat n)) as [frame [Ec Hfit]]; [lia|].
    rewrite Ec. cbn [Encoder.jbind].
    assert (Hbits : bits_written frame = alen_bits frame).
    { unfold bits_written. apply uint32_id. unfold is_unsigned, UINT_MAX in *.
      unfold alen_bits in *. lia. }
    rewrite Hbits.
    destruct (alen_bits frame <? best_bits) eqn:Elt; zbool.
    + eexists. split; [reflexivity|]. split; [discriminate|]. intros _.
      split; [reflexivity|]. exists (lo + Z.of_nat n).
      split; [lia|]. split; [exact Ec|]. intros lw frame' Hlw Ec'.
      destruct (Z.eq_dec lw (lo + Z.of_nat n)) as [->|Hne].
      * rewrite Ec in Ec'. injection Ec' as <-. lia.
      * destruct n as [|n]; [lia|].
        destruct Hbest as [Eb [lw0 [Hlw0 [Ec0 Hmin]]]]; [discriminate|].
        destruct (Hmin lw frame') as [Hle _]; [lia|exact Ec'|]. lia.
    + destruct n as [|n].
      * cbn [snd] in H0. unfold UINT_MAX in *. specialize (H0 eq_refl). lia.
      * destruct Hbest as [Eb [lw0 [Hlw0 [Ec0 Hmin]]]]; [discriminate|].
        eexists. split; [reflexivity|]. split; [discriminate|]. intros _.
        split; [exact Eb|]. exists lw0. split; [lia|]. split; [exact Ec0|].
        intros lw frame' Hlw Ec'.
        destruct (Z.eq_dec lw (lo + Z.of_nat (S n))) as [->|Hne].
        -- rewrite Ec in Ec'. injection Ec' as <-. split; lia.
        -- apply Hmin; [lia|exact Ec'].
Qed.

Lemma try_leftweights_minimal :
  lo <= Encoder.maximum_interlacing_leftweight (Encoder.options encoder) ->
  exists st,
    Encoder.try_leftweights encoder uncompressed_LSBs LSBs channels = Encoder.returns st
    /\ best_of_first
         (Z.to_nat (Encoder.maximum_interlacing_leftweight (Encoder.options encoder) + 1 - lo))
         st.
Proof.
  intros Hle.
  destruct (try_leftweights_first
              (Z.to_nat (Encoder.maximum_interlacing_leftweight (Encoder.options encoder)
                         + 1 - lo))) as [st [E [_ H]]]; [lia|].
  exists st. split; [|apply H; lia].
  unfold Encoder.try_leftweights. fold lo.
  replace (Encoder.maximum_interlacing_leftweight (Encoder.options encoder) + 1)
    with (lo + Z.of_nat (Z.to_nat (Encoder.maximum_interlacing_leftweight
                                     (Encoder.options encoder) + 1 - lo))) by lia.
  exact E.
Qed.
End LeftweightSearch.

(** C6: for every stereo frame whose candidates are all coded,
    [write_compressed_frame] emits the interlaced candidate of some
    leftweight between the minimum and the maximum, with shift 2, that no
    candidate of the range is shorter than, and every candidate of a
    smaller leftweight is strictly longer than: ties go to the smallest
    leftweight. *)
Theorem write_compressed_frame_minimal (bs : BitstreamWriter)
        (encoder : Encoder.alac_context) (channels : list (list Z)) :
  let minimum := Encoder.minimum_interlacing_leftweight (Encoder.options encoder) in
  let maximum := Encoder.maximum_interlacing_leftweight (Encoder.options encoder) in
  alen_channels channels = 2 ->
  minimum <= maximum ->
  (forall lw, minimum <= lw <= maximum ->
     exists frame, interlaced_candidate encoder channels lw = Encoder.returns frame
                   /\ alen_bits frame < UINT_MAX) ->
  exists leftweight frame,
    minimum <= leftweight <= maximum
    /\ interlaced_candidate encoder channels leftweight = Encoder.returns frame
    /\ Encoder.write_compressed_frame bs encoder channels = Encoder.returns (bs ++ frame)
    /\ forall lw frame',
        minimum <= lw <= maximum ->
        interlaced_candidate encoder channels lw = Encoder.returns frame' ->
        alen_bits frame <= alen_bits frame'
        /\ (lw < leftweight -> alen_bits frame < alen_bits frame').
Proof.
  intros minimum maximum Hch Hle Hfit.
  unfold Encoder.write_compressed_frame, interlaced_candidate in *.
  rewrite Hch. change (2 =? 1) with false. cbv iota.
  destruct (Encoder.bits_per_sample encoder <=? 16).
  - destruct (try_leftweights_minimal encoder 0 [] channels Hfit Hle)
      as [[[other best] best_bits] [E [_ [lw0 [Hlw0 [Ec0 Hmin]]]]]].
    rewrite E. cbn [Encoder.jbind]. exists lw0, best.
    fold minimum maximum in Hlw0, Hmin.
    split; [lia|]. split; [exact Ec0|]. split; [reflexivity|].
    intros lw frame' Hlw. apply Hmin. lia.
  - destruct (try_leftweights_minimal encoder _ _ _ Hfit Hle)
      as [[[other best] best_bits] [E [_ [lw0 [Hlw0 [Ec0 Hmin]]]]]].
    cbv zeta. rewrite E. cbn [Encoder.jbind]. exists lw0, best.
    fold minimum maximum in Hlw0, Hmin.
    split; [lia|]. split; [exact Ec0|]. split; [reflexivity|].
    intros lw frame' Hlw. apply Hmin. lia.
Qed.

(** Two equal channels: the leftweights 1 to 4 all give 353 bits, 0 gives 498. *)
Definition stereo10 : list (list Z) := [fibonacci10; fibonacci10].

Example write_compressed_frame_tie :
  map (fun lw => match interlaced_candidate encoder10 stereo10 lw with
                 | Encoder.returns frame => alen_bits frame
                 | Encoder.residual_overflow => -1
                 end) [0; 1; 2; 3; 4]
  = [498; 353; 353; 353; 353]
  /\ Encoder.jbind (interlaced_candidate encoder10 stereo10 1)
       (fun frame => Encoder.returns ([] ++ frame))
     = Encoder.write_compressed_frame [] encoder10 stereo10.
Proof. split; vm_compute; reflexivity. Qed.

(** C6 at two equal channels, where the leftweights 1 to 4 tie. *)
Lemma write_compressed_frame_minimal_witness :
  exists leftweight frame,
    0 <= leftweight <= 4
    /\ interlaced_candidate encoder10 stereo10 leftweight = Encoder.returns frame
    /\ Encoder.write_compressed_frame [] encoder10 stereo10 = Encoder.returns ([] ++ frame)
    /\ forall lw frame',
        0 <= lw <= 4 ->
        interlaced_candidate encoder10 stereo10 lw = Encoder.returns frame' ->
        alen_bits frame <= alen_bits frame'
        /\ (lw < leftweight -> alen_bits frame < alen_bits frame').
Proof.
  apply (write_compressed_frame_minimal [] encoder10 stereo10).
  - reflexivity.
  - vm_compute. discriminate.
  - intros lw Hlw. change (0 <= lw <= 4) in Hlw.
    assert (lw = 0 \/ lw = 1 \/ lw = 2 \/ lw = 3 \/ lw = 4) as [-> | [-> | [-> | [-> | ->]]]]
        by lia;
      eexists; (split; [vm_compute; reflexivity | vm_compute; reflexivity]).
Defined.

(** ** The round trip *)

Lemma init_encoder_10 (cos : float -> float) (bps : Z) :
  cos 0%float = 1%float -> cos M_PI = (-1)%float ->
  Encoder.init_encoder cos (Encoder.options encoder10) bps
  = {| Encoder.options := Encoder.options encoder10;
       Encoder.bits_per_sample := bps;
       Encoder.tukey_window_ := window10;
       Encoder.interlaced_frame := [];
       Encoder.best_interlaced_frame := [] |}.
Proof.
  intros H0 Hpi. unfold Encoder.init_encoder.
  change (Encoder.block_size (Encoder.options encoder10)) with 10.
  now rewrite (tukey_window_10 cos H0 Hpi).
Qed.

(** One channel of ten 16-bit samples, all zero but the ninth. *)
Definition impulse10 : list Z := [0; 0; 0; 0; 0; 0; 0; 0; 1; 0].

(** A source that returns whole blocks. *)
Definition pcmreader_of (channels bits_per_sample : Z) (samples : list Z)
  : Encoder.PCMReader :=
  {| Encoder.pcm_channels := channels;
     Encoder.pcm_bits_per_sample := bits_per_sample;
     Encoder.pcm_samples := samples;
     Encoder.pcm_status_ok := true;
     Encoder.pcm_short_reads := [] |}.

(** The decoder of a stream of blocks of ten samples, with the parameters
    the encoder is given below. *)
Definition decoder10 (channels bits_per_sample : Z) : Decoder.decoders_ALACDecoder :=
  {| Decoder.params :=
       {| Decoder.block_size := 10;
          Decoder.history_multiplier := 40;
          Decoder.initial_history := 10;
          Decoder.maximum_K := 14 |};
     Decoder.bits_per_sample := bits_per_sample;
     Decoder.channels := channels |}.

(** C1 fails on the code: with a cosine that is exact at 0 and at pi,
    [encode_alac] writes the mono 16-bit block 0, 0, 0, 0, 0, 0, 0, 0, 1, 0
    (block size 10, initial history 10, history multiplier 40, maximum k
    14) as one frameset of 17 bytes, and the decoder, run over that file
    frameset after frameset, does not return the block: it stops with
    INVALID_FRAME_CHANNEL_COUNT. *)
Theorem encode_decode_impulse (cos : float -> float) :
  cos 0%float = 1%float -> cos M_PI = (-1)%float ->
  exists file,
    Encoder.encode_alac cos [] (pcmreader_of 1 16 impulse10) 10 10 40 14
    = (file, Some [(17, 10)])
    /\ Decoder.decode_alac (decoder10 1 16) file = failed INVALID_FRAME_CHANNEL_COUNT.
Proof.
  intros H0 Hpi. unfold Encoder.encode_alac.
  change {| Encoder.block_size := 10;
            Encoder.initial_history := 10;
            Encoder.history_multiplier := 40;
            Encoder.maximum_k := 14;
            Encoder.minimum_interlacing_leftweight := 0;
            Encoder.maximum_interlacing_leftweight := 4 |}
    with (Encoder.options encoder10).
  rewrite (init_encoder_10 cos _ H0 Hpi).
  eexists. split.
  - vm_compute. reflexivity.
  - vm_compute. reflexivity.
Qed.

(** A cosine that is right at 0 and at pi, where the window of ten samples
    needs it. *)
Definition cos_0_pi (x : float) : float :=
  if (x =? 0)%float then 1%float else (-1)%float.

(** C1 at the cosine [cos_0_pi]. *)
Lemma encode_decode_impulse_witness :
  exists file,
    Encoder.encode_alac cos_0_pi [] (pcmreader_of 1 16 impulse10) 10 10 40 14
    = (file, Some [(17, 10)])
    /\ Decoder.decode_alac (decoder10 1 16) file = failed INVALID_FRAME_CHANNEL_COUNT.
Proof.
  apply (encode_decode_impulse cos_0_pi); vm_compute; reflexivity.
Defined.

(** The residuals of the impulse are coded in eleven bits, of which the
    decoder reads nine: it returns the residuals, two bits early. *)
Lemma impulse_residuals_misread :
  Encoder.calculate_residuals 16 10 impulse10 4 [0; 0; 0; 0] = impulse10
  /\ Encoder.encode_residuals encoder10 [] 16 10 impulse10
     = Encoder.returns
         [false; false; true; false; false; false; true; false; false; true; false]
  /\ Decoder.read_residual_block default_parameters 16 10 (repeat 0 10)
       (br_open [false; false; true; false; false; false; true; false; false; true; false])
     = ok impulse10 (mkReader [true; false] 9).
Proof. repeat split; vm_compute; reflexivity. Qed.

(** The decoder returns the channels of a frameset in the order of their
    frames: centre, left, right for three channels. *)
Lemma channel_order_not_restored (cos : float -> float) :
  cos 0%float = 1%float -> cos M_PI = (-1)%float ->
  exists file sizes,
    Encoder.encode_alac cos [] (pcmreader_of 3 16 [1; 2; 3]) 10 10 40 14
    = (file, Some sizes)
    /\ exists br, Decoder.decode_alac (decoder10 3 16) file = ok [3; 1; 2] br.
Proof.
  intros H0 Hpi. unfold Encoder.encode_alac.
  change {| Encoder.block_size := 10;
            Encoder.initial_history := 10;
            Encoder.history_multiplier := 40;
            Encoder.maximum_k := 14;
            Encoder.minimum_interlacing_leftweight := 0;
            Encoder.maximum_interlacing_leftweight := 4 |}
    with (Encoder.options encoder10).
  rewrite (init_encoder_10 cos _ H0 Hpi).
  eexists. eexists. split; [vm_compute; reflexivity|].
  eexists. vm_compute. reflexivity.
Qed.

(** The channel order at the cosine [cos_0_pi]. *)
Lemma channel_order_not_restored_witness :
  exists file sizes,
    Encoder.encode_alac cos_0_pi [] (pcmreader_of 3 16 [1; 2; 3]) 10 10 40 14
    = (file, Some sizes)
    /\ exists br, Decoder.decode_alac (decoder10 3 16) file = ok [3; 1; 2] br.
Proof.
  apply (channel_order_not_restored cos_0_pi); vm_compute; reflexivity.
Defined.

(** * Further properties *)

(** ** The binary logarithms *)

Lemma encoder_LOG2_loop (rounds : nat) :
  forall value bits,
    0 < value < 2 ^ Z.of_nat rounds ->
    Encoder.LOG2_loop rounds value bits = bits + Z.log2 value + 1.
Proof.
  induction rounds as [|r IH]; intros value bits Hv.
  - change (2 ^ Z.of_nat 0) with 1 in Hv. lia.
  - cbn [Encoder.LOG2_loop]. destruct (value =? 0) eqn:E; zbool; [lia|].
    destruct (Z.eq_dec value 1) as [->|H1].
    + change (Z.shiftr 1 1) with 0. change (Z.log2 1) with 0.
      destruct r; cbn [Encoder.LOG2_loop Z.eqb]; lia.
    + rewrite IH.
      * rewrite Z.log2_shiftr by lia.
        assert (1 <= Z.log2 value) by (apply Z.log2_le_pow2; lia). lia.
      * rewrite Z.shiftr_div_pow2 by lia. change (2 ^ 1) with 2.
        rewrite Nat2Z.inj_succ, Z.pow_succ_r in Hv by lia.
        split; [apply Z.div_str_pos; lia|apply Z.div_lt_upper_bound; lia].
Qed.

(** The encoder's [LOG2] of a positive [unsigned] (what its [assert]
    asks for) is the position of the highest set bit. *)
Theorem encoder_LOG2_is_log2 (value : Z) :
  0 < value < 2 ^ 32 ->
  Encoder.LOG2 value = Z.log2 value.
Proof.
  intros Hv. unfold Encoder.LOG2.
  rewrite (uint32_id value) by (unfold is_unsigned; lia).
  rewrite (encoder_LOG2_loop 32) by (change (Z.of_nat 32) with 32; lia).
  replace (0 + Z.log2 value + 1 - 1) with (Z.log2 value) by lia.
  apply uint32_id. unfold is_unsigned.
  assert (Z.log2 value < 32) by (apply Z.log2_lt_pow2; lia).
  pose proof (Z.log2_nonneg value). lia.
Qed.

Lemma encoder_LOG2_is_log2_witness : Encoder.LOG2 1000 = Z.log2 1000.
Proof. apply (encoder_LOG2_is_log2 1000). vm_compute. split; reflexivity. Defined.

Lemma decoder_LOG2_loop (rounds : nat) :
  forall value bits,
    0 <= value < 2 ^ (Z.of_nat rounds - 1) ->
    Decoder.LOG2_loop rounds value bits
    = Some (if value =? 0 then bits else bits + Z.log2 value + 1).
Proof.
  induction rounds as [|r IH]; intros value bits Hv.
  - change (2 ^ (Z.of_nat 0 - 1)) with 0 in Hv. lia.
  - cbn [Decoder.LOG2_loop]. destruct (value =? 0) eqn:E; zbool; [reflexivity|].
    assert (Hr : 1 <= Z.of_nat r).
    { destruct r; [|lia]. change (2 ^ (Z.of_nat 1 - 1)) with 1 in Hv. lia. }
    rewrite IH.
    + f_equal. destruct (Z.shiftr value 1 =? 0) eqn:E1; zbool.
      * rewrite Z.shiftr_div_pow2 in E1 by lia. change (2 ^ 1) with 2 in E1.
        assert (value = 1) as -> by (pose proof (Z.div_mod value 2); pose proof (Z.mod_pos_bound value 2); lia).
        change (Z.log2 1) with 0. lia.
      * rewrite Z.log2_shiftr by lia.
        assert (1 <= Z.log2 value).
        { apply Z.log2_le_pow2; [lia|]. change (2 ^ 1) with 2.
          destruct (Z.eq_dec value 1) as [->|]; [now vm_compute in E1|lia]. }
        lia.
    + rewrite Z.shiftr_div_pow2 by lia. change (2 ^ 1) with 2.
      replace (Z.of_nat (S r) - 1) with (Z.succ (Z.of_nat r - 1)) in Hv by lia.
      rewrite Z.pow_succ_r in Hv by lia.
      split; [apply Z.div_pos; lia|apply Z.div_lt_upper_bound; lia].
Qed.

Lemma decoder_LOG2_loop_negative (rounds : nat) :
  forall value bits, value < 0 -> Decoder.LOG2_loop rounds value bits = None.
Proof.
  induction rounds as [|r IH]; intros value bits Hv; [reflexivity|].
  cbn [Decoder.LOG2_loop]. destruct (value =? 0) eqn:E; zbool; [lia|].
  apply IH. apply Z.shiftr_neg. exact Hv.
Qed.

(** The decoder's [LOG2] of an [int]: the position of the highest set bit of
    a positive value, -1 for zero, and no result for a negative value, whose
    arithmetic shifts never reach zero. *)
Theorem decoder_LOG2_cases (value : Z) (br : BitstreamReader) :
  is_int value ->
  Decoder.LOG2 value br
  = if value <? 0 then diverges
    else ok (if value =? 0 then -1 else Z.log2 value) br.
Proof.
  intros Hv. unfold Decoder.LOG2, is_int in *.
  destruct (value <? 0) eqn:E; zbool.
  - now rewrite decoder_LOG2_loop_negative.
  - rewrite decoder_LOG2_loop by (change (Z.of_nat 33 - 1) with 32; lia).
    unfold ret. destruct (value =? 0); [reflexivity|]. f_equal. lia.
Qed.

Lemma decoder_LOG2_cases_witness :
  Decoder.LOG2 (-5) (br_open [])
  = if -5 <? 0 then diverges
    else ok (if -5 =? 0 then -1 else Z.log2 (-5)) (br_open []).
Proof. apply (decoder_LOG2_cases (-5)). vm_compute. split; [discriminate|reflexivity]. Defined.

(** ** The frames of a frameset *)

Lemma firstn_succ_nth {A : Type} (l : list A) (d : A) (n : nat) :
  (n < length l)%nat -> firstn (S n) l = firstn n l ++ [nth n l d].
Proof.
  revert n. induction l as [|a l IH]; intros n Hn; cbn [length] in Hn; [lia|].
  destruct n as [|n]; [reflexivity|].
  cbn [firstn nth app]. f_equal. apply IH. lia.
Qed.

Lemma frameset_layout_default (channels : list (list Z)) :
  alen_channels channels = 0 \/ 8 < alen_channels channels ->
  Encoder.frameset_layout channels = map (fun c => [c]) channels.
Proof.
  intros Hn.
  assert (E : Encoder.frameset_layout channels
              = for_loop 0 (alen_channels channels)
                  (fun i frames => frames ++ [Encoder.extract_1ch channels i]) []).
  { unfold Encoder.frameset_layout.
    destruct (alen_channels channels) as [|p|p]; [reflexivity| |reflexivity].
    do 4 (destruct p as [p|p|]; try lia; try reflexivity). }
  rewrite E.
  assert (H : for_loop 0 (alen_channels channels)
                (fun i frames => frames ++ [Encoder.extract_1ch channels i]) []
              = map (fun c => [c]) (firstn (Z.to_nat (alen_channels channels)) channels)).
  { apply (for_loop_ind
             (fun i frames => frames = map (fun c => [c]) (firstn (Z.to_nat i) channels))).
    - unfold alen_channels. lia.
    - reflexivity.
    - intros i x Hi ->. unfold Encoder.extract_1ch, channel, alen_channels in *.
      replace (Z.to_nat (i + 1)) with (S (Z.to_nat i)) by lia.
      rewrite (firstn_succ_nth channels []) by lia.
      now rewrite map_app. }
  rewrite H. unfold alen_channels. now rewrite Nat2Z.id, firstn_all.
Qed.

Lemma concat_singletons {A : Type} (l : list A) : concat (map (fun c => [c]) l) = l.
Proof. induction l as [|a l IH]; [reflexivity|]. cbn. now rewrite IH. Qed.

Lemma frameset_layout_frames (channels : list (list Z)) :
  Permutation (concat (Encoder.frameset_layout channels)) channels
  /\ Forall (fun frame => alen_channels frame = 1 \/ alen_channels frame = 2)
            (Encoder.frameset_layout channels).
Proof.
  destruct (Z_le_gt_dec (alen_channels channels) 8) as [Hle|Hgt].
  - destruct channels as [|c0 [|c1 [|c2 [|c3 [|c4 [|c5 [|c6 [|c7 [|c8 rest]]]]]]]]].
    all: try (unfold alen_channels in Hle; cbn [length] in Hle; lia).
    all: cbv.
    all: split;
      [|repeat (apply Forall_cons; [first [now left | now right]|]); apply Forall_nil].
    + apply Permutation_refl.
    + apply Permutation_refl.
    + apply Permutation_refl.
    + (* 3 channels: 2, 0, 1 *)
      change [c2; c0; c1] with ([c2] ++ [c0; c1]).
      change [c0; c1; c2] with ([c0; c1] ++ [c2]). apply Permutation_app_comm.
    + apply (Permutation_trans (l' := [c0; c1; c2; c3])); [|apply Permutation_refl].
      change [c2; c0; c1; c3] with ([c2] ++ [c0; c1] ++ [c3]).
      change [c0; c1; c2; c3] with ([c0; c1] ++ [c2] ++ [c3]).
      apply Permutation_app_swap_app.
    + change [c2; c0; c1; c3; c4] with ([c2] ++ [c0; c1] ++ [c3; c4]).
      change [c0; c1; c2; c3; c4] with ([c0; c1] ++ [c2] ++ [c3; c4]).
      apply Permutation_app_swap_app.
    + change [c2; c0; c1; c4; c5; c3] with ([c2] ++ [c0; c1] ++ ([c4; c5] ++ [c3])).
      change [c0; c1; c2; c3; c4; c5] with ([c0; c1] ++ [c2] ++ ([c3] ++ [c4; c5])).
      etransitivity; [apply Permutation_app_swap_app|].
      do 2 apply Permutation_app_head. apply Permutation_app_comm.
    + change [c2; c0; c1; c4; c5; c6; c3]
        with ([c2] ++ [c0; c1] ++ ([c4; c5; c6] ++ [c3])).
      change [c0; c1; c2; c3; c4; c5; c6]
        with ([c0; c1] ++ [c2] ++ ([c3] ++ [c4; c5; c6])).
      etransitivity; [apply Permutation_app_swap_app|].
      do 2 apply Permutation_app_head. apply Permutation_app_comm.
    + change [c2; c6; c7; c0; c1; c4; c5; c3]
        with ([c2] ++ [c6; c7] ++ [c0; c1] ++ [c4; c5] ++ [c3]).
      change [c0; c1; c2; c3; c4; c5; c6; c7]
        with ([c0; c1] ++ [c2] ++ [c3] ++ [c4; c5] ++ [c6; c7]).
      apply (Permutation_trans (l' := [c2] ++ [c0; c1] ++ [c6; c7] ++ [c4; c5] ++ [c3])).
      { apply Permutation_app_head. apply Permutation_app_swap_app. }
      etransitivity; [apply Permutation_app_swap_app|].
      do 2 apply Permutation_app_head.
      apply (Permutation_trans (l' := ([c4; c5] ++ [c3]) ++ [c6; c7])).
      { apply Permutation_app_comm. }
      rewrite <- app_assoc.
      etransitivity; [apply Permutation_app_swap_app|]. apply Permutation_refl.
  - rewrite frameset_layout_default by lia. rewrite concat_singletons.
    split; [apply Permutation_refl|].
    apply Forall_map. apply Forall_forall. intros c _. now left.
Qed.

(** [write_frameset] writes every channel of its input once, whatever the
    number of channels, and in frames of one or two channels. *)
Theorem frameset_layout_partition (channels : list (list Z)) :
  Permutation (concat (Encoder.frameset_layout channels)) channels
  /\ Forall (fun frame => alen_channels frame = 1 \/ alen_channels frame = 2)
            (Encoder.frameset_layout channels).
Proof. apply frameset_layout_frames. Qed.

(** ** The escape code of a residual *)

Lemma read_huffman_escape (rest : list bool) (pos : Z) :
  Decoder.read_huffman_code_MSB 9 0 (mkReader (repeat true 9 ++ rest) pos)
  = ok (-1) (mkReader rest (pos + 9)).
Proof.
  cbn [repeat app Decoder.read_huffman_code_MSB].
  repeat (erewrite bind_ok by apply br_read_bit; cbn [Z.b2z Z.eqb]).
  unfold ret. f_equal. f_equal. lia.
Qed.

(** A value whose quotient by [2^k - 1] is above 8 is written as nine 1
    bits and the low [sample_size] bits of the value; [read_residual] gives
    these bits back, which is the value when it fits [sample_size] bits. *)
Theorem read_residual_escape (v k W : Z) (rest : list bool) (pos : Z) :
  0 <= v < 2 ^ 32 -> 0 <= W <= 32 ->
  8 < v / uint32 (shl32 1 k - 1) ->
  Encoder.write_residual [] v k W = repeat true 9 ++ bits_msb_first (Z.to_nat W) v
  /\ Decoder.read_residual k W (mkReader (Encoder.write_residual [] v k W ++ rest) pos)
     = ok (v mod 2 ^ W) (mkReader rest (pos + 9 + W)).
Proof.
  intros Hv HW Hmsb. unfold Encoder.write_residual.
  destruct (v / uint32 (shl32 1 k - 1) >? 8) eqn:E; zbool; [|lia].
  unfold bw_write. change (bits_msb_first (Z.to_nat 9) 511) with (repeat true 9).
  split; [reflexivity|].
  unfold Decoder.read_residual. rewrite <- app_assoc.
  erewrite bind_ok by apply read_huffman_escape.
  change (-1 =? -1) with true. cbv iota.
  rewrite br_read_written by lia. f_equal.
  apply uint32_id. unfold is_unsigned.
  pose proof (Z.mod_pos_bound v (2 ^ W) ltac:(apply Z.pow_pos_nonneg; lia)).
  assert (2 ^ W <= 2 ^ 32) by (apply Z.pow_le_mono_r; lia). lia.
Qed.

Lemma read_residual_escape_witness :
  Encoder.write_residual [] 1000 4 16 = repeat true 9 ++ bits_msb_first (Z.to_nat 16) 1000
  /\ Decoder.read_residual 4 16
       (mkReader (Encoder.write_residual [] 1000 4 16 ++ [true; false]) 3)
     = ok (1000 mod 2 ^ 16) (mkReader [true; false] (3 + 9 + 16)).
Proof.
  apply (read_residual_escape 1000 4 16 [true; false] 3).
  - vm_compute. split; [discriminate|reflexivity].
  - vm_compute. split; discriminate.
  - vm_compute. reflexivity.
Defined.

(** No code of [write_residual] is longer than nine bits and the larger of
    [k] and [sample_size]. *)
Theorem write_residual_length (bs : BitstreamWriter) (v k W : Z) :
  0 <= v -> 1 <= k -> 0 <= W ->
  alen_bits bs < alen_bits (Encoder.write_residual bs v k W)
                 <= alen_bits bs + 9 + Z.max k W.
Proof.
  intros Hv Hk HW. unfold Encoder.write_residual.
  set (D := uint32 (shl32 1 k - 1)).
  assert (0 <= v / D).
  { destruct (Z.eq_dec D 0) as [->|]; [rewrite Z.div_0_r; lia|].
    apply Z.div_pos; [lia|]. pose proof (uint32_is_unsigned (shl32 1 k - 1)).
    unfold is_unsigned in *. subst D. lia. }
  destruct (v / D >? 8) eqn:E; zbool.
  - unfold bw_write, alen_bits. rewrite !length_app, !bits_msb_first_length. lia.
  - unfold bw_write_unary, bw_write, alen_bits.
    destruct (k >? 1) eqn:Ek; zbool; [destruct (v mod D >? 0)|].
    all: rewrite ?length_app, ?bits_msb_first_length, ?repeat_length; cbn [length]; lia.
Qed.

Lemma write_residual_length_witness :
  alen_bits [true] < alen_bits (Encoder.write_residual [true] 100 4 16)
                     <= alen_bits [true] + 9 + Z.max 4 16.
Proof.
  apply (write_residual_length [true] 100 4 16); vm_compute; discriminate.
Defined.

(** ** Writers and readers *)

(** [value] fits a signed field of [count] bits. *)
Definition fits_signed (count value : Z) : Prop :=
  - 2 ^ (count - 1) <= value < 2 ^ (count - 1).

Lemma pow2_double (n : Z) : 1 <= n -> 2 ^ n = 2 * 2 ^ (n - 1).
Proof.
  intros Hn. replace n with (Z.succ (n - 1)) at 1 by lia.
  now rewrite Z.pow_succ_r by lia.
Qed.

Lemma br_read_signed_written (count x : Z) (rest : list bool) (pos : Z) :
  1 <= count <= 32 -> fits_signed count x ->
  br_read_signed count (mkReader (bits_msb_first (Z.to_nat count) x ++ rest) pos)
  = ok x (mkReader rest (pos + count)).
Proof.
  intros Hc Hx. unfold br_read_signed, fits_signed in *. cbn [unread bits_read].
  rewrite read_bits_written. rewrite Z2Nat.id by lia.
  pose proof (pow2_double count ltac:(lia)) as Hd.
  assert (0 < 2 ^ (count - 1)) by (apply Z.pow_pos_nonneg; lia).
  assert (2 ^ count <= 2 ^ 32) by (apply Z.pow_le_mono_r; lia).
  replace (0 * 2 ^ count + x mod 2 ^ count) with (x mod 2 ^ count) by lia.
  pose proof (Z.mod_pos_bound x (2 ^ count) ltac:(lia)) as Hm.
  rewrite (testbit_top (x mod 2 ^ count) (count - 1));
    [|lia|replace (count - 1 + 1) with count by lia; lia].
  replace (pos + Z.max 0 count) with (pos + count) by lia.
  destruct (Z_lt_dec x 0) as [Hneg|Hpos].
  - assert (x mod 2 ^ count = x + 2 ^ count) as ->.
    { symmetry. apply Z.mod_unique with (q := -1); lia. }
    destruct (2 ^ (count - 1) <=? x + 2 ^ count) eqn:E; zbool; [|lia].
    f_equal. replace (x + 2 ^ count - 2 ^ count) with x by lia.
    apply int32_id. unfold is_int. change 32 with (31 + 1) in *.
    assert (2 ^ (count - 1) <= 2 ^ 31) by (apply Z.pow_le_mono_r; lia). lia.
  - rewrite Z.mod_small by lia.
    destruct (2 ^ (count - 1) <=? x) eqn:E; zbool; [lia|].
    f_equal. apply int32_id. unfold is_int.
    assert (2 ^ (count - 1) <= 2 ^ 31) by (apply Z.pow_le_mono_r; lia). lia.
Qed.

Lemma for_loop_app {A : Type} (g : Z -> list A) (lo hi : Z) (bs : list A) :
  for_loop lo hi (fun i bs => bs ++ g i) bs
  = bs ++ for_loop lo hi (fun i bs => bs ++ g i) [].
Proof.
  unfold for_loop. generalize (seq 0 (Z.to_nat (hi - lo))) as l.
  intros l. revert bs. induction l as [|n l IH] using rev_ind; intros bs.
  - cbn. now rewrite app_nil_r.
  - rewrite !fold_left_app. cbn [fold_left]. rewrite IH. cbn [app].
    now rewrite app_assoc.
Qed.

Lemma for_loop_rd_empty {T : Type} (lo hi : Z) (body : Z -> T -> reading T) (s : T) :
  hi <= lo -> Decoder.for_loop_rd lo hi body s = ret s.
Proof.
  intros H. unfold Decoder.for_loop_rd.
  replace (Z.to_nat (hi - lo)) with 0%nat by lia. reflexivity.
Qed.

(** ** The subframe header *)

Lemma read_coefficients_written (qlp : list Z) (n : nat) :
  forall (rest : list bool) (pos : Z),
    Forall (fits_signed 16) qlp ->
    (n <= length qlp)%nat ->
    Decoder.for_loop_rd 0 (Z.of_nat n)
      (fun i coeff => c <- br_read_signed 16 ;; ret (coeff ++ [c])) []
      (mkReader (for_loop 0 (Z.of_nat n) (fun i bs => bw_write_signed bs 16 qlp.[i]) []
                 ++ rest) pos)
    = ok (firstn n qlp) (mkReader rest (pos + 16 * Z.of_nat n)).
Proof.
  induction n as [|n IH]; intros rest pos Hq Hn.
  - cbn. unfold ret. f_equal. f_equal. lia.
  - rewrite Nat2Z.inj_succ. unfold Z.succ.
    rewrite for_loop_rd_last, for_loop_last by lia.
    unfold bw_write_signed at 1. rewrite <- app_assoc.
    erewrite bind_ok by (apply IH; [exact Hq|lia]).
    assert (Hfit : fits_signed 16 qlp.[Z.of_nat n]).
    { assert (In qlp.[Z.of_nat n] qlp) as Hin
          by (apply get_in_range; unfold alen; lia).
      exact (proj1 (Forall_forall _ _) Hq _ Hin). }
    erewrite bind_ok by (apply (br_read_signed_written 16); [lia|exact Hfit]).
    unfold ret. f_equal.
    + rewrite (firstn_succ_nth qlp 0) by lia. f_equal. f_equal.
      unfold get. destruct (Z.of_nat n <? 0) eqn:E; zbool; [lia|].
      now rewrite Nat2Z.id.
    + f_equal. lia.
Qed.

(** [read_subframe_header] reads back the header [write_subframe_header]
    wrote: prediction type 0, shift 9, Rice modifier 4 and the [order]
    coefficients, each of which fits 16 bits. *)
Theorem read_subframe_header_written (order : Z) (qlp : list Z)
        (rest : list bool) (pos : Z) :
  0 <= order < 32 -> alen qlp = order -> Forall (fits_signed 16) qlp ->
  Decoder.read_subframe_header
    (mkReader (Encoder.write_subframe_header [] order qlp ++ rest) pos)
  = ok {| Decoder.prediction_type := 0;
          Decoder.shift_needed := 9;
          Decoder.rice_modifier := 4;
          Decoder.coeff_count := order;
          Decoder.coeff := qlp |}
       (mkReader rest (pos + 16 + 16 * order)).
Proof.
  intros Ho Hlen Hq. unfold Encoder.write_subframe_header, Decoder.read_subframe_header.
  cbv zeta. unfold bw_write.
  change (fun (i : Z) (bs : BitstreamWriter) => bw_write_signed bs 16 qlp.[i])
    with (fun (i : Z) (bs : list bool) => bs ++ bits_msb_first (Z.to_nat 16) qlp.[i]).
  rewrite (for_loop_app (fun i => bits_msb_first (Z.to_nat 16) qlp.[i])).
  cbn [app]. rewrite <- !app_assoc.
  erewrite bind_ok by (apply (br_read_written 4 0); lia).
  change (uint32 (0 mod 2 ^ 4)) with 0. change (negb (0 =? 0)) with false. cbv iota.
  erewrite bind_ok by (apply (br_read_written 4 9); lia).
  erewrite bind_ok by (apply (br_read_written 3 4); lia).
  erewrite bind_ok by (apply (br_read_written 5 order); lia).
  assert (uint32 (order mod 2 ^ 5) = order) as ->.
  { change (2 ^ 5) with 32. rewrite Z.mod_small by lia.
    apply uint32_id. unfold is_unsigned. lia. }
  pose proof (read_coefficients_written qlp (Z.to_nat order) rest (pos + 4 + 4 + 3 + 5) Hq)
    as Hc.
  rewrite Z2Nat.id in Hc by lia.
  erewrite bind_ok by (apply Hc; unfold alen in Hlen; lia).
  unfold ret. f_equal.
  - f_equal. unfold alen in Hlen. rewrite <- Hlen, Nat2Z.id. apply firstn_all.
  - f_equal. lia.
Qed.

Lemma read_subframe_header_written_witness :
  Decoder.read_subframe_header
    (mkReader (Encoder.write_subframe_header [] 4 [316; 0; -32768; 32767] ++ [true]) 24)
  = ok {| Decoder.prediction_type := 0;
          Decoder.shift_needed := 9;
          Decoder.rice_modifier := 4;
          Decoder.coeff_count := 4;
          Decoder.coeff := [316; 0; -32768; 32767] |}
       (mkReader [true] (24 + 16 + 16 * 4)).
Proof.
  apply (read_subframe_header_written 4 [316; 0; -32768; 32767] [true] 24).
  - vm_compute. split; [discriminate|reflexivity].
  - reflexivity.
  - repeat constructor; vm_compute; discriminate.
Defined.

(** A subframe header whose first four bits are not zero is refused, whatever
    follows. *)
Theorem read_subframe_header_prediction_type (b3 b2 b1 b0 : bool)
        (rest : list bool) (pos : Z) :
  (b3 || b2 || b1 || b0) = true ->
  Decoder.read_subframe_header (mkReader (b3 :: b2 :: b1 :: b0 :: rest) pos)
  = failed INVALID_PREDICTION_TYPE.
Proof.
  intros H. destruct b3, b2, b1, b0; try discriminate H; reflexivity.
Qed.

Lemma read_subframe_header_prediction_type_witness :
  Decoder.read_subframe_header (mkReader (false :: false :: true :: false :: []) 0)
  = failed INVALID_PREDICTION_TYPE.
Proof.
  apply (read_subframe_header_prediction_type false false true false [] 0). reflexivity.
Defined.

(** ** Uncompressed frames *)

Lemma for_loop_ext {T : Type} (lo hi : Z) (f g : Z -> T -> T) (s : T) :
  (forall i x, lo <= i < hi -> f i x = g i x) ->
  for_loop lo hi f s = for_loop lo hi g s.
Proof.
  intros H. unfold for_loop.
  assert (Hin : forall n, In n (seq 0 (Z.to_nat (hi - lo))) -> lo <= lo + Z.of_nat n < hi).
  { intros n Hn. apply in_seq in Hn. lia. }
  revert s Hin. generalize (seq 0 (Z.to_nat (hi - lo))) as l.
  induction l as [|n l IH]; intros s Hin; [reflexivity|].
  cbn [fold_left]. rewrite H by (apply Hin; now left).
  apply IH. intros m Hm. apply Hin. now right.
Qed.

Lemma br_skip_written (count x : Z) (rest : list bool) (pos : Z) :
  0 <= count ->
  br_skip count (mkReader (bits_msb_first (Z.to_nat count) x ++ rest) pos)
  = ok tt (mkReader rest (pos + count)).
Proof.
  intros Hc. unfold br_skip. cbn [unread bits_read].
  rewrite read_bits_written. now rewrite Z.max_r by lia.
Qed.

(** The bits of the samples of a frame, in the order
    [write_uncompressed_frame] writes them. *)
Lemma uncompressed_samples_mono (bps : Z) (c0 : list Z) (bs : BitstreamWriter) (n : Z) :
  for_loop 0 n
    (fun i bs =>
       for_loop 0 (alen_channels [c0])
         (fun c bs => bw_write_signed bs bps (channel [c0] c).[i]) bs) bs
  = bs ++ for_loop 0 n (fun i bs => bs ++ bits_msb_first (Z.to_nat bps) c0.[i]) [].
Proof.
  rewrite <- for_loop_app. apply for_loop_ext. intros i x _. reflexivity.
Qed.

Lemma uncompressed_samples_stereo (bps : Z) (c0 c1 : list Z) (bs : BitstreamWriter) (n : Z) :
  for_loop 0 n
    (fun i bs =>
       for_loop 0 (alen_channels [c0; c1])
         (fun c bs => bw_write_signed bs bps (channel [c0; c1] c).[i]) bs) bs
  = bs ++ for_loop 0 n
            (fun i bs => bs ++ (bits_msb_first (Z.to_nat bps) c0.[i]
                                ++ bits_msb_first (Z.to_nat bps) c1.[i])) [].
Proof.
  rewrite <- for_loop_app. apply for_loop_ext. intros i x _.
  cbv [for_loop alen_channels length Z.of_nat Pos.of_succ_nat Pos.succ Z.sub Z.opp
       Z.add Z.to_nat Pos.to_nat Pos.iter_op Nat.add seq fold_left Z.pos_sub].
  unfold bw_write_signed. cbn [channel Z.to_nat nth Z.add Pos.to_nat Pos.iter_op Nat.add].
  now rewrite app_assoc.
Qed.

Lemma get_nat (l : list Z) (n : nat) : l.[Z.of_nat n] = nth n l 0.
Proof.
  unfold get. destruct (Z.of_nat n <? 0) eqn:E; zbool; [lia|]. now rewrite Nat2Z.id.
Qed.

Lemma Forall_get (P : Z -> Prop) (l : list Z) (i : Z) :
  Forall P l -> 0 <= i < alen l -> P l.[i].
Proof.
  intros H Hi. exact (proj1 (Forall_forall _ _) H _ (get_in_range l i Hi)).
Qed.

Lemma read_samples_mono (bps : Z) (c0 : list Z) (n : nat) :
  forall (rest : list bool) (pos : Z),
    1 <= bps <= 32 -> Forall (fits_signed bps) c0 -> (n <= length c0)%nat ->
    Decoder.for_loop_rd 0 (Z.of_nat n)
      (fun i '(channel_0, channel_1) =>
         s0 <- br_read_signed bps ;; ret (channel_0 ++ [s0], channel_1))
      (@nil Z, @nil Z)
      (mkReader (for_loop 0 (Z.of_nat n)
                   (fun i bs => bs ++ bits_msb_first (Z.to_nat bps) c0.[i]) [] ++ rest) pos)
    = ok (firstn n c0, @nil Z) (mkReader rest (pos + bps * Z.of_nat n)).
Proof.
  induction n as [|n IH]; intros rest pos Hb H0 Hn.
  - cbn. unfold ret. f_equal. f_equal. lia.
  - rewrite Nat2Z.inj_succ. unfold Z.succ.
    rewrite for_loop_rd_last, for_loop_last by lia. rewrite <- app_assoc.
    erewrite bind_ok by (apply IH; [exact Hb|exact H0|lia]).
    cbv beta iota.
    erewrite bind_ok by
      (apply (br_read_signed_written bps); [lia|apply Forall_get; [exact H0|unfold alen; lia]]).
    unfold ret. f_equal.
    + rewrite (firstn_succ_nth c0 0) by lia. now rewrite get_nat.
    + f_equal. lia.
Qed.

Lemma read_samples_stereo (bps : Z) (c0 c1 : list Z) (n : nat) :
  forall (rest : list bool) (pos : Z),
    1 <= bps <= 32 -> Forall (fits_signed bps) c0 -> Forall (fits_signed bps) c1 ->
    (n <= length c0)%nat -> (n <= length c1)%nat ->
    Decoder.for_loop_rd 0 (Z.of_nat n)
      (fun i '(channel_0, channel_1) =>
         s0 <- br_read_signed bps ;;
         s1 <- br_read_signed bps ;;
         ret (channel_0 ++ [s0], channel_1 ++ [s1]))
      ([], [])
      (mkReader (for_loop 0 (Z.of_nat n)
                   (fun i bs => bs ++ (bits_msb_first (Z.to_nat bps) c0.[i]
                                       ++ bits_msb_first (Z.to_nat bps) c1.[i])) []
                 ++ rest) pos)
    = ok (firstn n c0, firstn n c1) (mkReader rest (pos + 2 * bps * Z.of_nat n)).
Proof.
  induction n as [|n IH]; intros rest pos Hb H0 H1 Hn0 Hn1.
  - cbn. unfold ret. f_equal. f_equal. lia.
  - rewrite Nat2Z.inj_succ. unfold Z.succ.
    rewrite for_loop_rd_last, for_loop_last by lia. rewrite <- !app_assoc.
    erewrite bind_ok by (apply IH; [exact Hb|exact H0|exact H1|lia|lia]).
    cbv beta iota.
    erewrite bind_ok by
      (apply (br_read_signed_written bps); [lia|apply Forall_get; [exact H0|unfold alen; lia]]).
    erewrite bind_ok by
      (apply (br_read_signed_written bps); [lia|apply Forall_get; [exact H1|unfold alen; lia]]).
    unfold ret. f_equal.
    + rewrite (firstn_succ_nth c0 0), (firstn_succ_nth c1 0) by lia.
      now rewrite !get_nat.
    + f_equal. lia.
Qed.

(** One or two channels of the same length, of samples that fit [bps] bits. *)
Definition frame_fits (bps : Z) (channels : list (list Z)) : Prop :=
  (exists c0, channels = [c0] /\ Forall (fits_signed bps) c0)
  \/ (exists c0 c1, channels = [c0; c1] /\ length c0 = length c1
                    /\ Forall (fits_signed bps) c0 /\ Forall (fits_signed bps) c1).

Lemma frame_samples_written (bps : Z) (channels : list (list Z)) :
  1 <= bps <= 32 -> frame_fits bps channels ->
  exists samples,
    (forall bs,
        for_loop 0 (alen (channel channels 0))
          (fun i bs =>
             for_loop 0 (alen_channels channels)
               (fun c bs => bw_write_signed bs bps (channel channels c).[i]) bs) bs
        = bs ++ samples)
    /\ forall rest pos,
        Decoder.decode_uncompressed_frame bps (alen (channel channels 0))
          (alen_channels channels) (mkReader (samples ++ rest) pos)
        = ok (channel channels 0, channel channels 1)
             (mkReader rest (pos + alen_bits samples)).
Proof.
  intros Hb [(c0 & -> & H0)|(c0 & c1 & -> & Hlen & H0 & H1)].
  - change (channel [c0] 0) with c0. change (channel [c0] 1) with (@nil Z).
    eexists. split; [intros bs; apply uncompressed_samples_mono|].
    intros rest pos. unfold Decoder.decode_uncompressed_frame.
    change (alen_channels [c0] =? 2) with false. cbv iota.
    unfold alen.
    rewrite (read_samples_mono bps c0 (length c0) rest pos Hb H0 (le_n _)).
    rewrite firstn_all. f_equal. f_equal.
    assert (forall n : nat,
               alen_bits (for_loop 0 (Z.of_nat n)
                            (fun i bs => bs ++ bits_msb_first (Z.to_nat bps) c0.[i]) [])
               = bps * Z.of_nat n) as Hl.
    { induction n as [|n IH]; [cbn; lia|].
      rewrite Nat2Z.inj_succ. unfold Z.succ. rewrite for_loop_last by lia.
      unfold alen_bits in *. rewrite length_app, bits_msb_first_length. lia. }
    now rewrite Hl.
  - change (channel [c0; c1] 0) with c0. change (channel [c0; c1] 1) with c1.
    eexists. split; [intros bs; apply uncompressed_samples_stereo|].
    intros rest pos. unfold Decoder.decode_uncompressed_frame.
    change (alen_channels [c0; c1] =? 2) with true. cbv iota.
    unfold alen.
    rewrite (read_samples_stereo bps c0 c1 (length c0) rest pos Hb H0 H1 (le_n _))
      by (rewrite Hlen; apply le_n).
    rewrite firstn_all. rewrite Hlen at 1. rewrite firstn_all. f_equal. f_equal.
    assert (forall n : nat,
               alen_bits (for_loop 0 (Z.of_nat n)
                            (fun i bs => bs ++ (bits_msb_first (Z.to_nat bps) c0.[i]
                                                ++ bits_msb_first (Z.to_nat bps) c1.[i])) [])
               = 2 * bps * Z.of_nat n) as Hl.
    { induction n as [|n IH]; [cbn; lia|].
      rewrite Nat2Z.inj_succ. unfold Z.succ. rewrite for_loop_last by lia.
      unfold alen_bits in *. rewrite !length_app, !bits_msb_first_length. lia. }
    now rewrite Hl.
Qed.

Lemma decode_frame_written (encoder : Encoder.alac_context)
      (params : Decoder.alac_parameters) (channels : list (list Z))
      (rest : list bool) (pos : Z) :
  1 <= Encoder.bits_per_sample encoder <= 32 ->
  frame_fits (Encoder.bits_per_sample encoder) channels ->
  Decoder.block_size params = Encoder.block_size (Encoder.options encoder) ->
  alen (channel channels 0) <= Decoder.block_size params < 2 ^ 32 ->
  Decoder.decode_frame params (Encoder.bits_per_sample encoder) (alen_channels channels)
    (mkReader (Encoder.write_uncompressed_frame [] encoder channels ++ rest) pos)
  = ok (alen (channel channels 0), (channel channels 0, channel channels 1))
       (mkReader rest (pos + alen_bits (Encoder.write_uncompressed_frame [] encoder channels))).
Proof.
  set (bps := Encoder.bits_per_sample encoder).
  intros Hb Hfit Hbs Hn.
  unfold Encoder.write_uncompressed_frame, Encoder.write_frame_header. cbv zeta.
  fold bps. set (n := alen (channel channels 0)) in *.
  assert (0 <= n) by (subst n; unfold alen; lia).
  destruct (frame_samples_written bps channels Hb Hfit) as (samples & Hw & Hread).
  fold n in Hw, Hread. rewrite Hw. unfold Decoder.decode_frame.
  destruct (n =? Encoder.block_size (Encoder.options encoder)) eqn:E; zbool;
    cbn [negb]; unfold bw_write; cbn [app]; rewrite <- !app_assoc.
  - erewrite bind_ok by (apply (br_skip_written 16 0); lia).
    erewrite bind_ok by (apply (br_read_written 1 0); lia).
    erewrite bind_ok by (apply (br_read_written 2 0); lia).
    erewrite bind_ok by (apply (br_read_written 1 1); lia).
    change (uint32 (0 mod 2 ^ 1) =? 0) with true. cbv iota.
    change (uint32 (1 mod 2 ^ 1) =? 0) with false. cbv iota.
    unfold ret at 1. cbn [bind]. rewrite Hbs, <- E.
    replace (pos + 16 + 1 + 2 + 1) with (pos + 20) by lia.
    erewrite bind_ok by apply Hread. unfold ret. f_equal. f_equal.
    unfold alen_bits. rewrite !length_app, !bits_msb_first_length. lia.
  - erewrite bind_ok by (apply (br_skip_written 16 0); lia).
    erewrite bind_ok by (apply (br_read_written 1 1); lia).
    erewrite bind_ok by (apply (br_read_written 2 0); lia).
    erewrite bind_ok by (apply (br_read_written 1 1); lia).
    change (uint32 (1 mod 2 ^ 1) =? 0) with false. cbv iota.
    assert (Hsize : forall tail,
               (n <- br_read 32 ;;
                if n >? Decoder.block_size params
                then Decoder.fail INVALID_BLOCK_SIZE else ret n)
                 (mkReader (bits_msb_first (Z.to_nat 32) n ++ tail) (pos + 16 + 1 + 2 + 1))
               = ok n (mkReader tail (pos + 16 + 1 + 2 + 1 + 32))).
    { intros tail. erewrite bind_ok by (apply (br_read_written 32 n); lia).
      assert (uint32 (n mod 2 ^ 32) = n) as ->.
      { rewrite Z.mod_small by lia. apply uint32_id. unfold is_unsigned. lia. }
      destruct (n >? Decoder.block_size params) eqn:En; zbool; [lia|]. reflexivity. }
    erewrite bind_ok by apply Hsize.
    replace (pos + 16 + 1 + 2 + 1 + 32) with (pos + 52) by lia.
    erewrite bind_ok by apply Hread. unfold ret. f_equal. f_equal.
    unfold alen_bits. rewrite !length_app, !bits_msb_first_length. lia.
Qed.

(** [decode_frame] reads back the channels of a frame written by
    [write_uncompressed_frame], when the frame is not longer than the
    block size both sides were given and the samples fit their width. *)
Theorem decode_frame_uncompressed (encoder : Encoder.alac_context)
        (params : Decoder.alac_parameters) (channels : list (list Z))
        (rest : list bool) (pos : Z) :
  let bps := Encoder.bits_per_sample encoder in
  let frame := Encoder.write_uncompressed_frame [] encoder channels in
  1 <= bps <= 32 -> frame_fits bps channels ->
  Decoder.block_size params = Encoder.block_size (Encoder.options encoder) ->
  alen (channel channels 0) <= Decoder.block_size params < 2 ^ 32 ->
  Decoder.decode_frame params bps (alen_channels channels)
    (mkReader (frame ++ rest) pos)
  = ok (alen (channel channels 0), (channel channels 0, channel channels 1))
       (mkReader rest (pos + alen_bits frame)).
Proof. intros bps frame. apply decode_frame_written. Qed.

Lemma decode_frame_uncompressed_witness :
  Decoder.decode_frame default_parameters 16 (alen_channels [[1; -2; 3]; [-4; 5; -6]])
    (mkReader (Encoder.write_uncompressed_frame [] (encoder16 []) [[1; -2; 3]; [-4; 5; -6]]
               ++ [true; true; true]) 3)
  = ok (alen (channel [[1; -2; 3]; [-4; 5; -6]] 0),
        (channel [[1; -2; 3]; [-4; 5; -6]] 0, channel [[1; -2; 3]; [-4; 5; -6]] 1))
       (mkReader [true; true; true]
          (3 + alen_bits (Encoder.write_uncompressed_frame [] (encoder16 [])
                            [[1; -2; 3]; [-4; 5; -6]]))).
Proof.
  apply (decode_frame_uncompressed (encoder16 []) default_parameters
           [[1; -2; 3]; [-4; 5; -6]] [true; true; true] 3).
  - vm_compute. split; discriminate.
  - right. exists [1; -2; 3], [-4; 5; -6].
    split; [reflexivity|]. split; [reflexivity|].
    split; repeat constructor; vm_compute; discriminate.
  - reflexivity.
  - vm_compute. split; [discriminate|reflexivity].
Defined.

(** ** Framesets of uncompressed frames *)

Lemma write_frame_header_app (bs : BitstreamWriter) (encoder : Encoder.alac_context)
      (len uncompressed_LSBs not_compressed : Z) :
  Encoder.write_frame_header bs encoder len uncompressed_LSBs not_compressed
  = bs ++ Encoder.write_frame_header [] encoder len uncompressed_LSBs not_compressed.
Proof.
  unfold Encoder.write_frame_header. cbv zeta. unfold bw_write.
  destruct (len =? Encoder.block_size (Encoder.options encoder)); cbn [negb app];
    now rewrite <- ?app_assoc.
Qed.

Lemma write_uncompressed_frame_app (bs : BitstreamWriter) (encoder : Encoder.alac_context)
      (channels : list (list Z)) :
  Encoder.write_uncompressed_frame bs encoder channels
  = bs ++ Encoder.write_uncompressed_frame [] encoder channels.
Proof.
  unfold Encoder.write_uncompressed_frame. cbv zeta.
  rewrite write_frame_header_app.
  generalize (Encoder.write_frame_header [] encoder (alen (channel channels 0)) 0 1) as h.
  intros h.
  set (G := fun i : Z =>
              for_loop 0 (alen_channels channels)
                (fun c bs =>
                   bw_write_signed bs (Encoder.bits_per_sample encoder)
                                   (channel channels c).[i]) []).
  assert (Hbody : forall start,
             for_loop 0 (alen (channel channels 0))
               (fun i bs =>
                  for_loop 0 (alen_channels channels)
                    (fun c bs =>
                       bw_write_signed bs (Encoder.bits_per_sample encoder)
                                       (channel channels c).[i]) bs) start
             = for_loop 0 (alen (channel channels 0)) (fun i bs => bs ++ G i) start).
  { intros start. apply for_loop_ext. intros i x _. subst G. cbv beta.
    apply (for_loop_app
             (fun c => bits_msb_first (Z.to_nat (Encoder.bits_per_sample encoder))
                                      (channel channels c).[i])). }
  rewrite !Hbody. rewrite for_loop_app. rewrite (for_loop_app _ _ _ h).
  now rewrite app_assoc.
Qed.

Lemma frame_fits_channels (bps : Z) (channels : list (list Z)) :
  frame_fits bps channels ->
  (alen_channels channels = 1 \/ alen_channels channels = 2)
  /\ Encoder.frameset_layout channels = [channels]
  /\ [firstn (Z.to_nat (alen (channel channels 0))) (channel channels 0)]
       ++ (if alen_channels channels =? 2
           then [firstn (Z.to_nat (alen (channel channels 0))) (channel channels 1)]
           else [])
     = channels.
Proof.
  intros [(c0 & -> & H0)|(c0 & c1 & -> & Hlen & H0 & H1)].
  - split; [now left|]. split; [reflexivity|].
    change (channel [c0] 0) with c0. unfold alen. rewrite Nat2Z.id, firstn_all.
    reflexivity.
  - split; [now right|]. split; [reflexivity|].
    change (channel [c0; c1] 0) with c0. change (channel [c0; c1] 1) with c1.
    unfold alen. rewrite Nat2Z.id, firstn_all. rewrite Hlen, firstn_all. reflexivity.
Qed.

Lemma br_byte_align_written (rest : list bool) (pos len : Z) :
  pos mod 8 = 0 -> 0 <= len ->
  br_byte_align (mkReader (repeat false (Z.to_nat ((- len) mod 8)) ++ rest) (pos + len))
  = ok tt (mkReader rest (pos + len + (- len) mod 8)).
Proof.
  intros Hpos Hlen. unfold br_byte_align. cbn [unread bits_read].
  assert ((- (pos + len)) mod 8 = (- len) mod 8) as ->.
  { replace (- (pos + len)) with (- len + (- (pos / 8)) * 8)
      by (pose proof (Z.div_mod pos 8); lia).
    apply Z.mod_add. lia. }
  f_equal. f_equal.
  rewrite skipn_app, repeat_length, Nat.sub_diag. cbn [skipn].
  rewrite skipn_all2 by (rewrite repeat_length; lia). reflexivity.
Qed.

Lemma decode_frameset_written (encoder : Encoder.alac_context)
      (self : Decoder.decoders_ALACDecoder) (channels : list (list Z))
      (rest : list bool) (pos : Z) :
  1 <= Encoder.bits_per_sample encoder <= 32 ->
  frame_fits (Encoder.bits_per_sample encoder) channels ->
  Encoder.write_frame [] encoder channels
  = bw_write [] 3 (alen_channels channels - 1)
    ++ Encoder.write_uncompressed_frame [] encoder channels ->
  Decoder.bits_per_sample self = Encoder.bits_per_sample encoder ->
  Decoder.channels self = alen_channels channels ->
  Decoder.block_size (Decoder.params self) = Encoder.block_size (Encoder.options encoder) ->
  alen (channel channels 0) <= Decoder.block_size (Decoder.params self) < 2 ^ 32 ->
  pos mod 8 = 0 ->
  Decoder.decode_frameset self
    (mkReader (Encoder.write_frameset [] encoder channels ++ rest) pos)
  = ok (alen (channel channels 0),
        Decoder.interleave (alen_channels channels) (alen (channel channels 0)) channels)
       (mkReader rest (pos + alen_bits (Encoder.write_frameset [] encoder channels))).
Proof.
  intros Hb Hfit Hframe Hbps Hch Hbs Hn Hpos.
  destruct (frame_fits_channels _ _ Hfit) as (Hcount & Hlayout & Hsamples).
  unfold Encoder.write_frameset. rewrite Hlayout. cbn [fold_left]. rewrite Hframe.
  set (U := Encoder.write_uncompressed_frame [] encoder channels).
  set (n := alen (channel channels 0)) in *.
  set (C := alen_channels channels) in *.
  unfold bw_byte_align, bw_write. cbn [app]. rewrite <- !app_assoc.
  unfold Decoder.decode_frameset.
  erewrite bind_ok by (apply (br_read_written 3 (C - 1)); lia).
  assert (uint32 ((C - 1) mod 2 ^ 3) + 1 = C) as HC.
  { destruct Hcount as [-> | ->]; reflexivity. }
  rewrite HC.
  replace (Z.to_nat (Decoder.channels self) + 1)%nat
    with (S (Z.to_nat (Decoder.channels self))) by lia.
  assert (Hframes :
            Decoder.decode_frames (S (Z.to_nat (Decoder.channels self))) self
              {| Decoder.fs_c := 0;
                 Decoder.fs_block_size := Decoder.block_size (Decoder.params self);
                 Decoder.fs_channels := C;
                 Decoder.fs_samples := [] |}
              (mkReader (U ++ bits_msb_first (Z.to_nat 3) 7
                           ++ repeat false
                                (Z.to_nat ((- Z.of_nat
                                     (length (bits_msb_first (Z.to_nat 3) (C - 1) ++ U
                                              ++ bits_msb_first (Z.to_nat 3) 7))) mod 8))
                           ++ rest) (pos + 3))
            = ok {| Decoder.fs_c := C;
                    Decoder.fs_block_size := n;
                    Decoder.fs_channels := 8;
                    Decoder.fs_samples := channels |}
                 (mkReader (repeat false
                              (Z.to_nat ((- Z.of_nat
                                   (length (bits_msb_first (Z.to_nat 3) (C - 1) ++ U
                                            ++ bits_msb_first (Z.to_nat 3) 7))) mod 8))
                            ++ rest) (pos + 3 + alen_bits U + 3))).
  { cbn [Decoder.decode_frames Decoder.fs_channels Decoder.fs_c Decoder.fs_block_size
         Decoder.fs_samples].
    assert (negb (C =? 8) = true) as -> by (destruct Hcount as [-> | ->]; reflexivity).
    assert (negb (C =? 1) && negb (C =? 2) = false) as ->
        by (destruct Hcount as [-> | ->]; reflexivity).
    rewrite Hch. fold C.
    destruct (0 + C >? C) eqn:E; zbool; [lia|].
    rewrite Hbps.
    erewrite bind_ok by
      (apply (decode_frame_written encoder (Decoder.params self) channels);
       [exact Hb|exact Hfit|exact Hbs|exact Hn]).
    cbv beta iota. fold n U. change (negb (0 =? 0)) with false. cbn [andb].
    change (0 =? 0) with true. cbv iota.
    erewrite bind_ok by (apply (br_read_written 3 7); lia).
    change (uint32 (7 mod 2 ^ 3) + 1) with 8.
    cbn [app] in Hsamples. cbn [app]. 
    assert (([firstn (Z.to_nat n) (channel channels 0)]
             ++ (if C =? 2 then [firstn (Z.to_nat n) (channel channels 1)] else []))
            = (if C =? 2
               then [firstn (Z.to_nat n) (channel channels 0)]
                    ++ [firstn (Z.to_nat n) (channel channels 1)]
               else [firstn (Z.to_nat n) (channel channels 0)])) as Hs.
    { destruct (C =? 2); [reflexivity|apply app_nil_r]. }
    cbn [app] in Hs. rewrite <- Hs.
    change ([firstn (Z.to_nat n) (channel channels 0)]
            ++ (if C =? 2 then [firstn (Z.to_nat n) (channel channels 1)] else []))
      with (firstn (Z.to_nat n) (channel channels 0)
            :: (if C =? 2 then [firstn (Z.to_nat n) (channel channels 1)] else [])).
    rewrite Hsamples. replace (0 + C) with C by lia.
    destruct (Z.to_nat C); reflexivity. }
  erewrite bind_ok by exact Hframes.
  cbn [Decoder.fs_block_size Decoder.fs_samples].
  assert (Hlen : Z.of_nat (length (bits_msb_first (Z.to_nat 3) (C - 1) ++ U
                                   ++ bits_msb_first (Z.to_nat 3) 7))
                 = 3 + alen_bits U + 3).
  { unfold alen_bits. rewrite !length_app, !bits_msb_first_length. lia. }
  rewrite Hlen.
  replace (pos + 3 + alen_bits U + 3) with (pos + (3 + alen_bits U + 3)) by lia.
  erewrite bind_ok by (apply br_byte_align_written; [exact Hpos|unfold alen_bits; lia]).
  unfold ret. rewrite Hch. fold C. f_equal. f_equal.
  unfold alen_bits in *. rewrite !length_app, !bits_msb_first_length, repeat_length.
  pose proof (Z.mod_pos_bound (- (3 + Z.of_nat (length U) + 3)) 8 ltac:(lia)).
  lia.
Qed.

Lemma write_frame_uncompressed (encoder : Encoder.alac_context) (channels : list (list Z)) :
  alen (channel channels 0) < 10
  \/ Encoder.write_compressed_frame [] encoder channels = Encoder.residual_overflow ->
  Encoder.write_frame [] encoder channels
  = bw_write [] 3 (alen_channels channels - 1)
    ++ Encoder.write_uncompressed_frame [] encoder channels.
Proof.
  intros H. unfold Encoder.write_frame. cbv zeta.
  rewrite write_uncompressed_frame_app.
  destruct (alen (channel channels 0) >=? 10) eqn:E; zbool; [|reflexivity].
  destruct H as [H|H]; [lia|].
  change (recorder_reset []) with (@nil bool). now rewrite H.
Qed.

(** A frameset of one or two channels whose frame is written uncompressed,
    because it is shorter than ten samples or because the compressed
    attempt overflowed, is decoded to the samples that were written:
    [decode_frameset] returns their number and the channels interleaved,
    and stops at the end of the frameset. *)
Theorem decode_frameset_uncompressed (encoder : Encoder.alac_context)
        (self : Decoder.decoders_ALACDecoder) (channels : list (list Z))
        (rest : list bool) (pos : Z) :
  let bps := Encoder.bits_per_sample encoder in
  let n := alen (channel channels 0) in
  let frameset := Encoder.write_frameset [] encoder channels in
  1 <= bps <= 32 -> frame_fits bps channels ->
  (n < 10
   \/ Encoder.write_compressed_frame [] encoder channels = Encoder.residual_overflow) ->
  Decoder.bits_per_sample self = bps ->
  Decoder.channels self = alen_channels channels ->
  Decoder.block_size (Decoder.params self) = Encoder.block_size (Encoder.options encoder) ->
  n <= Decoder.block_size (Decoder.params self) < 2 ^ 32 ->
  pos mod 8 = 0 ->
  Decoder.decode_frameset self (mkReader (frameset ++ rest) pos)
  = ok (n, Decoder.interleave (alen_channels channels) n channels)
       (mkReader rest (pos + alen_bits frameset)).
Proof.
  intros bps n frameset Hb Hfit Hunc. apply decode_frameset_written; try assumption.
  now apply write_frame_uncompressed.
Qed.

Lemma decode_frameset_uncompressed_witness :
  Decoder.decode_frameset (decoder10 2 16)
    (mkReader (Encoder.write_frameset [] encoder10 [[1; -2; 3]; [-4; 5; -6]] ++ [true]) 64)
  = ok (alen (channel [[1; -2; 3]; [-4; 5; -6]] 0),
        Decoder.interleave (alen_channels [[1; -2; 3]; [-4; 5; -6]])
          (alen (channel [[1; -2; 3]; [-4; 5; -6]] 0)) [[1; -2; 3]; [-4; 5; -6]])
       (mkReader [true]
          (64 + alen_bits (Encoder.write_frameset [] encoder10 [[1; -2; 3]; [-4; 5; -6]]))).
Proof.
  apply (decode_frameset_uncompressed encoder10 (decoder10 2 16)
           [[1; -2; 3]; [-4; 5; -6]] [true] 64).
  - vm_compute. split; discriminate.
  - right. exists [1; -2; 3], [-4; 5; -6].
    split; [reflexivity|]. split; [reflexivity|].
    split; repeat constructor; vm_compute; discriminate.
  - left. vm_compute. reflexivity.
  - reflexivity.
  - reflexivity.
  - reflexivity.
  - vm_compute. split; [discriminate|reflexivity].
  - reflexivity.
Defined.

(** ** Quantized coefficients *)

Lemma MIN_MAX_clamped (x lo hi : Z) : lo <= hi -> lo <= MIN (MAX x lo) hi <= hi.
Proof.
  intros H. unfold MIN, MAX.
  destruct (x >? lo) eqn:E1; zbool.
  - destruct (x <? hi) eqn:E2; zbool; lia.
  - destruct (lo <? hi) eqn:E2; zbool; lia.
Qed.

(** The two [assert]s of [quantize_coefficients] hold for every input, NaN
    and infinities included: the function returns [order] coefficients,
    each of which fits 16 bits. *)
Theorem quantize_coefficients_range (order : Z) (lp_coeff : list (list float)) :
  0 <= order ->
  alen (Encoder.quantize_coefficients order lp_coeff) = order
  /\ Forall (fits_signed 16) (Encoder.quantize_coefficients order lp_coeff).
Proof.
  intros Ho. unfold Encoder.quantize_coefficients. cbv zeta.
  apply (for_loop_ind
           (fun i (st : list Z * Z) => alen (fst st) = i /\ Forall (fits_signed 16) (fst st))).
  - exact Ho.
  - split; [reflexivity|constructor].
  - intros i [qlp error] Hi [Hlen Hall]. cbn [fst] in *. split.
    + rewrite alen_app. unfold alen at 2. cbn [length]. lia.
    + apply Forall_app. split; [exact Hall|]. constructor; [|constructor].
      unfold fits_signed.
      match goal with |- _ <= int32 (MIN (MAX ?x ?lo) ?hi) < _ =>
        pose proof (MIN_MAX_clamped x lo hi ltac:(vm_compute; discriminate)) as Hc
      end.
      change (2 ^ (16 - 1)) with 32768 in *.
      rewrite int32_id by (unfold is_int; lia). lia.
Qed.

Lemma quantize_coefficients_range_witness :
  alen (Encoder.quantize_coefficients 4 [[]; []; []; [1000; nan; (-3); 0.25]%float]) = 4
  /\ Forall (fits_signed 16)
            (Encoder.quantize_coefficients 4 [[]; []; []; [1000; nan; (-3); 0.25]%float]).
Proof.
  apply (quantize_coefficients_range 4). vm_compute. discriminate.
Defined.

(** ** Sign extension *)

Lemma TRUNCATE_BITS_value (v n : Z) :
  1 <= n <= 31 ->
  Encoder.TRUNCATE_BITS v n = (v + 2 ^ (n - 1)) mod 2 ^ n - 2 ^ (n - 1).
Proof.
  intros Hn.
  assert (0 < 2 ^ (n - 1)) as Hp by (apply Z.pow_pos_nonneg; lia).
  pose proof (pow2_double n ltac:(lia)) as Hd.
  assert (2 ^ (n - 1) <= 2 ^ 30) as Hle by (apply Z.pow_le_mono_r; lia).
  unfold Encoder.TRUNCATE_BITS.
    rewrite (uint32_id (n - 1)) by (unfold is_unsigned; lia).
    assert (int32 (shl32 1 n - 1) = 2 ^ n - 1) as Hmask.
    { destruct (Z.eq_dec n 31) as [->|Hne]; [reflexivity|].
      rewrite shl32_1_small by lia. apply int32_id. unfold is_int. lia. }
    rewrite Hmask. replace (2 ^ n - 1) with (Z.ones n) by (rewrite Z.ones_equiv; lia).
    rewrite Z.land_ones by lia.
    pose proof (Z.mod_pos_bound v (2 ^ n) ltac:(lia)) as Hm.
    rewrite shl32_1_small by lia. rewrite land_pow2 by lia.
    rewrite (testbit_top (v mod 2 ^ n) (n - 1));
      [|lia|replace (n - 1 + 1) with n by lia; lia].
    pose proof (Z.div_mod v (2 ^ n) ltac:(lia)) as Hdm.
    destruct (2 ^ (n - 1) <=? v mod 2 ^ n) eqn:E; zbool.
    - replace (2 ^ (n - 1) =? 0) with false by (symmetry; apply Z.eqb_neq; lia).
      cbn [negb].
      assert (int32 (v mod 2 ^ n - shl32 1 n) = v mod 2 ^ n - 2 ^ n) as ->.
      { destruct (Z.eq_dec n 31) as [->|Hne].
        - rewrite shl32_1_31.
          rewrite (int32_congr _ (v mod 2 ^ 31 - 2 ^ 31) 1) by lia.
          apply int32_id. unfold is_int. lia.
        - rewrite shl32_1_small by lia. apply int32_id. unfold is_int. lia. }
      assert ((v + 2 ^ (n - 1)) mod 2 ^ n = v mod 2 ^ n - 2 ^ (n - 1)) as ->; [|lia].
      symmetry. apply Z.mod_unique with (q := v / 2 ^ n + 1); lia.
    - rewrite Z.eqb_refl. cbn [negb].
      assert ((v + 2 ^ (n - 1)) mod 2 ^ n = v mod 2 ^ n + 2 ^ (n - 1)) as ->; [|lia].
      symmetry. apply Z.mod_unique with (q := v / 2 ^ n); lia.
Qed.

Lemma TRUNCATE_BITS_fits (v n : Z) :
  1 <= n <= 31 -> fits_signed n v -> Encoder.TRUNCATE_BITS v n = v.
Proof.
  intros Hn Hfit. unfold fits_signed in Hfit. rewrite TRUNCATE_BITS_value by exact Hn.
  pose proof (pow2_double n ltac:(lia)) as Hd.
  rewrite Z.mod_small by lia. lia.
Qed.

(** [TRUNCATE_BITS] keeps the low [bits] bits of a value and extends the
    sign from the highest of them, so it leaves a value that fits [bits]
    bits as it is. *)
Theorem TRUNCATE_BITS_sign_extends (v n : Z) :
  1 <= n <= 31 ->
  Encoder.TRUNCATE_BITS v n = (v + 2 ^ (n - 1)) mod 2 ^ n - 2 ^ (n - 1)
  /\ (fits_signed n v -> Encoder.TRUNCATE_BITS v n = v).
Proof.
  intros Hn. split; [now apply TRUNCATE_BITS_value|now apply TRUNCATE_BITS_fits].
Qed.

Lemma TRUNCATE_BITS_sign_extends_witness :
  Encoder.TRUNCATE_BITS (-5) 16 = (-5 + 2 ^ (16 - 1)) mod 2 ^ 16 - 2 ^ (16 - 1)
  /\ (fits_signed 16 (-5) -> Encoder.TRUNCATE_BITS (-5) 16 = -5).
Proof. apply (TRUNCATE_BITS_sign_extends (-5) 16). vm_compute. split; discriminate. Defined.

(** ** The sizes of the predictor's arrays *)

(** [decode_subframe] stores [coeff_count + 1] samples before it looks at
    the block size: a block shorter than that still gets [coeff_count + 1]
    samples, which is more than a [subframe] array of [block_size] entries
    holds. *)
Theorem decode_subframe_length (block_size : Z) (header : Decoder.subframe_header)
        (residuals : list Z) :
  0 <= Decoder.coeff_count header ->
  alen (Decoder.decode_subframe block_size header residuals)
  = Z.max block_size (Decoder.coeff_count header + 1).
Proof.
  intros Hc. unfold Decoder.decode_subframe. cbv zeta.
  set (warm := for_loop 1 (Decoder.coeff_count header + 1) _ _).
  assert (Hwarm : alen warm = Decoder.coeff_count header + 1).
  { subst warm. apply (for_loop_ind (fun i (l : list Z) => alen l = i)).
    - lia.
    - reflexivity.
    - intros i x _ Hx. rewrite alen_app. unfold alen at 2. cbn [length]. lia. }
  destruct (Z_le_dec (Decoder.coeff_count header + 1) block_size) as [Hle|Hgt].
  - rewrite Z.max_l by lia.
    apply (for_loop_ind (fun i (st : list Z * list Z) => alen (fst st) = i)).
    + exact Hle.
    + exact Hwarm.
    + intros i [subframe coeff] _ Hx. cbn [fst] in *.
      rewrite alen_app. unfold alen at 2. cbn [length]. lia.
  - rewrite for_loop_empty by lia. cbn [fst]. rewrite Z.max_r by lia. exact Hwarm.
Qed.

Lemma decode_subframe_length_witness :
  alen (Decoder.decode_subframe 2
          {| Decoder.prediction_type := 0; Decoder.shift_needed := 9;
             Decoder.rice_modifier := 4; Decoder.coeff_count := 4;
             Decoder.coeff := [0; 0; 0; 0] |} [7; 1])
  = Z.max 2 (4 + 1).
Proof.
  apply (decode_subframe_length 2
           {| Decoder.prediction_type := 0; Decoder.shift_needed := 9;
              Decoder.rice_modifier := 4; Decoder.coeff_count := 4;
              Decoder.coeff := [0; 0; 0; 0] |} [7; 1]).
  vm_compute. discriminate.
Defined.

(** [calculate_residuals] gives one residual for every sample of a block of
    more than [order] samples; the first is the first sample. *)
Theorem calculate_residuals_length (sample_size sample_count : Z) (samples : list Z)
        (order : Z) (qlp_coefficients : list Z) :
  0 <= order < sample_count ->
  alen (Encoder.calculate_residuals sample_size sample_count samples order qlp_coefficients)
  = sample_count
  /\ (Encoder.calculate_residuals sample_size sample_count samples order
        qlp_coefficients).[0] = samples.[0].
Proof.
  intros Ho. unfold Encoder.calculate_residuals. cbv zeta.
  destruct (order <? 31) eqn:E.
  - set (warm := for_loop 1 (order + 1) _ _).
    assert (Hwarm : alen warm = order + 1 /\ warm.[0] = samples.[0]).
    { subst warm.
      apply (for_loop_ind (fun i (l : list Z) => alen l = i /\ l.[0] = samples.[0])).
      - lia.
      - split; reflexivity.
      - intros i x Hi [Hx H0]. split.
        + rewrite alen_app. unfold alen at 2. cbn [length]. lia.
        + rewrite get_app_l by lia. exact H0. }
    apply (for_loop_ind
             (fun i (st : list Z * list Z) =>
                alen (fst st) = i /\ (fst st).[0] = samples.[0])).
    + lia.
    + exact Hwarm.
    + intros i [residuals coefficients] Hi [Hx H0]. cbn [fst] in *. split.
      * rewrite alen_app. unfold alen at 2. cbn [length]. lia.
      * rewrite get_app_l by lia. exact H0.
  - apply (for_loop_ind (fun i (l : list Z) => alen l = i /\ l.[0] = samples.[0])).
    + lia.
    + split; reflexivity.
    + intros i x Hi [Hx H0]. split.
      * rewrite alen_app. unfold alen at 2. cbn [length]. lia.
      * rewrite get_app_l by lia. exact H0.
Qed.

Lemma calculate_residuals_length_witness :
  alen (Encoder.calculate_residuals 16 10 fibonacci10 4 [316; 0; 0; -1]) = 10
  /\ (Encoder.calculate_residuals 16 10 fibonacci10 4 [316; 0; 0; -1]).[0] = fibonacci10.[0].
Proof.
  apply (calculate_residuals_length 16 10 fibonacci10 4 [316; 0; 0; -1]).
  vm_compute. split; [discriminate|reflexivity].
Defined.

(** ** The predictor of the encoder and of the decoder *)

Lemma for_loop_split {T : Type} (lo mid hi : Z) (body : Z -> T -> T) (s : T) :
  lo <= mid <= hi ->
  for_loop lo hi body s = for_loop mid hi body (for_loop lo mid body s).
Proof.
  intros H.
  assert (forall k : nat,
             for_loop lo (mid + Z.of_nat k) body s
             = for_loop mid (mid + Z.of_nat k) body (for_loop lo mid body s)) as Hk.
  { induction k as [|k IH].
    - rewrite Z.add_0_r. now rewrite (for_loop_empty mid mid) by lia.
    - replace (mid + Z.of_nat (S k)) with (mid + Z.of_nat k + 1) by lia.
      rewrite !for_loop_last by lia. now rewrite IH. }
  specialize (Hk (Z.to_nat (hi - mid))).
  now replace (mid + Z.of_nat (Z.to_nat (hi - mid))) with hi in Hk by lia.
Qed.

(** A loop that appends one entry per round keeps the entries it has. *)
Lemma for_loop_keeps {T : Type} (proj : T -> list Z) (lo hi : Z)
      (body : Z -> T -> T) (s : T) :
  lo <= hi ->
  (forall i x, lo <= i < hi -> exists v, proj (body i x) = proj x ++ [v]) ->
  alen (proj (for_loop lo hi body s)) = alen (proj s) + (hi - lo)
  /\ forall idx, 0 <= idx < alen (proj s) ->
                 (proj (for_loop lo hi body s)).[idx] = (proj s).[idx].
Proof.
  intros Hle Hbody.
  apply (for_loop_ind
           (fun i x => alen (proj x) = alen (proj s) + (i - lo)
                       /\ forall idx, 0 <= idx < alen (proj s) ->
                                      (proj x).[idx] = (proj s).[idx])).
  - exact Hle.
  - split; [lia|reflexivity].
  - intros i x Hi [Hlen Hkeep]. destruct (Hbody i x Hi) as [v ->]. split.
    + rewrite alen_app. unfold alen at 2. cbn [length]. lia.
    + intros idx Hidx. rewrite get_app_l by lia. now apply Hkeep.
Qed.

Lemma set_spec (a : list Z) (i v : Z) :
  0 <= i < alen a ->
  exists a', set a i v = Some a'
             /\ alen a' = alen a
             /\ a'.[i] = v
             /\ forall k, k <> i -> a'.[k] = a.[k].
Proof.
  intros Hi. unfold set, alen in *.
  destruct ((0 <=? i) && (i <? Z.of_nat (length a))) eqn:E.
  2:{ apply andb_false_iff in E. destruct E; zbool; lia. }
  eexists. split; [reflexivity|].
  assert (Hf : length (firstn (Z.to_nat i) a) = Z.to_nat i)
    by (rewrite firstn_length_le; lia).
  split; [|split].
  - rewrite length_app. cbn [length]. rewrite Hf, length_skipn. lia.
  - unfold get. destruct (i <? 0) eqn:E0; zbool; [lia|].
    rewrite app_nth2 by lia. rewrite Hf, Nat.sub_diag. reflexivity.
  - intros k Hk. unfold get. destruct (k <? 0) eqn:E0; zbool; [reflexivity|].
    destruct (Z_lt_dec k i) as [Hlt|Hge].
    + rewrite app_nth1 by lia. rewrite nth_firstn.
      destruct (Nat.ltb_spec (Z.to_nat k) (Z.to_nat i)); [reflexivity|lia].
    + rewrite app_nth2 by lia. rewrite Hf.
      replace (Z.to_nat k - Z.to_nat i)%nat with (S (Z.to_nat k - S (Z.to_nat i))) by lia.
      cbn [nth]. rewrite nth_skipn. f_equal. lia.
Qed.

(** Induction over two loops that run side by side. *)
Lemma for_loop_ind2 {T U : Type} (R : Z -> T -> U -> Prop) (lo hi : Z)
      (f : Z -> T -> T) (g : Z -> U -> U) (s : T) (t : U) :
  lo <= hi ->
  R lo s t ->
  (forall i x y, lo <= i < hi -> R i x y -> R (i + 1) (f i x) (g i y)) ->
  R hi (for_loop lo hi f s) (for_loop lo hi g t).
Proof.
  intros Hle H0 Hstep.
  assert (forall k : nat, lo + Z.of_nat k <= hi ->
            R (lo + Z.of_nat k) (for_loop lo (lo + Z.of_nat k) f s)
              (for_loop lo (lo + Z.of_nat k) g t)) as H.
  { induction k as [|k IH]; intros Hk.
    - rewrite Z.add_0_r, !for_loop_empty by lia. exact H0.
    - replace (lo + Z.of_nat (Datatypes.S k)) with (lo + Z.of_nat k + 1) by lia.
      rewrite !for_loop_last by lia. apply Hstep; [lia|]. apply IH. lia. }
  specialize (H (Z.to_nat (hi - lo))).
  replace (lo + Z.of_nat (Z.to_nat (hi - lo))) with hi in H by lia.
  apply H. lia.
Qed.

(** The two coefficient updates are the same code, over arrays that agree
    on the [order] samples before sample [i]. *)
Lemma adapt_agree (up : bool) (order i base_sample : Z) (samples subframe : list Z)
      (steps : nat) :
  (forall idx, i - order <= idx < i -> samples.[idx] = subframe.[idx]) ->
  forall (j : Z) (coefficients : list Z) (error : Z),
    0 <= j -> j + Z.of_nat steps <= order ->
    Encoder.adapt up steps j order i base_sample samples coefficients error
    = Decoder.adapt up steps j order i base_sample 9 subframe coefficients error.
Proof.
  intros Hagree. induction steps as [|steps IH]; intros j coefficients error Hj Hs.
  - reflexivity.
  - cbn [Encoder.adapt Decoder.adapt]. cbv zeta.
    rewrite (Hagree (i - order + j)) by lia.
    unfold Encoder.SIGN_ONLY, Decoder.SIGN_ONLY.
    match goal with
    | |- (if ?c then _ else _) = (if ?c then _ else _) => destruct c; [reflexivity|]
    end.
    apply IH; lia.
Qed.

Lemma SIGN_ONLY_cases (value : Z) :
  Decoder.SIGN_ONLY value = 1 \/ Decoder.SIGN_ONLY value = 0
  \/ Decoder.SIGN_ONLY value = -1.
Proof.
  unfold Decoder.SIGN_ONLY. destruct (value >? 0); [now left|].
  destruct (value <? 0); [now right; right|now right; left].
Qed.

(** One update moves every coefficient by one at most. *)
Lemma adapt_bound (up : bool) (order i base_sample shift : Z) (subframe : list Z)
      (B : Z) (steps : nat) :
  0 <= B -> B + 1 < 2 ^ 31 ->
  forall (j : Z) (coeff : list Z) (residual : Z),
    0 <= j -> j + Z.of_nat steps <= order ->
    alen coeff = order ->
    (forall k, 0 <= k < order - j -> Z.abs coeff.[k] <= B) ->
    (forall k, order - j <= k < order -> Z.abs coeff.[k] <= B + 1) ->
    let coeff' := Decoder.adapt up steps j order i base_sample shift subframe coeff residual in
    alen coeff' = order /\ forall k, 0 <= k < order -> Z.abs coeff'.[k] <= B + 1.
Proof.
  intros HB HB1. induction steps as [|steps IH];
    intros j coeff residual Hj Hs Hlen Hlow Hhigh; cbv zeta.
  - cbn [Decoder.adapt]. split; [exact Hlen|].
    intros k Hk. destruct (Z_lt_dec k (order - j)).
    + specialize (Hlow k ltac:(lia)). lia.
    + apply Hhigh. lia.
  - cbn [Decoder.adapt]. cbv zeta.
    set (diff := int32 (base_sample - subframe.[i - order + j])).
    destruct (set_spec coeff (order - j - 1)
                (int32 (if up then coeff.[order - j - 1] - Decoder.SIGN_ONLY diff
                        else coeff.[order - j - 1] + Decoder.SIGN_ONLY diff))
                ltac:(lia)) as (coeff' & -> & Hlen' & Hnew & Hold).
    assert (Hv : Z.abs coeff'.[order - j - 1] <= B + 1).
    { rewrite Hnew. specialize (Hlow (order - j - 1) ltac:(lia)).
      destruct (SIGN_ONLY_cases diff) as [-> | [-> | ->]]; destruct up;
        rewrite int32_id by (unfold is_int; lia); lia. }
    assert (Hall : forall k, 0 <= k < order -> Z.abs coeff'.[k] <= B + 1).
    { intros k Hk. destruct (Z.eq_dec k (order - j - 1)) as [->|Hne]; [exact Hv|].
      rewrite Hold by exact Hne. destruct (Z_lt_dec k (order - j)).
      - specialize (Hlow k ltac:(lia)). lia.
      - apply Hhigh. lia. }
    match goal with
    | |- context [if ?c then coeff' else _] => destruct c
    end.
    + split; [lia|exact Hall].
    + apply IH; try lia.
      * intros k Hk. rewrite Hold by lia. apply Hlow. lia.
      * intros k Hk. apply Hall. lia.
Qed.

Section Predictor.

Variables (sample_size n order C : Z) (coeff0 residuals : list Z).

Hypothesis Hss : 1 <= sample_size <= 31.
Hypothesis Horder : 0 <= order < 31.
Hypothesis Hn : order < n.
Hypothesis Hcoeff : alen coeff0 = order.
Hypothesis Hres : alen residuals = n.
Hypothesis Hfit_res : forall i, 1 <= i < n -> fits_signed sample_size residuals.[i].
Hypothesis HC : forall k, 0 <= k < order -> Z.abs coeff0.[k] <= C.
Hypothesis HC0 : 0 <= C.
Hypothesis Hbound : (C + n) * 2 ^ sample_size <= 2 ^ 31.

(** The two loops of [decode_subframe]. *)
Let dec_warm_body (i : Z) (subframe : list Z) : list Z :=
  subframe ++ [int32 (residuals.[i] + subframe.[i - 1])].

Let dec_step (i : Z) (st : list Z * list Z) : list Z * list Z :=
  let '(subframe, coeff) := st in
  let residual := residuals.[i] in
  let base_sample := subframe.[i - order - 1] in
  let qlp_sum :=
    for_loop 0 order
      (fun j qlp_sum =>
         int64 (qlp_sum + int32 (coeff.[j] * int32 (subframe.[i - j - 1] - base_sample))))
      0 in
  let qlp_sum := int64 (qlp_sum + shl32 1 (uint32 (9 - 1))) in
  let qlp_sum := Z.shiftr qlp_sum 9 in
  let sample := int32 (int32 qlp_sum + residual + base_sample) in
  let subframe := subframe ++ [sample] in
  let coeff :=
    if residual >? 0 then
      Decoder.adapt true (Z.to_nat order) 0 order i base_sample 9 subframe coeff residual
    else if residual <? 0 then
      Decoder.adapt false (Z.to_nat order) 0 order i base_sample 9 subframe coeff residual
    else coeff in
  (subframe, coeff).

Let W (i : Z) : list Z := for_loop 1 i dec_warm_body [residuals.[0]].
Let D (i : Z) : list Z * list Z := for_loop (order + 1) i dec_step (W (order + 1), coeff0).
Let S : list Z := fst (D n).

Lemma decode_subframe_loops (prediction_type rice_modifier : Z) :
  Decoder.decode_subframe n
    {| Decoder.prediction_type := prediction_type; Decoder.shift_needed := 9;
       Decoder.rice_modifier := rice_modifier; Decoder.coeff_count := order;
       Decoder.coeff := coeff0 |} residuals
  = S.
Proof. reflexivity. Qed.

Lemma W_keeps (i : Z) :
  1 <= i <= order + 1 ->
  alen (W i) = i
  /\ forall i', i <= i' <= order + 1 ->
                forall idx, 0 <= idx < i -> (W i').[idx] = (W i).[idx].
Proof.
  intros Hi.
  assert (Hlen : forall i, 1 <= i -> alen (W i) = i).
  { intros k Hk. unfold W.
    destruct (for_loop_keeps (fun l => l) 1 k dec_warm_body [residuals.[0]] Hk) as [H _].
    - intros j x _. eexists. reflexivity.
    - rewrite H. unfold alen. cbn [length]. lia. }
  split; [apply Hlen; lia|].
  intros i' Hi' idx Hidx. unfold W at 1.
  rewrite (for_loop_split 1 i i') by lia. fold (W i).
  destruct (for_loop_keeps (fun l => l) i i' dec_warm_body (W i) ltac:(lia)) as [_ H].
  - intros j x _. eexists. reflexivity.
  - apply H. rewrite Hlen by lia. exact Hidx.
Qed.

Lemma dec_step_appends (i : Z) (st : list Z * list Z) :
  exists v, fst (dec_step i st) = fst st ++ [v].
Proof. destruct st as [subframe coeff]. eexists. reflexivity. Qed.

Lemma D_keeps (i : Z) :
  order + 1 <= i <= n ->
  alen (fst (D i)) = i
  /\ forall i', i <= i' <= n ->
                forall idx, 0 <= idx < i -> (fst (D i')).[idx] = (fst (D i)).[idx].
Proof.
  intros Hi.
  assert (Hlen : forall i, order + 1 <= i -> alen (fst (D i)) = i).
  { intros k Hk. unfold D.
    destruct (for_loop_keeps fst (order + 1) k dec_step (W (order + 1), coeff0) Hk)
      as [H _].
    - intros j x _. apply dec_step_appends.
    - rewrite H. cbn [fst]. rewrite (proj1 (W_keeps (order + 1) ltac:(lia))). lia. }
  split; [apply Hlen; lia|].
  intros i' Hi' idx Hidx. unfold D at 1.
  rewrite (for_loop_split (order + 1) i i') by lia. fold (D i).
  destruct (for_loop_keeps fst i i' dec_step (D i) ltac:(lia)) as [_ H].
  - intros j x _. apply dec_step_appends.
  - apply H. rewrite Hlen by lia. exact Hidx.
Qed.

Lemma S_length : alen S = n.
Proof. unfold S. apply D_keeps. lia. Qed.

Lemma S_of_W (i idx : Z) : 1 <= i <= order + 1 -> 0 <= idx < i -> S.[idx] = (W i).[idx].
Proof.
  intros Hi Hidx. unfold S.
  rewrite (proj2 (D_keeps (order + 1) ltac:(lia)) n ltac:(lia) idx ltac:(lia)).
  unfold D. rewrite for_loop_empty by lia. cbn [fst].
  apply W_keeps; lia.
Qed.

Lemma S_of_D (i idx : Z) : order + 1 <= i <= n -> 0 <= idx < i -> S.[idx] = (fst (D i)).[idx].
Proof. intros Hi Hidx. unfold S. apply D_keeps; lia. Qed.

Lemma S_first : S.[0] = residuals.[0].
Proof. rewrite (S_of_W 1) by lia. reflexivity. Qed.

Lemma S_warm (i : Z) : 1 <= i <= order -> S.[i] = int32 (residuals.[i] + S.[i - 1]).
Proof.
  intros Hi. rewrite (S_of_W (i + 1)) by lia.
  unfold W. rewrite for_loop_last by lia. fold (W i). unfold dec_warm_body.
  rewrite get_app_last' by (apply W_keeps; lia).
  now rewrite (S_of_W i) by lia.
Qed.

Hypothesis Hfit_S : Forall (fits_signed sample_size) S.

Lemma S_fits (idx : Z) : fits_signed sample_size S.[idx].
Proof.
  assert (0 < 2 ^ (sample_size - 1)) by (apply Z.pow_pos_nonneg; lia).
  destruct (Z_lt_dec idx 0) as [Hneg|Hpos].
  - unfold get. destruct (idx <? 0) eqn:E; zbool; [|lia]. unfold fits_signed. lia.
  - destruct (Z_lt_dec idx (alen S)) as [Hin|Hout].
    + apply Forall_get; [exact Hfit_S|lia].
    + rewrite get_out_of_range by lia. unfold fits_signed. lia.
Qed.

Lemma fits_is_int (v : Z) : fits_signed sample_size v -> is_int v.
Proof.
  unfold fits_signed, is_int. intros H.
  assert (2 ^ (sample_size - 1) <= 2 ^ 31) by (apply Z.pow_le_mono_r; lia). lia.
Qed.

Lemma S_diff (a b : Z) :
  int32 (S.[a] - S.[b]) = S.[a] - S.[b] /\ Z.abs (S.[a] - S.[b]) <= 2 ^ sample_size - 1.
Proof.
  pose proof (S_fits a) as Ha. pose proof (S_fits b) as Hb. unfold fits_signed in *.
  pose proof (pow2_double sample_size ltac:(lia)) as Hd.
  assert (2 ^ sample_size <= 2 ^ 31) by (apply Z.pow_le_mono_r; lia).
  split; [apply int32_id; unfold is_int; lia|lia].
Qed.

(** The two loops of [calculate_residuals], over the decoded samples. *)
Let enc_warm_body (i : Z) (residuals : list Z) : list Z :=
  residuals ++ [Encoder.TRUNCATE_BITS (int32 (S.[i] - S.[i - 1])) sample_size].

Let enc_step (i : Z) (st : list Z * list Z) : list Z * list Z :=
  let '(residuals, coefficients) := st in
  let base_sample := S.[i - order - 1] in
  let lpc_sum :=
    for_loop 0 order
      (fun j lpc_sum =>
         int64 (lpc_sum + int64 (coefficients.[j]
                                 * int32 (S.[i - j - 1] - base_sample))))
      (2 ^ 8) in
  let lpc_sum := Z.shiftr lpc_sum 9 in
  let error :=
    Encoder.TRUNCATE_BITS (int32 (S.[i] - base_sample - int32 lpc_sum)) sample_size in
  let coefficients :=
    if error >? 0 then
      Encoder.adapt true (Z.to_nat order) 0 order i base_sample S coefficients error
    else if error <? 0 then
      Encoder.adapt false (Z.to_nat order) 0 order i base_sample S coefficients error
    else coefficients in
  (residuals ++ [error], coefficients).

Lemma calculate_residuals_loops :
  Encoder.calculate_residuals sample_size n S order coeff0
  = fst (for_loop (order + 1) n enc_step
           (for_loop 1 (order + 1) enc_warm_body [S.[0]], coeff0)).
Proof.
  unfold Encoder.calculate_residuals. cbv zeta.
  destruct (order <? 31) eqn:E; zbool; [|lia].
  rewrite (firstn_all2 (n := Z.to_nat order) coeff0) by (unfold alen in Hcoeff; lia).
  reflexivity.
Qed.

Lemma firstn_residuals_succ (i : Z) :
  0 <= i < n ->
  firstn (Z.to_nat (i + 1)) residuals = firstn (Z.to_nat i) residuals ++ [residuals.[i]].
Proof.
  intros Hi. replace (Z.to_nat (i + 1)) with (Datatypes.S (Z.to_nat i)) by lia.
  rewrite (firstn_succ_nth residuals 0) by (unfold alen in Hres; lia).
  now rewrite <- get_nat, Z2Nat.id by lia.
Qed.

Lemma enc_warm :
  for_loop 1 (order + 1) enc_warm_body [S.[0]] = firstn (Z.to_nat (order + 1)) residuals.
Proof.
  apply (for_loop_ind (fun i l => l = firstn (Z.to_nat i) residuals)).
  - lia.
  - rewrite S_first. change (Z.to_nat 1) with (Z.to_nat (0 + 1)).
    now rewrite firstn_residuals_succ by lia.
  - intros i x Hi ->. unfold enc_warm_body.
    rewrite firstn_residuals_succ by lia. f_equal. f_equal.
    replace (i + 1 - 1) with i by lia.
    rewrite S_warm by lia.
    rewrite int32_add_sub by (apply fits_is_int, Hfit_res; lia).
    apply TRUNCATE_BITS_fits; [exact Hss|]. apply Hfit_res. lia.
Qed.

Lemma product_fits (c a b : Z) :
  Z.abs c <= C + n - 1 ->
  let p := c * int32 (S.[a] - S.[b]) in
  int32 p = p /\ int64 p = p /\ Z.abs p < 2 ^ 31.
Proof.
  intros Hc. cbv zeta. destruct (S_diff a b) as [-> Hd].
  assert (0 < 2 ^ sample_size) by (apply Z.pow_pos_nonneg; lia).
  assert (Hp : Z.abs (c * (S.[a] - S.[b])) < 2 ^ 31).
  { rewrite Z.abs_mul.
    assert (Z.abs c * Z.abs (S.[a] - S.[b]) <= (C + n - 1) * (2 ^ sample_size - 1)).
    { apply Z.mul_le_mono_nonneg; lia. }
    nia. }
  split; [apply int32_id; unfold is_int; lia|].
  split; [apply int64_id; lia|exact Hp].
Qed.

Lemma prediction_sums (i : Z) (sub coef : list Z) :
  order + 1 <= i < n ->
  (forall idx, 0 <= idx < i -> S.[idx] = sub.[idx]) ->
  (forall k, 0 <= k < order -> Z.abs coef.[k] <= C + n - 1) ->
  for_loop 0 order
    (fun j lpc_sum =>
       int64 (lpc_sum + int64 (coef.[j] * int32 (S.[i - j - 1] - S.[i - order - 1]))))
    (2 ^ 8)
  = int64 (for_loop 0 order
             (fun j qlp_sum =>
                int64 (qlp_sum
                       + int32 (coef.[j] * int32 (sub.[i - j - 1] - sub.[i - order - 1]))))
             0
           + shl32 1 (uint32 (9 - 1))).
Proof.
  intros Hi Hagree Hcoef.
  change (shl32 1 (uint32 (9 - 1))) with 256.
  enough (H : let a := for_loop 0 order
                         (fun j lpc_sum =>
                            int64 (lpc_sum
                                   + int64 (coef.[j]
                                            * int32 (S.[i - j - 1] - S.[i - order - 1]))))
                         (2 ^ 8) in
              let b := for_loop 0 order
                         (fun j qlp_sum =>
                            int64 (qlp_sum
                                   + int32 (coef.[j]
                                            * int32 (sub.[i - j - 1] - sub.[i - order - 1]))))
                         0 in
              a = b + 256 /\ Z.abs b <= order * 2 ^ 31).
  { cbv zeta in H. destruct H as [-> Hb]. symmetry. apply int64_id. lia. }
  cbv zeta.
  apply (for_loop_ind2 (fun j a b => a = b + 256 /\ Z.abs b <= j * 2 ^ 31)).
  - lia.
  - split; [reflexivity|]. cbn. lia.
  - intros j a b Hj [-> Hb].
    rewrite <- (Hagree (i - j - 1)), <- (Hagree (i - order - 1)) by lia.
    destruct (product_fits coef.[j] (i - j - 1) (i - order - 1) (Hcoef j Hj))
      as (-> & -> & Hp).
    rewrite !int64_id by lia. split; lia.
Qed.

Lemma enc_step_D (i : Z) :
  order + 1 <= i < n ->
  alen (snd (D i)) = order ->
  (forall k, 0 <= k < order -> Z.abs (snd (D i)).[k] <= C + (i - order - 1)) ->
  enc_step i (firstn (Z.to_nat i) residuals, snd (D i))
  = (firstn (Z.to_nat (i + 1)) residuals, snd (D (i + 1)))
  /\ alen (snd (D (i + 1))) = order
  /\ (forall k, 0 <= k < order -> Z.abs (snd (D (i + 1))).[k] <= C + (i + 1 - order - 1)).
Proof.
  intros Hi Hlen Hcoef.
  assert (HD : D (i + 1) = dec_step i (D i)) by (unfold D; apply for_loop_last; lia).
  pose proof (proj1 (D_keeps i ltac:(lia))) as Hsub.
  assert (Hagree : forall idx, 0 <= idx < i -> S.[idx] = (fst (D i)).[idx])
    by (intros idx Hidx; apply S_of_D; lia).
  assert (HSi : S.[i] = (fst (D (i + 1))).[i]) by (apply S_of_D; lia).
  rewrite HD in *. destruct (D i) as [sub coef]. cbn [fst snd] in *.
  unfold dec_step in *. cbv zeta in *. cbn [fst snd] in *.
  rewrite get_app_last' in HSi by exact Hsub.
  unfold enc_step. cbv zeta.
  rewrite (prediction_sums i sub coef Hi Hagree)
    by (intros k Hk; specialize (Hcoef k Hk); lia).
  rewrite <- (Hagree (i - order - 1)) in * by lia.
  set (L := int32 (Z.shiftr _ 9)) in *.
  assert (Herr : Encoder.TRUNCATE_BITS (int32 (S.[i] - S.[i - order - 1] - L)) sample_size
                 = residuals.[i]).
  { rewrite HSi.
    assert (is_int residuals.[i]) as Hr by (apply fits_is_int, Hfit_res; lia).
    destruct (int32_eqm (L + residuals.[i] + S.[i - order - 1])) as [q Hq].
    rewrite (int32_congr _ residuals.[i] q) by lia.
    rewrite int32_id by exact Hr.
    apply TRUNCATE_BITS_fits; [exact Hss|]. apply Hfit_res. lia. }
  rewrite Herr. rewrite firstn_residuals_succ by lia.
  assert (Hadapt : forall up,
             Encoder.adapt up (Z.to_nat order) 0 order i S.[i - order - 1] S coef
                           residuals.[i]
             = Decoder.adapt up (Z.to_nat order) 0 order i S.[i - order - 1] 9
                             (sub ++ [int32 (L + residuals.[i] + S.[i - order - 1])])
                             coef residuals.[i]).
  { intros up. apply adapt_agree; [|lia|lia].
    intros idx Hidx. rewrite get_app_l by lia. apply Hagree. lia. }
  rewrite !Hadapt.
  split; [reflexivity|].
  assert (Hb : forall up,
             let coeff' :=
               Decoder.adapt up (Z.to_nat order) 0 order i S.[i - order - 1] 9
                             (sub ++ [int32 (L + residuals.[i] + S.[i - order - 1])])
                             coef residuals.[i] in
             alen coeff' = order
             /\ forall k, 0 <= k < order -> Z.abs coeff'.[k] <= C + (i - order - 1) + 1).
  { intros up. apply adapt_bound; try lia.
    - assert (2 * (C + n) <= (C + n) * 2 ^ sample_size).
      { assert (2 ^ 1 <= 2 ^ sample_size) by (apply Z.pow_le_mono_r; lia). nia. }
      lia.
    - intros k Hk. apply Hcoef. lia. }
  cbv zeta in Hb.
  destruct (residuals.[i] >? 0); [|destruct (residuals.[i] <? 0)].
  - destruct (Hb true) as [H1 H2]. split; [exact H1|]. intros k Hk.
    specialize (H2 k Hk). lia.
  - destruct (Hb false) as [H1 H2]. split; [exact H1|]. intros k Hk.
    specialize (H2 k Hk). lia.
  - split; [exact Hlen|]. intros k Hk. specialize (Hcoef k Hk). lia.
Qed.

Lemma enc_loop :
  for_loop (order + 1) n enc_step (firstn (Z.to_nat (order + 1)) residuals, coeff0)
  = (firstn (Z.to_nat n) residuals, snd (D n)).
Proof.
  apply (for_loop_ind
           (fun i st =>
              st = (firstn (Z.to_nat i) residuals, snd (D i))
              /\ alen (snd (D i)) = order
              /\ forall k, 0 <= k < order -> Z.abs (snd (D i)).[k] <= C + (i - order - 1))).
  - lia.
  - unfold D. rewrite for_loop_empty by lia. cbn [snd].
    split; [reflexivity|]. split; [exact Hcoeff|].
    intros k Hk. specialize (HC k Hk). lia.
  - intros i x Hi (-> & Hlen & Hcoef).
    destruct (enc_step_D i Hi Hlen Hcoef) as (-> & Hlen' & Hcoef').
    split; [reflexivity|]. split; [exact Hlen'|].
    intros k Hk. specialize (Hcoef' k Hk). lia.
Qed.

Lemma calculate_residuals_of_S :
  Encoder.calculate_residuals sample_size n S order coeff0 = residuals.
Proof.
  rewrite calculate_residuals_loops, enc_warm, enc_loop. cbn [fst].
  apply firstn_all2. unfold alen in Hres. lia.
Qed.

End Predictor.

(** Coding the samples [decode_subframe] decoded gives back the residuals
    they were decoded from: the predictor of [calculate_residuals] and its
    adaptation are those of [decode_subframe], as long as the residuals and
    the samples fit [sample_size] bits and no product of a coefficient and a
    difference of samples leaves 32 bits (the decoder multiplies in [int],
    the encoder in [int64_t]).  So the samples are coded without loss. *)
Theorem calculate_residuals_decode_subframe (sample_size block_size C : Z)
        (header : Decoder.subframe_header) (residuals : list Z) :
  let order := Decoder.coeff_count header in
  let samples := Decoder.decode_subframe block_size header residuals in
  1 <= sample_size <= 31 ->
  0 <= order < 31 -> order < block_size ->
  Decoder.shift_needed header = 9 ->
  alen (Decoder.coeff header) = order ->
  alen residuals = block_size ->
  (forall i, 1 <= i < block_size -> fits_signed sample_size residuals.[i]) ->
  Forall (fits_signed sample_size) samples ->
  0 <= C -> Forall (fun c => Z.abs c <= C) (Decoder.coeff header) ->
  (C + block_size) * 2 ^ sample_size <= 2 ^ 31 ->
  Encoder.calculate_residuals sample_size block_size samples order (Decoder.coeff header)
  = residuals
  /\ Decoder.decode_subframe block_size header
       (Encoder.calculate_residuals sample_size block_size samples order
          (Decoder.coeff header))
     = samples.
Proof.
  intros order' samples. subst order'.
  destruct header as [prediction_type shift_needed rice_modifier order coeff0].
  cbn [Decoder.coeff_count Decoder.shift_needed Decoder.coeff].
  intros Hss Ho Hn Hshift Hlen Hres Hfit Hsamples HC0 HC Hbound.
  subst shift_needed.
  assert (H : Encoder.calculate_residuals sample_size block_size samples order coeff0
              = residuals).
  { apply (calculate_residuals_of_S sample_size block_size order C coeff0 residuals);
      try assumption.
    intros k Hk. apply (Forall_get _ coeff0 k HC). lia. }
  split; [exact H|]. now rewrite H.
Qed.

(** The header of order 4 the encoder writes for the samples 3, 5, 8, ...,
    233, and their residuals. *)
Definition fibonacci10_header : Decoder.subframe_header :=
  {| Decoder.prediction_type := 0; Decoder.shift_needed := 9;
     Decoder.rice_modifier := 4; Decoder.coeff_count := 4;
     Decoder.coeff := [316; 0; 0; -1] |}.

Definition fibonacci10_residuals : list Z := [3; 2; 3; 5; 8; 20; 32; 52; 83; 134].

Lemma calculate_residuals_decode_subframe_witness :
  Encoder.calculate_residuals 16 10
    (Decoder.decode_subframe 10 fibonacci10_header fibonacci10_residuals)
    (Decoder.coeff_count fibonacci10_header) (Decoder.coeff fibonacci10_header)
  = fibonacci10_residuals
  /\ Decoder.decode_subframe 10 fibonacci10_header
       (Encoder.calculate_residuals 16 10
          (Decoder.decode_subframe 10 fibonacci10_header fibonacci10_residuals)
          (Decoder.coeff_count fibonacci10_header) (Decoder.coeff fibonacci10_header))
     = Decoder.decode_subframe 10 fibonacci10_header fibonacci10_residuals.
Proof.
  apply (calculate_residuals_decode_subframe 16 10 316 fibonacci10_header
           fibonacci10_residuals).
  - vm_compute. split; discriminate.
  - vm_compute. split; [discriminate|reflexivity].
  - reflexivity.
  - reflexivity.
  - reflexivity.
  - reflexivity.
  - intros i Hi.
    assert (i = 1 \/ i = 2 \/ i = 3 \/ i = 4 \/ i = 5 \/ i = 6 \/ i = 7 \/ i = 8 \/ i = 9)
      as [-> | [-> | [-> | [-> | [-> | [-> | [-> | [-> | ->]]]]]]]] by lia;
      (vm_compute; split; [discriminate|reflexivity]).
  - vm_compute. repeat constructor; discriminate.
  - vm_compute. discriminate.
  - repeat constructor; vm_compute; discriminate.
  - vm_compute. discriminate.
Defined.

(** ** The mdat atom *)

Definition sum_bytes (frame_sizes : list (Z * Z)) : Z :=
  fold_right Z.add 0 (map fst frame_sizes).


Lemma write_frame_extends (bs : BitstreamWriter) (encoder : Encoder.alac_context)
      (channels : list (list Z)) :
  exists tail, Encoder.write_frame bs encoder channels = bs ++ tail.
Proof.
  unfold Encoder.write_frame. cbv zeta.
  destruct (alen (channel channels 0) >=? 10).
  - destruct (Encoder.write_compressed_frame _ encoder channels).
    + unfold recorder_copy, bw_write. rewrite <- app_assoc. eexists. reflexivity.
    + rewrite write_uncompressed_frame_app. unfold bw_write. rewrite <- app_assoc.
      eexists. reflexivity.
  - rewrite write_uncompressed_frame_app. unfold bw_write. rewrite <- app_assoc.
    eexists. reflexivity.
Qed.

Lemma write_frames_extend (encoder : Encoder.alac_context) (frames : list (list (list Z))) :
  forall bs, exists tail,
    fold_left (fun bs frame => Encoder.write_frame bs encoder frame) frames bs = bs ++ tail.
Proof.
  induction frames as [|frame frames IH]; intros bs; cbn [fold_left].
  - exists []. now rewrite app_nil_r.
  - destruct (write_frame_extends bs encoder frame) as [t1 ->].
    destruct (IH (bs ++ t1)) as [t2 ->]. rewrite <- app_assoc. eexists. reflexivity.
Qed.

(** [write_frameset] appends a whole number of bytes to a stream that holds
    a whole number of bytes. *)
Lemma write_frameset_extends (bs : BitstreamWriter) (encoder : Encoder.alac_context)
      (channels : list (list Z)) :
  alen_bits bs mod 8 = 0 ->
  exists tail,
    Encoder.write_frameset bs encoder channels = bs ++ tail
    /\ alen_bits tail mod 8 = 0 /\ 0 < alen_bits tail.
Proof.
  intros Hbs. unfold Encoder.write_frameset. cbv zeta.
  destruct (write_frames_extend encoder (Encoder.frameset_layout channels) bs) as [t ->].
  unfold bw_byte_align, bw_write. rewrite <- !app_assoc. eexists. split; [reflexivity|].
  unfold alen_bits in *. rewrite !length_app, !bits_msb_first_length, repeat_length.
  set (len := Z.of_nat (length bs + (length t + Z.to_nat 3))).
  pose proof (Z.mod_pos_bound (- len) 8 ltac:(lia)) as Hm.
  rewrite !Nat2Z.inj_add, Z2Nat.id by lia. change (Z.of_nat (Z.to_nat 3)) with 3.
  split; [|lia].
  assert (len = Z.of_nat (length bs) + (Z.of_nat (length t) + 3)) as Hlen by (subst len; lia).
  assert ((len + (- len) mod 8) mod 8 = 0) as H0.
  { rewrite Z.add_mod_idemp_r by lia. now replace (len + - len) with 0 by lia. }
  apply Z.mod_divide in H0; [|lia]. apply Z.mod_divide in Hbs; [|lia].
  destruct H0 as [q0 H0]. destruct Hbs as [q1 Hbs].
  apply Z.mod_divide; [lia|]. exists (q0 - q1). lia.
Qed.

Lemma sum_bytes_app (a b : list (Z * Z)) : sum_bytes (a ++ b) = sum_bytes a + sum_bytes b.
Proof.
  unfold sum_bytes. induction a as [|x a IH]; cbn [app map fold_right]; lia.
Qed.


Lemma encode_blocks_appends (encoder : Encoder.alac_context) (rounds : nat) :
  forall (pcmreader : Encoder.PCMReader) (output : BitstreamWriter)
         (frame_sizes : list (Z * Z)),
    alen_bits output mod 8 = 0 ->
    exists payload new_sizes pcmreader',
      Encoder.encode_blocks rounds encoder pcmreader output frame_sizes
      = (output ++ payload, new_sizes ++ frame_sizes, pcmreader')
      /\ alen_bits payload mod 8 = 0
      /\ Encoder.pcm_status_ok pcmreader' = Encoder.pcm_status_ok pcmreader
      /\ Forall (fun frame_size => 0 <= fst frame_size) new_sizes
      /\ (alen_bits payload < 8 * 2 ^ 32 -> 8 * sum_bytes new_sizes = alen_bits payload).
Proof.
  induction rounds as [|rounds IH]; intros pcmreader output frame_sizes Hout.
  - exists [], [], pcmreader. cbn [Encoder.encode_blocks]. rewrite app_nil_r.
    repeat split; auto.
  - cbn [Encoder.encode_blocks]. unfold Encoder.pcmreader_read. cbv zeta.
    match goal with |- context [if ?c then _ else _] => destruct c end.
    2:{ eexists [], [], _. rewrite app_nil_r. repeat split; auto. }
    cbn [Encoder.pcm_channels Encoder.pcm_samples].
    match goal with
    | |- context [Encoder.write_frameset output encoder ?ch] =>
        destruct (write_frameset_extends output encoder ch Hout) as (tail & -> & Ht & Htpos)
    end.
    assert (Hout' : alen_bits (output ++ tail) mod 8 = 0).
    { unfold alen_bits in *. rewrite length_app, Nat2Z.inj_add.
      rewrite Z.add_mod, Hout, Ht by lia. reflexivity. }
    match goal with
    | |- context [Encoder.encode_blocks rounds encoder ?r (output ++ tail) ?fs] =>
        destruct (IH r (output ++ tail) fs Hout')
          as (payload & sizes & reader' & -> & Hp & Hstatus & Hnonneg & Hsum)
    end.
    exists (tail ++ payload). eexists (sizes ++ [_]), reader'.
    rewrite <- !app_assoc. cbn [app]. split; [reflexivity|].
    assert (Hfbs : (alen_bits (output ++ tail) - alen_bits output) / 8 = alen_bits tail / 8).
    { f_equal. unfold alen_bits. rewrite length_app. lia. }
    rewrite Hfbs.
    pose proof (uint32_is_unsigned (alen_bits tail / 8)) as Hu. unfold is_unsigned in Hu.
    split; [|split; [exact Hstatus|split]].
    + unfold alen_bits in *. rewrite length_app, Nat2Z.inj_add.
      rewrite Z.add_mod, Ht, Hp by lia. reflexivity.
    + apply Forall_app. split; [exact Hnonneg|]. constructor; [cbn [fst]; lia|constructor].
    + intros Hlen. unfold alen_bits in *. rewrite length_app, Nat2Z.inj_add in *.
      rewrite sum_bytes_app. unfold sum_bytes at 2. cbn [map fold_right fst].
      apply Z.mod_divide in Ht; [|lia]. destruct Ht as [q Hq].
      rewrite Hq in *. rewrite Z.div_mul by lia.
      rewrite uint32_id by (unfold is_unsigned; lia).
      specialize (Hsum ltac:(lia)). lia.
Qed.

Lemma mdat_total (frame_sizes : list (Z * Z)) :
  forall total,
    0 <= total ->
    Forall (fun frame_size => 0 <= fst frame_size) frame_sizes ->
    total + sum_bytes frame_sizes < 2 ^ 32 ->
    fold_left (fun total frame_size => uint32 (total + fst frame_size)) frame_sizes total
    = total + sum_bytes frame_sizes.
Proof.
  induction frame_sizes as [|x l IH]; intros total Ht Hl Hsum.
  - unfold sum_bytes. cbn. lia.
  - inversion Hl as [|? ? Hx Hl']; subst. unfold sum_bytes in *.
    cbn [fold_left map fold_right] in *.
    assert (0 <= fold_right Z.add 0 (map fst l)).
    { clear -Hl'. induction Hl' as [|y l Hy _ IHl]; cbn [map fold_right]; lia. }
    rewrite uint32_id by (unfold is_unsigned; lia).
    rewrite IH by (assumption || lia). lia.
Qed.



(** ** What the decoder refuses *)

Lemma br_read_3 (b2 b1 b0 : bool) (rest : list bool) (pos : Z) :
  br_read 3 (mkReader (b2 :: b1 :: b0 :: rest) pos)
  = ok (4 * Z.b2z b2 + 2 * Z.b2z b1 + Z.b2z b0) (mkReader rest (pos + 3)).
Proof. destruct b2, b1, b0; reflexivity. Qed.

(** The three bits a frame starts with give its channel count less one.
    [decode_frameset] refuses a count of 3 to 7 channels, and a count of 1
    or 2 that the channels of the stream do not leave room for, before it
    reads anything else; a stream of less than three bits is a read error. *)
Theorem decode_frameset_channel_count (self : Decoder.decoders_ALACDecoder)
        (b2 b1 b0 : bool) (rest : list bool) (pos : Z) :
  let count := 4 * Z.b2z b2 + 2 * Z.b2z b1 + Z.b2z b0 + 1 in
  (3 <= count <= 7 ->
   Decoder.decode_frameset self (mkReader (b2 :: b1 :: b0 :: rest) pos)
   = failed INVALID_FRAME_CHANNEL_COUNT)
  /\ (count <= 2 -> Decoder.channels self < count ->
      Decoder.decode_frameset self (mkReader (b2 :: b1 :: b0 :: rest) pos)
      = failed EXCESSIVE_FRAME_CHANNEL_COUNT)
  /\ Decoder.decode_frameset self (mkReader [] pos) = io_error
  /\ Decoder.decode_frameset self (mkReader [b2] pos) = io_error
  /\ Decoder.decode_frameset self (mkReader [b2; b1] pos) = io_error.
Proof.
  cbv zeta. unfold Decoder.decode_frameset.
  replace (Z.to_nat (Decoder.channels self) + 1)%nat
    with (Datatypes.S (Z.to_nat (Decoder.channels self))) by lia.
  split; [|split; [|repeat split]].
  - intros Hc. erewrite bind_ok by apply br_read_3.
    cbn [Decoder.decode_frames Decoder.fs_channels Decoder.fs_c].
    destruct b2, b1, b0; cbn [Z.b2z] in Hc; try lia; reflexivity.
  - intros Hc Hch. erewrite bind_ok by apply br_read_3.
    cbn [Decoder.decode_frames Decoder.fs_channels Decoder.fs_c].
    set (count := 4 * Z.b2z b2 + 2 * Z.b2z b1 + Z.b2z b0 + 1) in *.
    assert (count = 1 \/ count = 2) as Hcount
        by (subst count; destruct b2, b1, b0; cbn [Z.b2z]; cbn [Z.b2z] in Hc; lia).
    replace (negb (count =? 8)) with true by (destruct Hcount as [-> | ->]; reflexivity).
    replace (negb (count =? 1) && negb (count =? 2)) with false
      by (destruct Hcount as [-> | ->]; reflexivity).
    replace (0 + count >? Decoder.channels self) with true
      by (symmetry; apply Z.gtb_lt; lia).
    reflexivity.
Qed.

Lemma decode_frameset_channel_count_witness :
  (3 <= 4 * Z.b2z true + 2 * Z.b2z false + Z.b2z true + 1 <= 7 ->
   Decoder.decode_frameset (decoder10 1 16) (mkReader (true :: false :: true :: []) 0)
   = failed INVALID_FRAME_CHANNEL_COUNT)
  /\ (4 * Z.b2z true + 2 * Z.b2z false + Z.b2z true + 1 <= 2 ->
      Decoder.channels (decoder10 1 16)
      < 4 * Z.b2z true + 2 * Z.b2z false + Z.b2z true + 1 ->
      Decoder.decode_frameset (decoder10 1 16) (mkReader (true :: false :: true :: []) 0)
      = failed EXCESSIVE_FRAME_CHANNEL_COUNT)
  /\ Decoder.decode_frameset (decoder10 1 16) (mkReader [] 0) = io_error
  /\ Decoder.decode_frameset (decoder10 1 16) (mkReader [true] 0) = io_error
  /\ Decoder.decode_frameset (decoder10 1 16) (mkReader [true; false] 0) = io_error.
Proof. exact (decode_frameset_channel_count (decoder10 1 16) true false true [] 0). Defined.

(** A frame whose header carries a sample count above the block size of the
    stream is refused, whatever follows. *)
Theorem decode_frame_block_size (params : Decoder.alac_parameters)
        (bits_per_sample channels unused uncompressed_LSBs not_uncompressed n : Z)
        (rest : list bool) (pos : Z) :
  0 <= n < 2 ^ 32 -> Decoder.block_size params < n ->
  Decoder.decode_frame params bits_per_sample channels
    (mkReader (bits_msb_first 16 unused ++ [true]
               ++ bits_msb_first 2 uncompressed_LSBs
               ++ bits_msb_first 1 not_uncompressed
               ++ bits_msb_first 32 n ++ rest) pos)
  = failed INVALID_BLOCK_SIZE.
Proof.
  intros Hn Hbs. unfold Decoder.decode_frame.
  erewrite bind_ok by (apply (br_skip_written 16 unused); lia).
  erewrite bind_ok by (apply br_read_bit). cbn [Z.b2z app].
  erewrite bind_ok by (apply (br_read_written 2 uncompressed_LSBs); lia).
  erewrite bind_ok by (apply (br_read_written 1 not_uncompressed); lia).
  change (1 =? 0) with false. cbv iota.
  assert (Hsize : (n0 <- br_read 32 ;;
                   if n0 >? Decoder.block_size params
                   then Decoder.fail INVALID_BLOCK_SIZE else ret n0)
                    (mkReader (bits_msb_first 32 n ++ rest) (pos + 16 + 1 + 2 + 1))
                  = failed INVALID_BLOCK_SIZE).
  { erewrite bind_ok by (apply (br_read_written 32 n); lia).
    rewrite Z.mod_small by lia. rewrite uint32_id by (unfold is_unsigned; lia).
    destruct (n >? Decoder.block_size params) eqn:E; zbool; [reflexivity|lia]. }
  unfold bind at 1. now rewrite Hsize.
Qed.

Lemma decode_frame_block_size_witness :
  Decoder.decode_frame default_parameters 16 1
    (mkReader (bits_msb_first 16 0 ++ [true]
               ++ bits_msb_first 2 0
               ++ bits_msb_first 1 1
               ++ bits_msb_first 32 5000 ++ []) 3)
  = failed INVALID_BLOCK_SIZE.
Proof.
  apply (decode_frame_block_size default_parameters 16 1 0 0 1 5000 [] 3).
  - vm_compute. split; [discriminate|reflexivity].
  - reflexivity.
Defined.

(** ** The first samples of a subframe *)

Lemma decode_subframe_warm_up (block_size : Z) (header : Decoder.subframe_header)
      (residuals : list Z) :
  0 <= Decoder.coeff_count header ->
  let subframe := Decoder.decode_subframe block_size header residuals in
  subframe.[0] = residuals.[0]
  /\ forall i, 1 <= i <= Decoder.coeff_count header ->
               subframe.[i] = int32 (residuals.[i] + subframe.[i - 1]).
Proof.
  intros Hc. cbv zeta. unfold Decoder.decode_subframe. cbv zeta.
  set (warm := for_loop 1 (Decoder.coeff_count header + 1) _ _).
  assert (Hwarm : alen warm = Decoder.coeff_count header + 1
                  /\ warm.[0] = residuals.[0]
                  /\ forall i, 1 <= i < Decoder.coeff_count header + 1 ->
                               warm.[i] = int32 (residuals.[i] + warm.[i - 1])).
  { subst warm.
    apply (for_loop_ind
             (fun k (l : list Z) =>
                alen l = k /\ l.[0] = residuals.[0]
                /\ forall i, 1 <= i < k -> l.[i] = int32 (residuals.[i] + l.[i - 1]))).
    - lia.
    - split; [reflexivity|]. split; [reflexivity|]. intros; lia.
    - intros k l Hk (Hlen & H0 & Hrec). split; [|split].
      + rewrite alen_app. unfold alen at 2. cbn [length]. lia.
      + rewrite get_app_l by lia. exact H0.
      + intros i Hi. destruct (Z.eq_dec i k) as [->|Hne].
        * rewrite get_app_last' by exact Hlen. now rewrite get_app_l by lia.
        * rewrite !get_app_l by lia. apply Hrec. lia. }
  destruct Hwarm as (Hlen & H0 & Hrec).
  set (final := fst (for_loop _ block_size _ _)).
  assert (Hkeep : forall idx, 0 <= idx < alen warm -> final.[idx] = warm.[idx]).
  { subst final.
    destruct (Z_le_dec (Decoder.coeff_count header + 1) block_size) as [Hle|Hgt].
    - match goal with
      | |- context [for_loop ?lo ?hi ?body ?s] =>
          destruct (for_loop_keeps fst lo hi body s Hle) as [_ H]
      end.
      + intros i [subframe coeff] _. eexists. reflexivity.
      + exact H.
    - intros idx _. now rewrite for_loop_empty by lia. }
  split.
  - rewrite Hkeep by lia. exact H0.
  - intros i Hi. rewrite !Hkeep by lia. apply Hrec. lia.
Qed.

Lemma calculate_residuals_warm_up (sample_size sample_count : Z) (samples : list Z)
      (order : Z) (qlp_coefficients : list Z) :
  0 <= order < 31 -> order < sample_count ->
  let residuals :=
    Encoder.calculate_residuals sample_size sample_count samples order qlp_coefficients in
  residuals.[0] = samples.[0]
  /\ forall i, 1 <= i <= order ->
               residuals.[i]
               = Encoder.TRUNCATE_BITS (int32 (samples.[i] - samples.[i - 1])) sample_size.
Proof.
  intros Ho Hn. cbv zeta. unfold Encoder.calculate_residuals. cbv zeta.
  destruct (order <? 31) eqn:E; zbool; [|lia].
  set (warm := for_loop 1 (order + 1) _ _).
  assert (Hwarm : alen warm = order + 1
                  /\ warm.[0] = samples.[0]
                  /\ forall i, 1 <= i < order + 1 ->
                               warm.[i]
                               = Encoder.TRUNCATE_BITS (int32 (samples.[i] - samples.[i - 1]))
                                                       sample_size).
  { subst warm.
    apply (for_loop_ind
             (fun k (l : list Z) =>
                alen l = k /\ l.[0] = samples.[0]
                /\ forall i, 1 <= i < k ->
                             l.[i] = Encoder.TRUNCATE_BITS
                                       (int32 (samples.[i] - samples.[i - 1])) sample_size)).
    - lia.
    - split; [reflexivity|]. split; [reflexivity|]. intros; lia.
    - intros k l Hk (Hlen & H0 & Hrec). split; [|split].
      + rewrite alen_app. unfold alen at 2. cbn [length]. lia.
      + rewrite get_app_l by lia. exact H0.
      + intros i Hi. destruct (Z.eq_dec i k) as [->|Hne].
        * now rewrite get_app_last' by exact Hlen.
        * rewrite get_app_l by lia. apply Hrec. lia. }
  destruct Hwarm as (Hlen & H0 & Hrec).
  match goal with
  | |- context [for_loop ?lo ?hi ?body ?s] =>
      destruct (for_loop_keeps fst lo hi body s ltac:(lia)) as [_ Hkeep]
  end.
  { intros i [residuals coefficients] _. eexists. reflexivity. }
  cbn [fst] in Hkeep. split.
  - rewrite Hkeep by lia. exact H0.
  - intros i Hi. rewrite Hkeep by lia. apply Hrec. lia.
Qed.

Lemma first_difference_kept (sample_size a b : Z) :
  1 <= sample_size <= 31 -> fits_signed 31 a -> fits_signed 31 b ->
  int32 (Encoder.TRUNCATE_BITS (int32 (a - b)) sample_size + b) = a
  <-> fits_signed sample_size (a - b).
Proof.
  intros Hss Ha Hb. unfold fits_signed in *.
  change (2 ^ (31 - 1)) with (2 ^ 30) in *.
  assert (2 ^ (sample_size - 1) <= 2 ^ 30) by (apply Z.pow_le_mono_r; lia).
  rewrite (int32_id (a - b)) by (unfold is_int; lia).
  pose proof (TRUNCATE_BITS_range_small (a - b) sample_size Hss) as Hr.
  split.
  - intros Heq. rewrite int32_id in Heq by (unfold is_int; lia).
    replace (a - b) with (Encoder.TRUNCATE_BITS (a - b) sample_size) by lia. exact Hr.
  - intros Hd. rewrite TRUNCATE_BITS_fits by (assumption || exact Hd).
    replace (a - b + b) with a by lia. apply int32_id. unfold is_int. lia.
Qed.

(** The first [order + 1] samples of a subframe are coded as first
    differences cut to [sample_size] bits, and decoded by adding the
    residuals up without cutting: they come back exactly when every one of
    these differences fits [sample_size] bits. *)
Theorem warm_up_round_trip (sample_size block_size : Z) (samples : list Z)
        (qlp_coefficients : list Z) (header : Decoder.subframe_header) :
  let order := Decoder.coeff_count header in
  let decoded :=
    Decoder.decode_subframe block_size header
      (Encoder.calculate_residuals sample_size block_size samples order qlp_coefficients) in
  1 <= sample_size <= 31 -> 0 <= order < 31 -> order < block_size ->
  Forall (fits_signed 31) samples ->
  (forall i, 0 <= i <= order -> decoded.[i] = samples.[i])
  <-> (forall i, 1 <= i <= order -> fits_signed sample_size (samples.[i] - samples.[i - 1])).
Proof.
  intros order decoded Hss Ho Hn Hfit.
  destruct (decode_subframe_warm_up block_size header
              (Encoder.calculate_residuals sample_size block_size samples order
                 qlp_coefficients) ltac:(lia)) as [D0 Drec].
  destruct (calculate_residuals_warm_up sample_size block_size samples order
              qlp_coefficients Ho Hn) as [R0 Rrec].
  fold decoded in D0, Drec. fold order in Drec.
  assert (Hs : forall i, fits_signed 31 samples.[i]).
  { intros i. destruct (Z_lt_dec i 0) as [Hneg|Hpos].
    - unfold get. destruct (i <? 0) eqn:E; zbool; [|lia]. vm_compute. split; [discriminate|reflexivity].
    - destruct (Z_lt_dec i (alen samples)) as [Hin|Hout].
      + apply Forall_get; [exact Hfit|lia].
      + rewrite get_out_of_range by lia. vm_compute. split; [discriminate|reflexivity]. }
  split.
  - intros Hdec i Hi.
    apply (proj1 (first_difference_kept sample_size samples.[i] samples.[i - 1] Hss
                    (Hs _) (Hs _))).
    rewrite <- Rrec by exact Hi. rewrite <- (Hdec (i - 1)) by lia.
    rewrite <- Drec by exact Hi. apply Hdec. lia.
  - intros Hdiff i Hi.
    assert (forall k : nat, Z.of_nat k <= order ->
                            decoded.[Z.of_nat k] = samples.[Z.of_nat k]) as Hk.
    { induction k as [|k IH]; intros Hle.
      - cbn [Z.of_nat]. now rewrite D0, R0.
      - rewrite Drec by lia.
        replace (Z.of_nat (Datatypes.S k) - 1) with (Z.of_nat k) by lia.
        rewrite IH by lia. rewrite Rrec by lia.
        replace (Z.of_nat (Datatypes.S k) - 1) with (Z.of_nat k) by lia.
        apply (proj2 (first_difference_kept sample_size samples.[Z.of_nat (Datatypes.S k)]
                        samples.[Z.of_nat k] Hss (Hs _) (Hs _))).
        replace (Z.of_nat k) with (Z.of_nat (Datatypes.S k) - 1) by lia.
        apply Hdiff. lia. }
    specialize (Hk (Z.to_nat i)). rewrite Z2Nat.id in Hk by lia. apply Hk. lia.
Qed.

(** Two 16-bit samples that are 65535 apart: the second does not come back. *)
Lemma warm_up_round_trip_witness :
  (forall i, 0 <= i <= Decoder.coeff_count fibonacci10_header ->
             (Decoder.decode_subframe 10 fibonacci10_header
                (Encoder.calculate_residuals 16 10 [-32768; 32767; 0; 0; 0; 0; 0; 0; 0; 0]
                   (Decoder.coeff_count fibonacci10_header) [0; 0; 0; 0])).[i]
             = [-32768; 32767; 0; 0; 0; 0; 0; 0; 0; 0].[i])
  <-> (forall i, 1 <= i <= Decoder.coeff_count fibonacci10_header ->
                 fits_signed 16 ([-32768; 32767; 0; 0; 0; 0; 0; 0; 0; 0].[i]
                                 - [-32768; 32767; 0; 0; 0; 0; 0; 0; 0; 0].[i - 1])).
Proof.
  apply (warm_up_round_trip 16 10 [-32768; 32767; 0; 0; 0; 0; 0; 0; 0; 0] [0; 0; 0; 0]
           fibonacci10_header).
  - vm_compute. split; discriminate.
  - vm_compute. split; [discriminate|reflexivity].
  - reflexivity.
  - repeat constructor; vm_compute; discriminate.
Defined.

(** Whatever its coefficients, a subframe starts with the running sums of
    its first [coeff_count + 1] residuals, in [int] arithmetic. *)
Theorem decode_subframe_running_sums (block_size : Z) (header : Decoder.subframe_header)
        (residuals : list Z) :
  0 <= Decoder.coeff_count header ->
  (Decoder.decode_subframe block_size header residuals).[0] = residuals.[0]
  /\ forall i, 1 <= i <= Decoder.coeff_count header ->
               (Decoder.decode_subframe block_size header residuals).[i]
               = int32 (residuals.[i]
                        + (Decoder.decode_subframe block_size header residuals).[i - 1]).
Proof. intros Hc. now apply decode_subframe_warm_up. Qed.

Lemma decode_subframe_running_sums_witness :
  (Decoder.decode_subframe 10 fibonacci10_header fibonacci10_residuals).[0]
  = fibonacci10_residuals.[0]
  /\ forall i, 1 <= i <= Decoder.coeff_count fibonacci10_header ->
               (Decoder.decode_subframe 10 fibonacci10_header fibonacci10_residuals).[i]
               = int32 (fibonacci10_residuals.[i]
                        + (Decoder.decode_subframe 10 fibonacci10_header
                             fibonacci10_residuals).[i - 1]).
Proof.
  apply (decode_subframe_running_sums 10 fibonacci10_header fibonacci10_residuals).
  vm_compute. discriminate.
Defined.

(** ** When the residual coder gives up *)

Lemma bounded_search (P : Z -> Prop) (n : nat) :
  (forall j, {P j} + {~ P j}) ->
  (exists j, 0 <= j < Z.of_nat n /\ P j) \/ (forall j, 0 <= j < Z.of_nat n -> ~ P j).
Proof.
  intros Hdec. induction n as [|n IH].
  - right. intros j Hj. lia.
  - destruct IH as [(j & Hj & HP)|Hnone].
    + left. exists j. split; [lia|exact HP].
    + destruct (Hdec (Z.of_nat n)) as [HP|HP].
      * left. exists (Z.of_nat n). split; [lia|exact HP].
      * right. intros j Hj. destruct (Z.eq_dec j (Z.of_nat n)) as [->|Hne]; [exact HP|].
        apply Hnone. lia.
Qed.

(** ** The Rice parameters of the encoder *)

(** [k = LOG2((history >> 9) + 3); k = MIN(k, maximum_k);] *)
Definition residual_k (encoder : Encoder.alac_context) (history : Z) : Z :=
  MIN (Encoder.LOG2 (int32 (Z.shiftr history 9 + 3)))
      (uint32 (Encoder.maximum_k (Encoder.options encoder))).

(** [history += ((int)(unsigned_i * history_multiplier) -
                 ((history * (int)history_multiplier) >> 9));] *)
Definition next_history (encoder : Encoder.alac_context) (history unsigned_i : Z) : Z :=
  int32 (history
         + (int32 (uint32 (unsigned_i
                           * uint32 (Encoder.history_multiplier (Encoder.options encoder))))
            - Z.shiftr
                (int32 (history
                        * int32 (uint32 (Encoder.history_multiplier
                                           (Encoder.options encoder))))) 9)).

(** [k = 7 - LOG2(history) + ((history + 16) >> 6); k = MIN(k, maximum_k);] *)
Definition zero_run_k (encoder : Encoder.alac_context) (history : Z) : Z :=
  MIN (uint32 (7 - Encoder.LOG2 history + Z.shiftr (int32 (history + 16)) 6))
      (uint32 (Encoder.maximum_k (Encoder.options encoder))).

(** These are the parameters of a round of [encode_residuals]. *)
Lemma encode_residual_step_parameters (encoder : Encoder.alac_context)
      (sample_size residual_count : Z) (residuals : list Z) (st : Encoder.residual_coder) :
  Encoder.encode_residual_step encoder sample_size residual_count residuals st
  = let i := Encoder.rc_i st in
    let history := Encoder.rc_history st in
    let unsigned_i := Encoder.unsigned_residual residuals.[i] in
    if unsigned_i >=? Encoder.max_unsigned sample_size then Encoder.residual_overflow
    else
      let block :=
        Encoder.write_residual (Encoder.rc_block st)
                               (uint32 (unsigned_i - Encoder.rc_sign_modifier st))
                               (residual_k encoder history) sample_size in
      if unsigned_i <=? 65535 then
        let history := next_history encoder history unsigned_i in
        if Encoder.zero_run_follows history (i + 1) residual_count then
          let '(i, zeroes) :=
            Encoder.count_zeroes (Z.to_nat (residual_count - (i + 1))) residual_count
                                 residuals (i + 1) 0 in
          Encoder.returns
            {| Encoder.rc_i := i; Encoder.rc_history := 0;
               Encoder.rc_sign_modifier := Encoder.sign_modifier_after_run zeroes;
               Encoder.rc_block :=
                 Encoder.write_residual block zeroes (zero_run_k encoder history) 16 |}
        else
          Encoder.returns
            {| Encoder.rc_i := i + 1; Encoder.rc_history := history;
               Encoder.rc_sign_modifier := 0; Encoder.rc_block := block |}
      else
        Encoder.returns
          {| Encoder.rc_i := i + 1; Encoder.rc_history := 65535;
             Encoder.rc_sign_modifier := 0; Encoder.rc_block := block |}.
Proof.
  unfold Encoder.encode_residual_step, residual_k, next_history, zero_run_k.
  cbv zeta. reflexivity.
Qed.

(** What the C code of a round needs to be defined, when the round codes
    its residual: a positive argument for each [LOG2] (its [assert]) and a
    [k] of 1 and more for each [write_residual] (its divisor
    [(1 << k) - 1]). *)
Definition round_defined (encoder : Encoder.alac_context)
           (sample_size residual_count : Z) (residuals : list Z)
           (st : Encoder.residual_coder) : Prop :=
  let history := Encoder.rc_history st in
  let unsigned_i := Encoder.unsigned_residual residuals.[Encoder.rc_i st] in
  unsigned_i < Encoder.max_unsigned sample_size ->
  0 < uint32 (int32 (Z.shiftr history 9 + 3))
  /\ 1 <= residual_k encoder history
  /\ (unsigned_i <= 65535 ->
      Encoder.zero_run_follows (next_history encoder history unsigned_i)
                               (Encoder.rc_i st + 1) residual_count = true ->
      0 < uint32 (next_history encoder history unsigned_i)
      /\ 1 <= zero_run_k encoder (next_history encoder history unsigned_i)).

(** Every round of [encode_residuals_loop] is defined, up to the one that
    raises. *)
Fixpoint rounds_defined (rounds : nat) (encoder : Encoder.alac_context)
         (sample_size residual_count : Z) (residuals : list Z)
         (st : Encoder.residual_coder) : Prop :=
  match rounds with
  | O => True
  | S r =>
      if Encoder.rc_i st <? residual_count then
        round_defined encoder sample_size residual_count residuals st
        /\ match Encoder.encode_residual_step encoder sample_size residual_count
                                              residuals st with
           | Encoder.returns st' =>
               rounds_defined r encoder sample_size residual_count residuals st'
           | Encoder.residual_overflow => True
           end
      else True
  end.

Definition encode_residuals_defined (encoder : Encoder.alac_context)
           (sample_size residual_count : Z) (residuals : list Z) : Prop :=
  forall residual_block,
    rounds_defined (Z.to_nat residual_count) encoder sample_size residual_count residuals
      {| Encoder.rc_i := 0;
         Encoder.rc_history := int32 (Encoder.initial_history (Encoder.options encoder));
         Encoder.rc_sign_modifier := 0;
         Encoder.rc_block := residual_block |}.

Lemma encoder_LOG2_value (value : Z) :
  0 < value < 2 ^ 32 -> Encoder.LOG2 value = Z.log2 value.
Proof.
  intros Hv. unfold Encoder.LOG2.
  rewrite (uint32_id value) by (unfold is_unsigned; lia).
  rewrite (encoder_LOG2_loop 32) by (change (2 ^ Z.of_nat 32) with (2 ^ 32); lia).
  pose proof (Z.log2_nonneg value).
  assert (Z.log2 value < 32) by (apply Z.log2_lt_pow2; lia).
  replace (0 + Z.log2 value + 1 - 1) with (Z.log2 value) by lia.
  apply uint32_id. unfold is_unsigned. lia.
Qed.

Lemma unsigned_residual_positive (r : Z) :
  is_int r -> r <> 0 -> 1 <= Encoder.unsigned_residual r.
Proof.
  unfold is_int, Encoder.unsigned_residual. intros Hr Hne.
  change (2 ^ 31) with 2147483648 in Hr.
  destruct (r >=? 0) eqn:E; zbool.
  - unfold shl32. change (32 <=? 1) with false. cbv iota.
    rewrite Z.shiftl_mul_pow2 by lia.
    change (2 ^ 1) with 2.
    unfold int32, uint32. change (2 ^ 31) with 2147483648.
    change (2 ^ 32) with 4294967296.
    pose proof (Z.mod_pos_bound (r * 2 + 2147483648) 4294967296 ltac:(lia)).
    destruct (Z_lt_dec r 1073741824).
    + rewrite (Z.mod_small (r * 2 + 2147483648)) by lia.
      rewrite Z.mod_small; lia.
    + replace (r * 2 + 2147483648) with (r * 2 - 2147483648 + 1 * 4294967296) by lia.
      rewrite Z.mod_add by lia. rewrite (Z.mod_small (r * 2 - 2147483648)) by lia.
      replace (r * 2 - 2147483648 - 2147483648) with (r * 2 + (-1) * 4294967296) by lia.
      rewrite Z.mod_add by lia. rewrite Z.mod_small; lia.
  - destruct (Z.eq_dec r (- 2147483648)) as [->|Hmin]; [vm_compute; discriminate|].
    rewrite (int32_id (- r)) by (unfold is_int; change (2 ^ 31) with 2147483648; lia).
    unfold shl32. change (32 <=? 1) with false. cbv iota.
    rewrite Z.shiftl_mul_pow2 by lia.
    change (2 ^ 1) with 2.
    assert (Hu : uint32 (int32 (- r * 2)) = - r * 2).
    { unfold int32, uint32. change (2 ^ 31) with 2147483648.
      change (2 ^ 32) with 4294967296.
      destruct (Z_lt_dec (- r) 1073741824).
      - rewrite (Z.mod_small (- r * 2 + 2147483648)) by lia. rewrite Z.mod_small; lia.
      - replace (- r * 2 + 2147483648) with (- r * 2 - 2147483648 + 1 * 4294967296) by lia.
        rewrite Z.mod_add by lia. rewrite (Z.mod_small (- r * 2 - 2147483648)) by lia.
        replace (- r * 2 - 2147483648 - 2147483648)
          with (- r * 2 + (-1) * 4294967296) by lia.
        rewrite Z.mod_add by lia. rewrite Z.mod_small; lia. }
    rewrite Hu. rewrite uint32_id by (unfold is_unsigned; change (2 ^ 32) with 4294967296; lia).
    lia.
Qed.

Section RiceParameters.

Variable encoder : Encoder.alac_context.
Hypothesis Hoptions : coder_options_in_range encoder.

Lemma residual_k_positive (history : Z) :
  0 <= history <= 2 ^ 25 ->
  0 < uint32 (int32 (Z.shiftr history 9 + 3)) /\ 1 <= residual_k encoder history.
Proof.
  intros Hh. destruct Hoptions as (_ & _ & Hk). unfold residual_k.
  rewrite Z.shiftr_div_pow2 by lia. change (2 ^ 9) with 512.
  change (2 ^ 25) with 33554432 in Hh.
  assert (0 <= history / 512 <= 65536) as Hq.
  { split; [apply Z.div_pos; lia|apply Z.div_le_upper_bound; lia]. }
  rewrite int32_id by (unfold is_int; change (2 ^ 31) with 2147483648; lia).
  rewrite (uint32_id (history / 512 + 3))
    by (unfold is_unsigned; change (2 ^ 32) with 4294967296; lia).
  rewrite (uint32_id (Encoder.maximum_k _)) by (unfold is_unsigned; lia).
  split; [lia|].
  rewrite encoder_LOG2_value by (change (2 ^ 32) with 4294967296; lia).
  assert (1 <= Z.log2 (history / 512 + 3)).
  { apply Z.log2_le_pow2; [lia|]. change (2 ^ 1) with 2. lia. }
  unfold MIN. destruct (_ <? _); lia.
Qed.

Lemma next_history_range (history unsigned_i : Z) :
  0 <= history <= 2 ^ 25 -> 0 <= unsigned_i <= 65535 ->
  1 <= history \/ 1 <= unsigned_i ->
  1 <= next_history encoder history unsigned_i <= 2 ^ 25.
Proof.
  intros Hh Hu Hpos. destruct Hoptions as (_ & Hm & _). unfold next_history.
  set (m := Encoder.history_multiplier (Encoder.options encoder)) in *.
  change (2 ^ 25) with 33554432 in *.
  rewrite (uint32_id m) by (unfold is_unsigned; change (2 ^ 32) with 4294967296; lia).
  rewrite (int32_id m) by (unfold is_int; change (2 ^ 31) with 2147483648; lia).
  rewrite (uint32_id (unsigned_i * m))
    by (unfold is_unsigned; change (2 ^ 32) with 4294967296; nia).
  rewrite (int32_id (unsigned_i * m))
    by (unfold is_int; change (2 ^ 31) with 2147483648; nia).
  rewrite (int32_id (history * m))
    by (unfold is_int; change (2 ^ 31) with 2147483648; nia).
  rewrite Z.shiftr_div_pow2 by lia. change (2 ^ 9) with 512.
  pose proof (Z.div_mod (history * m) 512 ltac:(lia)) as Hdm.
  pose proof (Z.mod_pos_bound (history * m) 512 ltac:(lia)) as Hmod.
  set (q := history * m / 512) in *.
  assert (0 <= q) by (subst q; apply Z.div_pos; nia).
  assert (Hrange : 1 <= history + (unsigned_i * m - q) <= 33554432) by nia.
  rewrite int32_id by (unfold is_int; change (2 ^ 31) with 2147483648; lia).
  exact Hrange.
Qed.

Lemma zero_run_k_positive (history : Z) :
  1 <= history < 128 ->
  0 < uint32 history /\ 1 <= zero_run_k encoder history.
Proof.
  intros Hh. destruct Hoptions as (_ & _ & Hk). unfold zero_run_k.
  rewrite (uint32_id history)
    by (unfold is_unsigned; change (2 ^ 32) with 4294967296; lia).
  split; [lia|].
  rewrite encoder_LOG2_value by (change (2 ^ 32) with 4294967296; lia).
  rewrite int32_id by (unfold is_int; change (2 ^ 31) with 2147483648; lia).
  rewrite Z.shiftr_div_pow2 by lia. change (2 ^ 6) with 64.
  assert (0 <= Z.log2 history < 7).
  { split; [apply Z.log2_nonneg|apply Z.log2_lt_pow2; [lia|change (2 ^ 7) with 128; lia]]. }
  assert (0 <= (history + 16) / 64 < 3).
  { split; [apply Z.div_pos; lia|apply Z.div_lt_upper_bound; lia]. }
  rewrite (uint32_id (7 - _ + _))
    by (unfold is_unsigned; change (2 ^ 32) with 4294967296; lia).
  rewrite (uint32_id (Encoder.maximum_k _)) by (unfold is_unsigned; lia).
  unfold MIN. destruct (_ <? _); lia.
Qed.

Variables (sample_size residual_count : Z) (residuals : list Z).
Hypothesis Hresiduals : Forall is_int residuals.

Lemma count_zeroes_stops (rounds : nat) :
  forall i zeroes i' zeroes',
    residual_count - i <= Z.of_nat rounds ->
    Encoder.count_zeroes rounds residual_count residuals i zeroes = (i', zeroes') ->
    i' < residual_count -> residuals.[i'] <> 0.
Proof.
  induction rounds as [|rounds IH]; intros i zeroes i' zeroes' Hr H Hi';
    cbn [Encoder.count_zeroes] in H.
  - injection H as <- <-. lia.
  - destruct ((i <? residual_count) && (residuals.[i] =? 0)) eqn:E.
    + apply (IH (i + 1) (uint32 (zeroes + 1)) i' zeroes'); [lia|exact H|exact Hi'].
    + injection H as <- <-. apply andb_false_iff in E. destruct E as [E|E]; zbool; lia.
Qed.

(** The history at the head of a round: positive, or 0 after a run of
    zeroes, and then the residual to code is not 0. *)
Definition history_in_range (st : Encoder.residual_coder) : Prop :=
  1 <= Encoder.rc_history st <= 2 ^ 25
  \/ (Encoder.rc_history st = 0
      /\ (Encoder.rc_i st < residual_count -> residuals.[Encoder.rc_i st] <> 0)).

Lemma round_is_defined (st : Encoder.residual_coder) :
  history_in_range st -> Encoder.rc_i st < residual_count ->
  round_defined encoder sample_size residual_count residuals st.
Proof.
  intros Hinv Hi. unfold round_defined. cbv zeta. intros Hu.
  pose proof (unsigned_residual_nonneg residuals.[Encoder.rc_i st]) as Hu0.
  assert (Hh : 0 <= Encoder.rc_history st <= 2 ^ 25)
    by (destruct Hinv as [H|[-> _]]; [lia|change (2 ^ 25) with 33554432; lia]).
  destruct (residual_k_positive _ Hh) as [H1 H2].
  split; [exact H1|]. split; [exact H2|].
  intros Hsmall Hrun.
  assert (Hnext : 1 <= next_history encoder (Encoder.rc_history st)
                         (Encoder.unsigned_residual residuals.[Encoder.rc_i st])
                  <= 2 ^ 25).
  { apply next_history_range; [exact Hh|lia|].
    destruct Hinv as [H|[_ Hne]]; [left; lia|right].
    apply unsigned_residual_positive; [now apply get_is_int|now apply Hne]. }
  unfold Encoder.zero_run_follows in Hrun. apply andb_true_iff in Hrun.
  destruct Hrun as [Hrun _]. zbool.
  apply zero_run_k_positive. lia.
Qed.

Lemma round_keeps_range (st st' : Encoder.residual_coder) :
  history_in_range st -> Encoder.rc_i st < residual_count ->
  Encoder.encode_residual_step encoder sample_size residual_count residuals st
  = Encoder.returns st' ->
  history_in_range st'.
Proof.
  intros Hinv Hi. rewrite encode_residual_step_parameters. cbv zeta.
  pose proof (unsigned_residual_nonneg residuals.[Encoder.rc_i st]) as Hu0.
  assert (Hh : 0 <= Encoder.rc_history st <= 2 ^ 25)
    by (destruct Hinv as [H|[-> _]]; [lia|change (2 ^ 25) with 33554432; lia]).
  destruct (_ >=? _); [discriminate|].
  destruct (_ <=? 65535) eqn:Es; zbool.
  - assert (Hnext : 1 <= next_history encoder (Encoder.rc_history st)
                           (Encoder.unsigned_residual residuals.[Encoder.rc_i st])
                    <= 2 ^ 25).
    { apply next_history_range; [exact Hh|lia|].
      destruct Hinv as [H|[_ Hne]]; [left; lia|right].
      apply unsigned_residual_positive; [now apply get_is_int|now apply Hne]. }
    destruct (Encoder.zero_run_follows _ _ _).
    + destruct (Encoder.count_zeroes _ _ _ _ _) as [i' zeroes] eqn:Ec.
      intros H. injection H as <-. right. cbn [Encoder.rc_history Encoder.rc_i].
      split; [reflexivity|].
      apply (count_zeroes_stops _ _ _ _ _) with (2 := Ec). lia.
    + intros H. injection H as <-. left. exact Hnext.
  - intros H. injection H as <-. left. cbn [Encoder.rc_history].
    change (2 ^ 25) with 33554432. lia.
Qed.

Lemma rounds_are_defined (rounds : nat) :
  forall st, history_in_range st ->
             rounds_defined rounds encoder sample_size residual_count residuals st.
Proof.
  induction rounds as [|rounds IH]; intros st Hinv; [exact I|].
  cbn [rounds_defined]. destruct (Encoder.rc_i st <? residual_count) eqn:E; zbool; [|exact I].
  split; [now apply round_is_defined|].
  destruct (Encoder.encode_residual_step encoder sample_size residual_count residuals st)
    as [st'|] eqn:Estep; [|exact I].
  apply IH. now apply (round_keeps_range st).
Qed.

(** With options in range, [encode_residuals] over an array of [int]
    residuals never takes the [LOG2] of 0 and never divides by 0. *)
Lemma encode_residuals_is_defined :
  encode_residuals_defined encoder sample_size residual_count residuals.
Proof.
  intros residual_block. apply rounds_are_defined. left. cbn [Encoder.rc_history].
  destruct Hoptions as (Hh & _ & _).
  rewrite int32_id by (unfold is_int; change (2 ^ 31) with 2147483648;
                       change (2 ^ 25) with 33554432 in Hh; lia).
  exact Hh.
Qed.

End RiceParameters.

(** With the options of the coder in range, a sample size from 1 to 30
    and [residual_count] residuals that are [int]s, every round of
    [encode_residuals] is defined (no [LOG2] of 0, no [k] of 0), and
    [encode_residuals] leaves through the residual overflow exactly when
    some residual of the block folds to [1 << sample_size] or more;
    otherwise it returns the coded block. *)
Theorem encode_residuals_overflow_exactly (encoder : Encoder.alac_context)
        (residual_block : BitstreamWriter) (sample_size residual_count : Z)
        (residuals : list Z) :
  coder_options_in_range encoder ->
  1 <= sample_size <= 30 ->
  0 <= residual_count <= alen residuals ->
  Forall is_int residuals ->
  encode_residuals_defined encoder sample_size residual_count residuals
  /\ (Encoder.encode_residuals encoder residual_block sample_size residual_count residuals
      = Encoder.residual_overflow
      <-> folds_over sample_size residual_count residuals)
  /\ (~ folds_over sample_size residual_count residuals ->
      exists block,
        Encoder.encode_residuals encoder residual_block sample_size residual_count residuals
        = Encoder.returns block).
Proof.
  intros Hoptions _ _ Hint.
  split; [now apply encode_residuals_is_defined|].
  assert (Hret : ~ folds_over sample_size residual_count residuals ->
                 exists block,
                   Encoder.encode_residuals encoder residual_block sample_size
                                            residual_count residuals
                   = Encoder.returns block).
  { intros Hno. apply encode_residuals_returns. intros j Hj.
    destruct (Z_lt_dec (Encoder.unsigned_residual residuals.[j])
                       (Encoder.max_unsigned sample_size)) as [Hlt|Hge]; [exact Hlt|].
    exfalso. apply Hno. exists j. split; [exact Hj|lia]. }
  split; [|exact Hret]. split.
  - intros Hover.
    destruct (bounded_search
                (fun j => Encoder.max_unsigned sample_size
                          <= Encoder.unsigned_residual residuals.[j])
                (Z.to_nat residual_count)
                (fun j => Z_le_dec _ _)) as [(j & Hj & HP)|Hnone].
    + exists j. split; [lia|exact HP].
    + destruct Hret as [block Hblock].
      * intros (j & Hj & HP). apply (Hnone j); [lia|exact HP].
      * rewrite Hblock in Hover. discriminate.
  - intros (j & Hj & HP). now apply encode_residuals_overflows with (j := j).
Qed.


Lemma encode_residuals_overflow_exactly_witness :
  encode_residuals_defined encoder10 16 5 [3; 0; 0; -40000; 7]
  /\ (Encoder.encode_residuals encoder10 [] 16 5 [3; 0; 0; -40000; 7]
      = Encoder.residual_overflow
      <-> folds_over 16 5 [3; 0; 0; -40000; 7])
  /\ (~ folds_over 16 5 [3; 0; 0; -40000; 7] ->
      exists block,
        Encoder.encode_residuals encoder10 [] 16 5 [3; 0; 0; -40000; 7]
        = Encoder.returns block).
Proof.
  apply (encode_residuals_overflow_exactly encoder10 [] 16 5 [3; 0; 0; -40000; 7]).
  - unfold coder_options_in_range. cbn. lia.
  - lia.
  - unfold alen. cbn. lia.
  - repeat constructor; unfold is_int; lia.
Defined.

(** ** Framesets of several frames *)

(** [write_frame] writes the frame uncompressed: it is shorter than ten
    samples, or the compressed attempt overflows. *)
Definition written_uncompressed (encoder : Encoder.alac_context)
           (frame : list (list Z)) : Prop :=
  alen (channel frame 0) < 10
  \/ Encoder.write_compressed_frame [] encoder frame = Encoder.residual_overflow.

(** The bits of a frame written uncompressed, with its channel count. *)
Definition uncompressed_bits (encoder : Encoder.alac_context) (frame : list (list Z))
  : list bool :=
  bits_msb_first 3 (alen_channels frame - 1)
  ++ Encoder.write_uncompressed_frame [] encoder frame.

Lemma write_frames_uncompressed (encoder : Encoder.alac_context)
      (frames : list (list (list Z))) :
  Forall (written_uncompressed encoder) frames ->
  forall bs,
    fold_left (fun bs frame => Encoder.write_frame bs encoder frame) frames bs
    = bs ++ concat (map (uncompressed_bits encoder) frames).
Proof.
  induction 1 as [|frame frames Hf _ IH]; intros bs; cbn [fold_left map concat].
  - now rewrite app_nil_r.
  - assert (Hw : Encoder.write_frame bs encoder frame = bs ++ uncompressed_bits encoder frame).
    { unfold Encoder.write_frame. cbv zeta.
      rewrite write_uncompressed_frame_app. unfold bw_write, uncompressed_bits.
      rewrite <- app_assoc.
      destruct (alen (channel frame 0) >=? 10) eqn:E; zbool; [|reflexivity].
      destruct Hf as [Hf|Hf]; [lia|].
      change (recorder_reset []) with (@nil bool). now rewrite Hf. }
    rewrite Hw, IH. now rewrite <- app_assoc.
Qed.

Definition channels_of (frames : list (list (list Z))) : Z :=
  alen_channels (concat frames).

Lemma decode_frames_written (encoder : Encoder.alac_context)
      (self : Decoder.decoders_ALACDecoder) (n : Z) (frames : list (list (list Z))) :
  1 <= Encoder.bits_per_sample encoder <= 32 ->
  Decoder.bits_per_sample self = Encoder.bits_per_sample encoder ->
  Decoder.block_size (Decoder.params self) = Encoder.block_size (Encoder.options encoder) ->
  n <= Decoder.block_size (Decoder.params self) < 2 ^ 32 ->
  forall (frame : list (list Z)) (rounds : nat) (c block_size : Z)
         (samples : list (list Z)) (rest : list bool) (pos : Z),
    Forall (fun f => frame_fits (Encoder.bits_per_sample encoder) f
                     /\ alen (channel f 0) = n) (frame :: frames) ->
    (length (frame :: frames) <= rounds)%nat ->
    0 <= c -> c + channels_of (frame :: frames) <= Decoder.channels self ->
    (c = 0 \/ block_size = n) ->
    Decoder.decode_frames rounds self
      {| Decoder.fs_c := c; Decoder.fs_block_size := block_size;
         Decoder.fs_channels := alen_channels frame; Decoder.fs_samples := samples |}
      (mkReader (Encoder.write_uncompressed_frame [] encoder frame
                 ++ concat (map (uncompressed_bits encoder) frames)
                 ++ bits_msb_first 3 7 ++ rest) pos)
    = ok {| Decoder.fs_c := c + channels_of (frame :: frames);
            Decoder.fs_block_size := n;
            Decoder.fs_channels := 8;
            Decoder.fs_samples := samples ++ concat (frame :: frames) |}
         (mkReader rest
            (pos + alen_bits (Encoder.write_uncompressed_frame [] encoder frame
                              ++ concat (map (uncompressed_bits encoder) frames)
                              ++ bits_msb_first 3 7))).
Proof.
  intros Hb Hbps Hbs Hn.
  induction frames as [|next frames IH];
    intros frame rounds c block_size samples rest pos Hall Hrounds Hc Hroom Hblock.
  - pose proof (Forall_inv Hall) as [Hfit Hlen].
    destruct rounds as [|rounds]; [cbn [length] in Hrounds; lia|].
    destruct (frame_fits_channels _ _ Hfit) as (Hcount & _ & Hsamples).
    cbn [Decoder.decode_frames Decoder.fs_channels Decoder.fs_c Decoder.fs_block_size
         Decoder.fs_samples map concat app].
    set (C := alen_channels frame) in *.
    assert (negb (C =? 8) = true) as -> by (destruct Hcount as [-> | ->]; reflexivity).
    assert (negb (C =? 1) && negb (C =? 2) = false) as ->
        by (destruct Hcount as [-> | ->]; reflexivity).
    assert (HCC : channels_of [frame] = C).
    { unfold channels_of. cbn [concat]. now rewrite app_nil_r. }
    rewrite HCC in *.
    destruct (c + C >? Decoder.channels self) eqn:E; zbool; [lia|].
    rewrite Hbps.
    erewrite bind_ok by
      (apply (decode_frame_written encoder (Decoder.params self) frame);
       [exact Hb|exact Hfit|exact Hbs|lia]).
    cbv beta iota.
    assert (negb (c =? 0) && negb (block_size =? alen (channel frame 0)) = false) as ->.
    { destruct Hblock as [-> | ->]; [reflexivity|].
      rewrite Hlen, Z.eqb_refl. now rewrite andb_false_r. }
    erewrite bind_ok by (apply (br_read_written 3 7); lia).
    change (uint32 (7 mod 2 ^ 3) + 1) with 8.
    assert (Hbsz : (if c =? 0 then alen (channel frame 0) else block_size) = n)
      by (destruct (c =? 0) eqn:Ec; zbool; [exact Hlen|destruct Hblock; lia]).
    rewrite Hbsz.
    assert (Hs : (if C =? 2
                  then (samples ++ [firstn (Z.to_nat n) (channel frame 0)])
                       ++ [firstn (Z.to_nat n) (channel frame 1)]
                  else samples ++ [firstn (Z.to_nat n) (channel frame 0)])
                 = samples ++ frame ++ []).
    { rewrite app_nil_r. rewrite Hlen in Hsamples.
      transitivity (samples ++ ([firstn (Z.to_nat n) (channel frame 0)]
                                ++ (if C =? 2
                                    then [firstn (Z.to_nat n) (channel frame 1)]
                                    else []))); [|now rewrite Hsamples].
      destruct (C =? 2); [now rewrite <- app_assoc|reflexivity]. }
    rewrite Hs.
    assert (Hend : forall r st br,
               Decoder.fs_channels st = 8 -> Decoder.decode_frames r self st br = ok st br).
    { intros r st br H8. destruct r; [reflexivity|].
      cbn [Decoder.decode_frames]. now rewrite H8. }
    rewrite Hend by reflexivity. f_equal. f_equal.
    unfold alen_bits. rewrite !length_app, !bits_msb_first_length. lia.
  - pose proof (Forall_inv Hall) as [Hfit Hlen].
    pose proof (Forall_inv_tail Hall) as Hall'.
    destruct rounds as [|rounds]; [cbn [length] in Hrounds; lia|].
    destruct (frame_fits_channels _ _ Hfit) as (Hcount & _ & Hsamples).
    cbn [Decoder.decode_frames Decoder.fs_channels Decoder.fs_c Decoder.fs_block_size
         Decoder.fs_samples map concat].
    set (C := alen_channels frame) in *.
    assert (negb (C =? 8) = true) as -> by (destruct Hcount as [-> | ->]; reflexivity).
    assert (negb (C =? 1) && negb (C =? 2) = false) as ->
        by (destruct Hcount as [-> | ->]; reflexivity).
    assert (HCC : channels_of (frame :: next :: frames) = C + channels_of (next :: frames)).
    { unfold channels_of, alen_channels. cbn [concat]. rewrite !length_app. subst C.
      unfold alen_channels. lia. }
    assert (0 <= channels_of (next :: frames)) by (unfold channels_of, alen_channels; lia).
    rewrite HCC in *.
    destruct (c + C >? Decoder.channels self) eqn:E; zbool; [lia|].
    rewrite Hbps. rewrite <- !app_assoc.
    erewrite bind_ok by
      (apply (decode_frame_written encoder (Decoder.params self) frame);
       [exact Hb|exact Hfit|exact Hbs|lia]).
    cbv beta iota.
    assert (negb (c =? 0) && negb (block_size =? alen (channel frame 0)) = false) as ->.
    { destruct Hblock as [-> | ->]; [reflexivity|].
      rewrite Hlen, Z.eqb_refl. now rewrite andb_false_r. }
    unfold uncompressed_bits at 1. rewrite <- !app_assoc.
    erewrite bind_ok by (apply (br_read_written 3 (alen_channels next - 1)); lia).
    pose proof (Forall_inv Hall') as [Hfit' Hlen'].
    destruct (frame_fits_channels _ _ Hfit') as (Hcount' & _ & _).
    assert (uint32 ((alen_channels next - 1) mod 2 ^ 3) + 1 = alen_channels next) as ->
        by (destruct Hcount' as [-> | ->]; reflexivity).
    assert (Hbsz : (if c =? 0 then alen (channel frame 0) else block_size)
                   = alen (channel next 0))
      by (destruct (c =? 0) eqn:Ec; zbool; [lia|destruct Hblock; lia]).
    rewrite Hbsz.
    assert (Hs : (if C =? 2
                  then samples ++ [firstn (Z.to_nat (alen (channel next 0))) (channel frame 0)]
                       ++ [firstn (Z.to_nat (alen (channel next 0))) (channel frame 1)]
                  else samples ++ [firstn (Z.to_nat (alen (channel next 0))) (channel frame 0)])
                 = samples ++ frame).
    { rewrite Hlen, <- Hlen' in Hsamples.
      transitivity (samples ++ ([firstn (Z.to_nat (alen (channel next 0))) (channel frame 0)]
                                ++ (if C =? 2
                                    then [firstn (Z.to_nat (alen (channel next 0)))
                                                 (channel frame 1)]
                                    else []))); [|now rewrite Hsamples].
      destruct (C =? 2); reflexivity. }
    rewrite Hs.
    rewrite (IH next rounds (c + C) (alen (channel next 0)) (samples ++ frame));
      [|exact Hall'|cbn [length] in *; lia|subst C; unfold alen_channels; lia|lia
       |now right].
    f_equal.
    + f_equal; [lia|]. cbn [concat]. now rewrite <- !app_assoc.
    + f_equal. unfold alen_bits, uncompressed_bits.
      cbn [map concat]. repeat rewrite ?length_app, ?bits_msb_first_length. lia.
Qed.

Lemma frames_of_layout (bps n : Z) (channels : list (list Z)) :
  Forall (fun c => alen c = n /\ Forall (fits_signed bps) c) channels ->
  Forall (fun f => frame_fits bps f /\ alen (channel f 0) = n)
         (Encoder.frameset_layout channels)
  /\ channels_of (Encoder.frameset_layout channels) = alen_channels channels
  /\ (length (Encoder.frameset_layout channels) <= length channels)%nat.
Proof.
  intros Hall. destruct (frameset_layout_frames channels) as [Hperm Hcount].
  assert (Hconcat : Forall (fun c => alen c = n /\ Forall (fits_signed bps) c)
                           (concat (Encoder.frameset_layout channels))).
  { apply (Permutation_Forall (Permutation_sym Hperm)). exact Hall. }
  split; [|split].
  - revert Hcount Hconcat. generalize (Encoder.frameset_layout channels) as frames.
    induction frames as [|f frames IH]; intros Hcount Hconcat; [constructor|].
    cbn [concat] in Hconcat. apply Forall_app in Hconcat as [Hf Hrest].
    constructor; [|apply IH; [exact (Forall_inv_tail Hcount)|exact Hrest]].
    pose proof (Forall_inv Hcount) as Hc. unfold alen_channels in Hc.
    destruct f as [|c0 [|c1 [|c2 f]]]; cbn [length] in Hc; try lia.
    + pose proof (Forall_inv Hf) as [Hl H0].
      split; [left; exists c0; split; [reflexivity|exact H0]|exact Hl].
    + pose proof (Forall_inv Hf) as [Hl0 H0].
      pose proof (Forall_inv (Forall_inv_tail Hf)) as [Hl1 H1].
      split; [|exact Hl0]. right. exists c0, c1. split; [reflexivity|].
      split; [unfold alen in *; lia|]. split; assumption.
  - unfold channels_of, alen_channels. now rewrite (Permutation_length Hperm).
  - rewrite <- (Permutation_length Hperm).
    revert Hcount. generalize (Encoder.frameset_layout channels) as frames.
    induction frames as [|f frames IH]; intros Hcount; [cbn; lia|].
    cbn [concat length]. rewrite length_app.
    pose proof (Forall_inv Hcount) as Hc. unfold alen_channels in Hc.
    specialize (IH (Forall_inv_tail Hcount)). lia.
Qed.

Lemma decode_frameset_frames_written (encoder : Encoder.alac_context)
      (self : Decoder.decoders_ALACDecoder) (channels : list (list Z)) (n : Z)
      (rest : list bool) (pos : Z) :
  1 <= Encoder.bits_per_sample encoder <= 32 ->
  channels <> [] ->
  Forall (fun c => alen c = n /\ Forall (fits_signed (Encoder.bits_per_sample encoder)) c)
         channels ->
  Forall (written_uncompressed encoder) (Encoder.frameset_layout channels) ->
  Decoder.bits_per_sample self = Encoder.bits_per_sample encoder ->
  Decoder.channels self = alen_channels channels ->
  Decoder.block_size (Decoder.params self) = Encoder.block_size (Encoder.options encoder) ->
  n <= Decoder.block_size (Decoder.params self) < 2 ^ 32 ->
  pos mod 8 = 0 ->
  Decoder.decode_frameset self
    (mkReader (Encoder.write_frameset [] encoder channels ++ rest) pos)
  = ok (n, Decoder.interleave (alen_channels channels) n
             (concat (Encoder.frameset_layout channels)))
       (mkReader rest (pos + alen_bits (Encoder.write_frameset [] encoder channels))).
Proof.
  intros Hb Hne Hall Hunc Hbps Hch Hbs Hn Hpos.
  destruct (frames_of_layout _ n channels Hall) as (Hframes & Htotal & Hcount).
  unfold Encoder.write_frameset. cbv zeta.
  rewrite (write_frames_uncompressed encoder _ Hunc). cbn [app].
  destruct (Encoder.frameset_layout channels) as [|frame frames] eqn:Elayout.
  { exfalso. unfold channels_of in Htotal. cbn in Htotal.
    destruct channels; [now apply Hne|]. unfold alen_channels in Htotal.
    cbn [length] in Htotal. lia. }
  cbn [map concat]. unfold uncompressed_bits at 1.
  unfold bw_byte_align, bw_write. rewrite <- !app_assoc.
  unfold Decoder.decode_frameset.
  erewrite bind_ok by (apply (br_read_written 3 (alen_channels frame - 1)); lia).
  pose proof (Forall_inv Hframes) as [Hfit Hlen].
  destruct (frame_fits_channels _ _ Hfit) as (Hc12 & _ & _).
  assert (uint32 ((alen_channels frame - 1) mod 2 ^ 3) + 1 = alen_channels frame) as ->
      by (destruct Hc12 as [-> | ->]; reflexivity).
  set (pad := repeat false _).
  pose proof (decode_frames_written encoder self n frames Hb Hbps Hbs Hn frame
                (Z.to_nat (Decoder.channels self) + 1) 0
                (Decoder.block_size (Decoder.params self)) [] (pad ++ rest) (pos + 3)
                Hframes) as Hdec.
  rewrite Htotal in Hdec.
  erewrite bind_ok by
    (apply Hdec; [rewrite Hch; unfold alen_channels; lia|lia|lia|now left]).
  cbn [Decoder.fs_block_size Decoder.fs_samples app concat].
  set (body := Encoder.write_uncompressed_frame [] encoder frame
               ++ concat (map (uncompressed_bits encoder) frames)
               ++ bits_msb_first 3 7).
  assert (Hpad : pad = repeat false (Z.to_nat ((- (3 + alen_bits body)) mod 8))).
  { subst pad. f_equal. f_equal. f_equal. f_equal.
    unfold alen_bits, body.
    repeat rewrite ?length_app, ?bits_msb_first_length; lia. }
  rewrite Hpad.
  replace (pos + 3 + alen_bits body) with (pos + (3 + alen_bits body)) by lia.
  erewrite bind_ok by (apply br_byte_align_written; [exact Hpos|unfold alen_bits; lia]).
  unfold ret. rewrite Hch. f_equal. f_equal.
  unfold uncompressed_bits at 1.
  pose proof (Z.mod_pos_bound (- (3 + alen_bits body)) 8 ltac:(lia)).
  unfold alen_bits in *. unfold body in *.
  repeat rewrite ?length_app, ?bits_msb_first_length, ?repeat_length in *. lia.
Qed.

(** A frameset of any number of channels whose frames are all written
    uncompressed is decoded to the samples that were written, with the
    channels in the order of the frames of [write_frameset], which for three
    channels and more is not the order of the input: [decode_frameset]
    returns the block length and the channels of the frames interleaved, and
    stops at the end of the frameset. *)
Theorem decode_frameset_frame_order (encoder : Encoder.alac_context)
        (self : Decoder.decoders_ALACDecoder) (channels : list (list Z)) (n : Z)
        (rest : list bool) (pos : Z) :
  let bps := Encoder.bits_per_sample encoder in
  let frameset := Encoder.write_frameset [] encoder channels in
  1 <= bps <= 32 ->
  channels <> [] ->
  Forall (fun c => alen c = n /\ Forall (fits_signed bps) c) channels ->
  Forall (written_uncompressed encoder) (Encoder.frameset_layout channels) ->
  Decoder.bits_per_sample self = bps ->
  Decoder.channels self = alen_channels channels ->
  Decoder.block_size (Decoder.params self) = Encoder.block_size (Encoder.options encoder) ->
  n <= Decoder.block_size (Decoder.params self) < 2 ^ 32 ->
  pos mod 8 = 0 ->
  Decoder.decode_frameset self (mkReader (frameset ++ rest) pos)
  = ok (n, Decoder.interleave (alen_channels channels) n
             (concat (Encoder.frameset_layout channels)))
       (mkReader rest (pos + alen_bits frameset)).
Proof.
  intros bps frameset. apply decode_frameset_frames_written.
Qed.

Lemma decode_frameset_frame_order_witness :
  Decoder.decode_frameset (decoder10 6 16)
    (mkReader (Encoder.write_frameset [] encoder10
                 [[1; -2]; [3; -4]; [5; -6]; [7; -8]; [9; -10]; [11; -12]] ++ [true]) 64)
  = ok (2, [5; 1; 3; 9; 11; 7; -6; -2; -4; -10; -12; -8])
       (mkReader [true]
          (64 + alen_bits (Encoder.write_frameset [] encoder10
                             [[1; -2]; [3; -4]; [5; -6]; [7; -8]; [9; -10]; [11; -12]]))).
Proof.
  apply (decode_frameset_frame_order encoder10 (decoder10 6 16)
           [[1; -2]; [3; -4]; [5; -6]; [7; -8]; [9; -10]; [11; -12]] 2 [true] 64).
  - vm_compute. split; discriminate.
  - discriminate.
  - repeat constructor; vm_compute; discriminate.
  - repeat constructor; left; vm_compute; reflexivity.
  - reflexivity.
  - reflexivity.
  - reflexivity.
  - vm_compute. split; [discriminate|reflexivity].
  - reflexivity.
Defined.

(** The frames of a frameset have to agree on their length: a second frame
    of another length than the first is refused, whatever follows.  (The
    frames [write_frameset] writes are cut from channels of one length.) *)
Theorem decode_frameset_block_size_mismatch (encoder : Encoder.alac_context)
        (self : Decoder.decoders_ALACDecoder) (frame_0 frame_1 : list (list Z))
        (rest : list bool) (pos : Z) :
  let bps := Encoder.bits_per_sample encoder in
  1 <= bps <= 32 ->
  frame_fits bps frame_0 -> frame_fits bps frame_1 ->
  Decoder.bits_per_sample self = bps ->
  Decoder.block_size (Decoder.params self) = Encoder.block_size (Encoder.options encoder) ->
  Decoder.block_size (Decoder.params self) < 2 ^ 32 ->
  alen (channel frame_0 0) <= Decoder.block_size (Decoder.params self) ->
  alen (channel frame_1 0) <= Decoder.block_size (Decoder.params self) ->
  alen_channels frame_0 + alen_channels frame_1 <= Decoder.channels self ->
  alen (channel frame_0 0) <> alen (channel frame_1 0) ->
  Decoder.decode_frameset self
    (mkReader (uncompressed_bits encoder frame_0 ++ uncompressed_bits encoder frame_1 ++ rest)
              pos)
  = failed FRAME_BLOCK_SIZE_MISMATCH.
Proof.
  intros bps Hb Hfit0 Hfit1 Hbps Hbs Hmax Hn0 Hn1 Hroom Hne.
  destruct (frame_fits_channels _ _ Hfit0) as (Hcount0 & _ & _).
  destruct (frame_fits_channels _ _ Hfit1) as (Hcount1 & _ & _).
  set (C0 := alen_channels frame_0) in *. set (C1 := alen_channels frame_1) in *.
  unfold Decoder.decode_frameset, uncompressed_bits. fold C0 C1.
  rewrite <- !app_assoc.
  erewrite bind_ok by (apply (br_read_written 3 (C0 - 1)); lia).
  assert (uint32 ((C0 - 1) mod 2 ^ 3) + 1 = C0) as ->
      by (destruct Hcount0 as [-> | ->]; reflexivity).
  replace (Z.to_nat (Decoder.channels self) + 1)%nat
    with (Datatypes.S (Datatypes.S (Z.to_nat (Decoder.channels self) - 1))) by lia.
  unfold bind at 1.
  cbn [Decoder.decode_frames Decoder.fs_channels Decoder.fs_c Decoder.fs_block_size
       Decoder.fs_samples].
  assert (negb (C0 =? 8) = true) as -> by (destruct Hcount0 as [-> | ->]; reflexivity).
  assert (negb (C0 =? 1) && negb (C0 =? 2) = false) as ->
      by (destruct Hcount0 as [-> | ->]; reflexivity).
  destruct (0 + C0 >? Decoder.channels self) eqn:E; zbool; [lia|].
  rewrite Hbps. fold bps.
  erewrite bind_ok by
    (apply (decode_frame_written encoder (Decoder.params self) frame_0);
     [exact Hb|exact Hfit0|exact Hbs|lia]).
  cbv beta iota. cbn [negb andb Z.eqb].
  erewrite bind_ok by (apply (br_read_written 3 (C1 - 1)); lia).
  assert (uint32 ((C1 - 1) mod 2 ^ 3) + 1 = C1) as ->
      by (destruct Hcount1 as [-> | ->]; reflexivity).
  assert (negb (C1 =? 8) = true) as -> by (destruct Hcount1 as [-> | ->]; reflexivity).
  assert (negb (C1 =? 1) && negb (C1 =? 2) = false) as ->
      by (destruct Hcount1 as [-> | ->]; reflexivity).
  destruct (0 + C0 + C1 >? Decoder.channels self) eqn:E'; zbool; [lia|].
  erewrite bind_ok by
    (apply (decode_frame_written encoder (Decoder.params self) frame_1);
     [exact Hb|exact Hfit1|exact Hbs|lia]).
  cbv beta iota.
  assert (negb (0 + C0 =? 0) = true) as ->
      by (destruct Hcount0 as [-> | ->]; reflexivity).
  assert (negb (alen (channel frame_0 0) =? alen (channel frame_1 0)) = true) as ->.
  { destruct (_ =? _) eqn:En; zbool; [lia|reflexivity]. }
  reflexivity.
Qed.

Lemma decode_frameset_block_size_mismatch_witness :
  Decoder.decode_frameset (decoder10 3 16)
    (mkReader (uncompressed_bits encoder10 [[1; 2; 3]]
               ++ uncompressed_bits encoder10 [[4; 5]; [6; 7]] ++ [true; true; true]) 0)
  = failed FRAME_BLOCK_SIZE_MISMATCH.
Proof.
  apply (decode_frameset_block_size_mismatch encoder10 (decoder10 3 16)
           [[1; 2; 3]] [[4; 5]; [6; 7]] [true; true; true] 0).
  - vm_compute. split; discriminate.
  - left. exists [1; 2; 3]. split; [reflexivity|].
    repeat constructor; vm_compute; discriminate.
  - right. exists [4; 5], [6; 7]. split; [reflexivity|]. split; [reflexivity|].
    split; repeat constructor; vm_compute; discriminate.
  - reflexivity.
  - reflexivity.
  - reflexivity.
  - vm_compute. discriminate.
  - vm_compute. discriminate.
  - vm_compute. discriminate.
  - vm_compute. discriminate.
Defined.

(** ** Blocks shorter than ten frames, from the PCM source to the decoder *)

Lemma for_loop_collect {A : Type} (g : Z -> A) (lo hi : Z) (s : list A) :
  for_loop lo hi (fun i l => l ++ [g i]) s
  = s ++ map (fun k => g (lo + Z.of_nat k)) (seq 0 (Z.to_nat (hi - lo))).
Proof.
  unfold for_loop. generalize (seq 0 (Z.to_nat (hi - lo))) as l. intros l. revert s.
  induction l as [|k l IH]; intros s; cbn [fold_left map].
  - now rewrite app_nil_r.
  - rewrite IH, <- app_assoc. reflexivity.
Qed.

(** The channels [encode_alac] builds from the interleaved samples of a
    block of [n] PCM frames. *)
Definition deinterleave (samples : list Z) (channel_count n : Z) : list (list Z) :=
  for_loop 0 channel_count
    (fun c channels =>
       channels ++
       [for_loop 0 n
          (fun i channel => channel ++ [Encoder.get_sample samples c channel_count i])
          []])
    [].

Lemma deinterleave_map (samples : list Z) (C n : Z) :
  deinterleave samples C n
  = map (fun c => map (fun i => samples.[Z.of_nat i * C + Z.of_nat c])
                      (seq 0 (Z.to_nat n)))
        (seq 0 (Z.to_nat C)).
Proof.
  unfold deinterleave.
  rewrite (for_loop_collect
             (fun c => for_loop 0 n
                         (fun i channel => channel ++ [Encoder.get_sample samples c C i])
                         [])).
  cbn [app]. rewrite Z.sub_0_r. apply map_ext. intros c.
  rewrite (for_loop_collect (fun i => Encoder.get_sample samples (0 + Z.of_nat c) C i)).
  cbn [app]. rewrite Z.sub_0_r. apply map_ext. intros i.
  unfold Encoder.get_sample. f_equal.
Qed.

Lemma firstn_add_nth (l : list Z) (k : nat) :
  forall count : nat,
    (k + count <= length l)%nat ->
    firstn (k + count) l = firstn k l ++ map (fun c => nth (k + c) l 0) (seq 0 count).
Proof.
  induction count as [|count IH]; intros Hlen.
  - rewrite Nat.add_0_r. cbn [seq map]. now rewrite app_nil_r.
  - rewrite seq_S, map_app. cbn [map Nat.add]. rewrite app_assoc, <- IH by lia.
    rewrite Nat.add_succ_r. apply firstn_succ_nth. lia.
Qed.

Lemma interleave_deinterleave (samples : list Z) (C n : Z) :
  0 <= C -> 0 <= n -> n * C <= alen samples ->
  Decoder.interleave C n (deinterleave samples C n) = firstn (Z.to_nat (n * C)) samples.
Proof.
  intros HC Hn Hlen. unfold Decoder.interleave. rewrite deinterleave_map.
  set (chans := map _ (seq 0 (Z.to_nat C))).
  apply (for_loop_ind (fun i out => out = firstn (Z.to_nat (i * C)) samples)); [lia|reflexivity|].
  intros i out Hi ->.
  rewrite (for_loop_collect (fun c => (nth (Z.to_nat c) chans []).[i])).
  rewrite Z.sub_0_r.
  replace (Z.to_nat ((i + 1) * C)) with (Z.to_nat (i * C) + Z.to_nat C)%nat by nia.
  rewrite firstn_add_nth by (unfold alen in Hlen; nia).
  f_equal. apply map_ext_in. intros c Hc. apply in_seq in Hc.
  rewrite Z.add_0_l, Nat2Z.id. subst chans.
  rewrite (nth_indep _ [] (map (fun i => samples.[Z.of_nat i * C + Z.of_nat 0])
                               (seq 0 (Z.to_nat n))))
    by (rewrite length_map, length_seq; lia).
  rewrite (map_nth (fun c => map (fun i => samples.[Z.of_nat i * C + Z.of_nat c])
                                 (seq 0 (Z.to_nat n)))).
  rewrite seq_nth by lia. cbn [Nat.add].
  replace i with (Z.of_nat (Z.to_nat i)) at 1 by lia. rewrite get_nat.
  rewrite (nth_indep _ 0 (samples.[Z.of_nat 0 * C + Z.of_nat c]))
    by (rewrite length_map, length_seq; lia).
  rewrite (map_nth (fun i => samples.[Z.of_nat i * C + Z.of_nat c])).
  rewrite seq_nth by lia. cbn [Nat.add].
  replace (Z.of_nat (Z.to_nat i) * C + Z.of_nat c)
    with (Z.of_nat (Z.to_nat (i * C) + c)) by nia.
  apply get_nat.
Qed.

Lemma deinterleave_channels (bps : Z) (samples : list Z) (C n : Z) :
  1 <= bps -> 0 <= n ->
  Forall (fits_signed bps) samples ->
  Forall (fun c => alen c = n /\ Forall (fits_signed bps) c) (deinterleave samples C n)
  /\ alen_channels (deinterleave samples C n) = Z.max 0 C.
Proof.
  intros Hb Hn Hfit. rewrite deinterleave_map. split.
  - apply Forall_forall. intros ch Hch. apply in_map_iff in Hch as (c & <- & _).
    split; [unfold alen; rewrite length_map, length_seq; lia|].
    apply Forall_forall. intros v Hv. apply in_map_iff in Hv as (i & <- & _).
    set (idx := Z.of_nat i * C + Z.of_nat c).
    destruct (Z_lt_dec idx 0) as [Hneg|Hpos].
    + unfold get. destruct (idx <? 0) eqn:E; zbool; [|lia].
      unfold fits_signed. pose proof (Z.pow_pos_nonneg 2 (bps - 1)). lia.
    + destruct (Z_lt_dec idx (alen samples)) as [Hin|Hout].
      * apply Forall_get; [exact Hfit|lia].
      * unfold get. destruct (idx <? 0) eqn:E; zbool; [lia|].
        rewrite nth_overflow by (unfold alen in Hout; lia).
        unfold fits_signed. pose proof (Z.pow_pos_nonneg 2 (bps - 1)). lia.
  - unfold alen_channels. rewrite length_map, length_seq. lia.
Qed.

Lemma write_frame_app (bs : BitstreamWriter) (encoder : Encoder.alac_context)
      (channels : list (list Z)) :
  Encoder.write_frame bs encoder channels = bs ++ Encoder.write_frame [] encoder channels.
Proof.
  unfold Encoder.write_frame. cbv zeta.
  rewrite (write_uncompressed_frame_app (bw_write bs _ _)).
  rewrite (write_uncompressed_frame_app (bw_write [] _ _)).
  unfold recorder_copy, bw_write. cbn [app].
  destruct (alen (channel channels 0) >=? 10);
    [destruct (Encoder.write_compressed_frame _ encoder channels)|];
    now rewrite <- !app_assoc.
Qed.

Lemma write_frames_app (encoder : Encoder.alac_context) (frames : list (list (list Z))) :
  forall bs,
    fold_left (fun bs frame => Encoder.write_frame bs encoder frame) frames bs
    = bs ++ fold_left (fun bs frame => Encoder.write_frame bs encoder frame) frames [].
Proof.
  induction frames as [|frame frames IH]; intros bs; cbn [fold_left].
  - now rewrite app_nil_r.
  - rewrite IH, (IH (Encoder.write_frame [] encoder frame)), write_frame_app.
    now rewrite app_assoc.
Qed.

(** After a whole number of bytes [write_frameset] writes the same bits as
    at the start of a stream. *)
Lemma write_frameset_app (bs : BitstreamWriter) (encoder : Encoder.alac_context)
      (channels : list (list Z)) :
  alen_bits bs mod 8 = 0 ->
  Encoder.write_frameset bs encoder channels
  = bs ++ Encoder.write_frameset [] encoder channels.
Proof.
  intros Hbs. unfold Encoder.write_frameset. cbv zeta.
  rewrite write_frames_app.
  set (frames := fold_left (fun bs frame => Encoder.write_frame bs encoder frame)
                           (Encoder.frameset_layout channels) []).
  unfold bw_byte_align, bw_write. rewrite <- !app_assoc. do 3 f_equal.
  f_equal. f_equal. unfold alen_bits in Hbs.
  rewrite !length_app, !Nat2Z.inj_add.
  apply Z.mod_divide in Hbs; [|lia]. destruct Hbs as [q Hq]. rewrite Hq.
  replace (- (q * 8 + (Z.of_nat (length frames) + Z.of_nat (length (bits_msb_first (Z.to_nat 3) 7)))))
    with (- (Z.of_nat (length frames) + Z.of_nat (length (bits_msb_first (Z.to_nat 3) 7)))
          + (- q) * 8) by lia.
  apply Z.mod_add. lia.
Qed.

(** With one, two or more than eight channels the frames follow the order
    of the input channels. *)
Lemma frameset_layout_in_order (channels : list (list Z)) :
  alen_channels channels = 1 \/ alen_channels channels = 2 \/ 8 < alen_channels channels ->
  concat (Encoder.frameset_layout channels) = channels.
Proof.
  intros [H|[H|H]].
  - unfold Encoder.frameset_layout. rewrite H. cbn. apply app_nil_r.
  - unfold Encoder.frameset_layout. rewrite H. cbn. apply app_nil_r.
  - rewrite frameset_layout_default by (now right). apply concat_singletons.
Qed.

Lemma decode_frameset_block (encoder : Encoder.alac_context)
      (self : Decoder.decoders_ALACDecoder) (samples : list Z) (n : Z)
      (rest : list bool) (pos : Z) :
  1 <= Encoder.bits_per_sample encoder <= 32 ->
  Decoder.bits_per_sample self = Encoder.bits_per_sample encoder ->
  Decoder.block_size (Decoder.params self) = Encoder.block_size (Encoder.options encoder) ->
  (Decoder.channels self = 1 \/ Decoder.channels self = 2 \/ 8 < Decoder.channels self) ->
  Forall (fits_signed (Encoder.bits_per_sample encoder)) samples ->
  0 <= n < 10 -> n <= Decoder.block_size (Decoder.params self) < 2 ^ 32 ->
  n * Decoder.channels self <= alen samples ->
  pos mod 8 = 0 ->
  Decoder.decode_frameset self
    (mkReader (Encoder.write_frameset [] encoder
                 (deinterleave samples (Decoder.channels self) n) ++ rest) pos)
  = ok (n, firstn (Z.to_nat (n * Decoder.channels self)) samples)
       (mkReader rest
          (pos + alen_bits (Encoder.write_frameset [] encoder
                              (deinterleave samples (Decoder.channels self) n)))).
Proof.
  intros Hb Hbps Hbs HC Hfit Hn Hblock Hlen Hpos.
  set (C := Decoder.channels self) in *.
  destruct (deinterleave_channels (Encoder.bits_per_sample encoder) samples C n
              ltac:(lia) ltac:(lia) Hfit) as [Hch Hcount].
  rewrite Z.max_r in Hcount by lia.
  destruct (frames_of_layout _ n _ Hch) as (Hframes & _ & _).
  rewrite (decode_frameset_frames_written encoder self _ n rest pos); try assumption.
  - rewrite frameset_layout_in_order by (rewrite Hcount; exact HC).
    rewrite Hcount. now rewrite interleave_deinterleave by lia.
  - intros E. rewrite E in Hcount. cbn in Hcount. lia.
  - eapply Forall_impl; [|exact Hframes]. intros f [_ Hf]. left. lia.
  - now rewrite Hcount.
Qed.

(** What a read returns: no more frames than asked for or than are left,
    and one at least when one is asked for and one is left. *)
Lemma pcm_frames_read_range (short_reads : list Z) (pcm_frames available : Z) :
  1 <= pcm_frames -> 0 <= available ->
  let at_hand :=
    match short_reads with
    | [] => pcm_frames
    | frames :: _ => MIN pcm_frames (MAX frames 1)
    end in
  MIN at_hand available <= pcm_frames
  /\ MIN at_hand available <= available
  /\ (MIN at_hand available <= 0 -> available = 0).
Proof.
  intros Hn Ha. cbv zeta.
  assert (Hat : 1 <= match short_reads with
                     | [] => pcm_frames
                     | frames :: _ => MIN pcm_frames (MAX frames 1)
                     end <= pcm_frames).
  { destruct short_reads as [|frames l]; [lia|]. unfold MIN, MAX.
    destruct (frames >? 1) eqn:E1; zbool;
      match goal with |- context [if ?c then _ else _] => destruct c eqn:E2 end;
      zbool; lia. }
  unfold MIN at 1 3 5.
  match goal with |- context [if ?c then _ else _] => destruct c eqn:E end; zbool; lia.
Qed.

Lemma encode_blocks_read_framesets (encoder : Encoder.alac_context)
      (self : Decoder.decoders_ALACDecoder) :
  1 <= Encoder.bits_per_sample encoder <= 32 ->
  1 <= Encoder.block_size (Encoder.options encoder) < 10 ->
  Decoder.bits_per_sample self = Encoder.bits_per_sample encoder ->
  Decoder.block_size (Decoder.params self) = Encoder.block_size (Encoder.options encoder) ->
  (Decoder.channels self = 1 \/ Decoder.channels self = 2 \/ 8 < Decoder.channels self) ->
  forall (rounds : nat) (pcmreader : Encoder.PCMReader) (output : BitstreamWriter)
         (frame_sizes : list (Z * Z)),
    alen_bits output mod 8 = 0 ->
    Encoder.pcm_channels pcmreader = Decoder.channels self ->
    Forall (fits_signed (Encoder.bits_per_sample encoder)) (Encoder.pcm_samples pcmreader) ->
    exists payload frame_sizes' pcmreader' decoded,
      Encoder.encode_blocks rounds encoder pcmreader output frame_sizes
      = (output ++ payload, frame_sizes', pcmreader')
      /\ Encoder.pcm_samples pcmreader = decoded ++ Encoder.pcm_samples pcmreader'
      /\ alen decoded mod Decoder.channels self = 0
      /\ (alen (Encoder.pcm_samples pcmreader) / Decoder.channels self < Z.of_nat rounds ->
          alen (Encoder.pcm_samples pcmreader') / Decoder.channels self = 0)
      /\ forall (drounds : nat) (pcm : list Z) (rest : list bool) (pos : Z),
           pos mod 8 = 0 -> alen_bits payload <= Z.of_nat drounds ->
           Decoder.read_framesets drounds self (pos + alen_bits payload) pcm
                                  (mkReader (payload ++ rest) pos)
           = ok (pcm ++ decoded) (mkReader rest (pos + alen_bits payload)).
Proof.
  intros Hb Hblock Hbps Hbs HC.
  set (C := Decoder.channels self) in *.
  assert (HC1 : 1 <= C) by lia.
  induction rounds as [|rounds IH]; intros pcmreader output frame_sizes Hout Hch Hfit.
  - exists [], frame_sizes, pcmreader, []. cbn [Encoder.encode_blocks].
    rewrite app_nil_r. split; [reflexivity|]. split; [reflexivity|].
    split; [now rewrite Z.mod_0_l by lia|]. split.
    + pose proof (Z.div_pos (alen (Encoder.pcm_samples pcmreader)) C
                    ltac:(unfold alen; lia) ltac:(lia)). lia.
    + intros drounds pcm rest pos _ _. cbn [app]. change (alen_bits []) with 0.
      rewrite Z.add_0_r, app_nil_r.
      destruct drounds; cbn [Decoder.read_framesets]; [reflexivity|].
      cbn [bits_read]. now rewrite Z.geb_leb, Z.leb_refl.
  - cbn [Encoder.encode_blocks]. unfold Encoder.pcmreader_read. cbv zeta.
    rewrite Hch.
    set (samples := Encoder.pcm_samples pcmreader).
    pose proof (Z.div_pos (alen samples) C ltac:(unfold alen; lia) ltac:(lia)) as Havail.
    pose proof (pcm_frames_read_range (Encoder.pcm_short_reads pcmreader)
                  (Encoder.block_size (Encoder.options encoder)) (alen samples / C)
                  ltac:(lia) Havail) as Hn.
    cbv zeta in Hn.
    set (n := MIN _ (alen samples / C)) in *.
    destruct (n >? 0) eqn:En; zbool.
    2:{ eexists [], frame_sizes, _, []. rewrite app_nil_r.
        split; [reflexivity|]. cbn [Encoder.pcm_samples app].
        replace (Z.to_nat (n * C)) with 0%nat by nia. cbn [skipn].
        split; [reflexivity|].
        split; [now rewrite Z.mod_0_l by lia|]. split; [intros _; apply Hn; lia|].
        intros drounds pcm rest pos _ _. cbn [app]. change (alen_bits []) with 0.
        rewrite Z.add_0_r, app_nil_r.
        destruct drounds; cbn [Decoder.read_framesets]; [reflexivity|].
        cbn [bits_read]. now rewrite Z.geb_leb, Z.leb_refl. }
    cbn [Encoder.pcm_channels].
    change (for_loop 0 C _ [])
      with (deinterleave (firstn (Z.to_nat (n * C)) samples) C n).
    set (block := firstn (Z.to_nat (n * C)) samples).
    set (channels := deinterleave block C n).
    assert (HnC : n * C <= alen samples).
    { pose proof (Z.mul_div_le (alen samples) C ltac:(lia)). nia. }
    rewrite write_frameset_app by exact Hout.
    set (F := Encoder.write_frameset [] encoder channels).
    destruct (write_frameset_extends [] encoder channels eq_refl) as (tail & Etail & Ht & Htpos).
    cbn [app] in Etail. fold F in Etail. subst tail.
    assert (Hout' : alen_bits (output ++ F) mod 8 = 0).
    { unfold alen_bits in *. rewrite length_app, Nat2Z.inj_add.
      rewrite Z.add_mod, Hout, Ht by lia. reflexivity. }
    match goal with
    | |- context [Encoder.encode_blocks rounds encoder ?r (output ++ F) ?fs] =>
        destruct (IH r (output ++ F) fs Hout' eq_refl)
          as (payload & sizes & reader' & decoded & -> & Hsamples & Hmod & Hrounds & Hread)
    end.
    { cbn [Encoder.pcm_samples]. fold samples in Hfit.
      rewrite <- (firstn_skipn (Z.to_nat (n * C)) samples) in Hfit.
      now apply Forall_app in Hfit. }
    cbn [Encoder.pcm_samples] in Hsamples, Hrounds.
    assert (Hblock_len : alen block = n * C).
    { subst block. unfold alen in *. rewrite length_firstn. lia. }
    exists (F ++ payload), sizes, reader', (block ++ decoded).
    rewrite <- !app_assoc. split; [reflexivity|]. split; [|split; [|split]].
    + rewrite <- Hsamples. subst block. now rewrite firstn_skipn.
    + unfold alen in *. rewrite length_app, Nat2Z.inj_add, Hblock_len.
      rewrite Z.add_comm, Z.mod_add by lia. exact Hmod.
    + intros Hr. apply Hrounds.
      unfold alen in *. rewrite length_skipn.
      replace (Z.of_nat (length samples - Z.to_nat (n * C)))
        with (Z.of_nat (length samples) + (- n) * C) by lia.
      rewrite Z.div_add by lia. lia.
    + intros drounds pcm rest pos Hpos Hdr.
      assert (Hlen : alen_bits (F ++ payload) = alen_bits F + alen_bits payload).
      { unfold alen_bits. rewrite length_app. lia. }
      rewrite Hlen in *.
      assert (0 <= alen_bits payload) by (unfold alen_bits; lia).
      destruct drounds as [|drounds]; [lia|].
      cbn [Decoder.read_framesets bits_read].
      destruct (pos >=? pos + (alen_bits F + alen_bits payload)) eqn:E; zbool; [lia|].
      rewrite <- app_assoc.
      pose proof (decode_frameset_block encoder self block n (payload ++ rest) pos
                    Hb Hbps Hbs HC) as Hdec.
      fold C in Hdec. fold channels in Hdec. fold F in Hdec.
      erewrite bind_ok.
      2:{ apply Hdec; try lia.
          fold samples in Hfit.
          rewrite <- (firstn_skipn (Z.to_nat (n * C)) samples) in Hfit.
          now apply Forall_app in Hfit. }
      cbn [snd].
      rewrite firstn_all2 by (unfold alen in Hblock_len; lia).
      replace (pos + (alen_bits F + alen_bits payload))
        with (pos + alen_bits F + alen_bits payload) by lia.
      rewrite Hread; [now rewrite app_assoc| |lia].
      apply Z.mod_divide in Hpos; [|lia]. apply Z.mod_divide in Ht; [|lia].
      destruct Hpos as [q0 ->]. destruct Ht as [q1 ->].
      apply Z.mod_divide; [lia|]. exists (q0 + q1). lia.
Qed.

(** With a block size below ten every frame is written uncompressed, and
    the decoder, run over the file [encode_alac] wrote for a source of one,
    two or more than eight channels, returns the samples of the source, all
    its whole PCM frames in their order, and stops at the end of the file
    (as long as the file is shorter than 2^32 bytes, what the size of the
    mdat atom can hold). *)
Theorem encode_alac_decode_alac (cos : float -> float) (pcmreader : Encoder.PCMReader)
        (self : Decoder.decoders_ALACDecoder)
        (block_size initial_history history_multiplier maximum_k : Z) :
  let channels := Encoder.pcm_channels pcmreader in
  let bps := Encoder.pcm_bits_per_sample pcmreader in
  let samples := Encoder.pcm_samples pcmreader in
  let file := fst (Encoder.encode_alac cos [] pcmreader block_size initial_history
                                       history_multiplier maximum_k) in
  1 <= bps <= 32 -> 1 <= block_size < 10 ->
  (channels = 1 \/ channels = 2 \/ 8 < channels) ->
  Encoder.pcm_status_ok pcmreader = true ->
  Forall (fits_signed bps) samples ->
  Decoder.bits_per_sample self = bps ->
  Decoder.channels self = channels ->
  Decoder.block_size (Decoder.params self) = block_size ->
  alen_bits file < 8 * 2 ^ 32 ->
  Decoder.decode_alac self file
  = ok (firstn (Z.to_nat (alen samples / channels * channels)) samples)
       (mkReader [] (alen_bits file)).
Proof.
  intros C bps samples file Hb Hblock HC Hok Hfit Hdbps Hdch Hdbs.
  subst file. unfold Encoder.encode_alac. cbv zeta.
  set (encoder := Encoder.init_encoder cos _ _).
  assert (Hhead : alen_bits ((bw_write [] 32 0) ++ Encoder.mdat_name) mod 8 = 0)
    by reflexivity.
  destruct (encode_blocks_appends encoder
              (Datatypes.S (length (Encoder.pcm_samples pcmreader))) pcmreader
              (bw_write [] 32 0 ++ Encoder.mdat_name) [] Hhead)
    as (payload & sizes & reader' & Eblocks & Hp & Hstatus & Hnonneg & Hsum).
  rewrite <- Hdch in HC.
  destruct (encode_blocks_read_framesets encoder self Hb Hblock Hdbps Hdbs HC
              (Datatypes.S (length (Encoder.pcm_samples pcmreader))) pcmreader
              (bw_write [] 32 0 ++ Encoder.mdat_name) [] Hhead (eq_sym Hdch) Hfit)
    as (payload' & sizes' & reader'' & decoded & Eblocks' & Hsamples & Hmod & Hrounds & Hread).
  rewrite Eblocks in Eblocks'. injection Eblocks' as Epayload _ Ereader.
  subst payload' reader''.
  rewrite Eblocks, Hstatus, Hok, app_nil_r. cbn [fst].
  unfold bw_write. cbn [app length firstn]. rewrite <- app_assoc.
  change (skipn (0 + 32) (bits_msb_first (Z.to_nat 32) 0 ++ Encoder.mdat_name ++ payload))
    with (Encoder.mdat_name ++ payload).
  set (size := fold_left _ sizes 8).
  set (file := bits_msb_first 32 size ++ Encoder.mdat_name ++ payload).
  assert (Hfile : alen_bits file = 64 + alen_bits payload).
  { unfold file, alen_bits. rewrite !length_app, bits_msb_first_length.
    change (length Encoder.mdat_name) with 32%nat. lia. }
  rewrite Hfile. intros Hlen.
  specialize (Hsum ltac:(lia)).
  assert (Hsize : size = 8 + sum_bytes sizes).
  { subst size. apply mdat_total; [lia|exact Hnonneg|lia]. }
  assert (0 <= alen_bits payload) by (unfold alen_bits; lia).
  unfold Decoder.decode_alac, br_open. unfold file at 2.
  erewrite bind_ok by (apply (br_read_written 32 size); lia).
  rewrite Z.mod_small, uint32_id by (unfold is_unsigned; lia).
  change Encoder.mdat_name with (bits_msb_first (Z.to_nat 32) 1835295092).
  erewrite bind_ok by (apply (br_skip_written 32 1835295092); lia).
  cbv beta. change (0 + 32 + 32) with 64.
  replace (size * 8) with (64 + alen_bits payload) by lia.
  pose proof (Hread (length file) [] [] 64 eq_refl ltac:(unfold alen_bits in *; lia))
    as Hfile_read.
  rewrite app_nil_r in Hfile_read. rewrite Hfile_read.
  cbn [app]. f_equal.
  fold samples in Hsamples, Hrounds. fold C.
  assert (Hrem : alen (Encoder.pcm_samples reader') / Decoder.channels self = 0).
  { apply Hrounds.
    pose proof (Z.div_le_upper_bound (alen samples) (Decoder.channels self)
                  (alen samples) ltac:(lia)) as Hd.
    unfold alen in *. specialize (Hd ltac:(nia)). lia. }
  rewrite Hdch in Hmod, Hrem. fold C in Hmod, Hrem.
  assert (HC1 : 1 <= C) by (rewrite Hdch in HC; fold C in HC; lia).
  apply Z.div_small_iff in Hrem; [|lia].
  apply Z.mod_divide in Hmod; [|lia]. destruct Hmod as [q Hq].
  assert (Hall : alen samples = q * C + alen (Encoder.pcm_samples reader')).
  { rewrite Hsamples. unfold alen in *. rewrite length_app. lia. }
  rewrite Hall, Z.div_add_l by lia.
  rewrite (Z.div_small (alen _) C) by (unfold alen in *; lia).
  rewrite Z.add_0_r, <- Hq, Hsamples. unfold alen. rewrite Nat2Z.id.
  rewrite firstn_app, firstn_all, Nat.sub_diag. cbn [firstn]. now rewrite app_nil_r.
Qed.

Definition decoder3 (channels bits_per_sample : Z) : Decoder.decoders_ALACDecoder :=
  {| Decoder.params :=
       {| Decoder.block_size := 3;
          Decoder.history_multiplier := 40;
          Decoder.initial_history := 10;
          Decoder.maximum_K := 14 |};
     Decoder.bits_per_sample := bits_per_sample;
     Decoder.channels := channels |}.

Definition stereo7 : list Z :=
  [1; -2; 3; -4; 32767; -32768; 7; -8; 9; -10; 11; -12; 13; -14; 99].

Lemma encode_alac_decode_alac_witness :
  Decoder.decode_alac (decoder3 2 16)
    (fst (Encoder.encode_alac cos_0_pi [] (pcmreader_of 2 16 stereo7) 3 10 40 14))
  = ok [1; -2; 3; -4; 32767; -32768; 7; -8; 9; -10; 11; -12; 13; -14]
       (mkReader []
          (alen_bits (fst (Encoder.encode_alac cos_0_pi [] (pcmreader_of 2 16 stereo7)
                                               3 10 40 14)))).
Proof.
  apply (encode_alac_decode_alac cos_0_pi (pcmreader_of 2 16 stereo7) (decoder3 2 16)
           3 10 40 14).
  - vm_compute. split; discriminate.
  - lia.
  - right. left. reflexivity.
  - reflexivity.
  - repeat constructor; vm_compute; discriminate.
  - reflexivity.
  - reflexivity.
  - reflexivity.
  - vm_compute. reflexivity.
Defined.

(** ** The PCM frames of the blocks *)

(** [total] PCM frames cut into blocks of [block_size], the last one shorter
    when [block_size] does not divide [total]. *)
Definition block_lengths (block_size total : Z) : list Z :=
  repeat block_size (Z.to_nat (total / block_size))
  ++ (if total mod block_size =? 0 then [] else [total mod block_size]).


Lemma block_lengths_sum (block_size total : Z) :
  1 <= block_size -> 0 <= total ->
  fold_right Z.add 0 (block_lengths block_size total) = total
  /\ Forall (fun n => 1 <= n <= block_size) (block_lengths block_size total).
Proof.
  intros Hb Ht. unfold block_lengths.
  pose proof (Z.div_mod total block_size ltac:(lia)) as Hdm.
  pose proof (Z.mod_pos_bound total block_size ltac:(lia)) as Hm.
  pose proof (Z.div_pos total block_size Ht ltac:(lia)) as Hq.
  assert (Hrep : forall k : nat,
             fold_right Z.add 0 (repeat block_size k) = block_size * Z.of_nat k).
  { induction k as [|k IH]; [cbn; lia|]. cbn [repeat fold_right]. lia. }
  split.
  - rewrite fold_right_app.
    assert (Happ : forall (l : list Z) (z : Z),
               fold_right Z.add z l = fold_right Z.add 0 l + z).
    { induction l as [|a l IH]; intros z; cbn [fold_right]; [lia|]. rewrite IH. lia. }
    rewrite Happ, Hrep. destruct (total mod block_size =? 0) eqn:E; zbool;
      cbn [fold_right]; lia.
  - apply Forall_app. split.
    + apply Forall_forall. intros n Hn. apply repeat_spec in Hn. lia.
    + destruct (total mod block_size =? 0) eqn:E; zbool; repeat constructor; lia.
Qed.







(** ** Samples wider than 16 bits *)

Lemma get_app_r (a b : list Z) (i : Z) : alen a <= i -> (a ++ b).[i] = b.[i - alen a].
Proof.
  intros H. unfold get, alen in *.
  destruct (i <? 0) eqn:E; zbool; [lia|].
  destruct (i - Z.of_nat (length a) <? 0) eqn:E'; zbool; [lia|].
  rewrite app_nth2 by lia. f_equal. lia.
Qed.

Lemma get_map_seq (g : Z -> Z) (count : nat) (c : Z) :
  0 <= c < Z.of_nat count ->
  (map (fun k => g (0 + Z.of_nat k)) (seq 0 count)).[c] = g c.
Proof.
  intros Hc. replace c with (Z.of_nat (Z.to_nat c)) at 1 by lia. rewrite get_nat.
  rewrite (nth_indep _ 0 (g (0 + Z.of_nat 0))) by (rewrite length_map, length_seq; lia).
  rewrite (map_nth (fun k => g (0 + Z.of_nat k))), seq_nth by lia.
  f_equal. lia.
Qed.

Lemma extract_LSBs_get (encoder : Encoder.alac_context) (channels : list (list Z))
      (c i : Z) :
  0 <= c < alen_channels channels -> 0 <= i < alen (channel channels 0) ->
  (Encoder.extract_LSBs encoder channels).[i * alen_channels channels + c]
  = Z.land (channel channels c).[i]
           (int32 (shl32 1 (Encoder.bits_per_sample encoder - 16) - 1)).
Proof.
  intros Hc Hi. unfold Encoder.extract_LSBs.
  set (C := alen_channels channels) in *.
  set (f := fun i c => Z.land (channel channels c).[i]
                              (int32 (shl32 1 (Encoder.bits_per_sample encoder - 16) - 1))).
  assert (Hinv : forall k, 0 <= k <= alen (channel channels 0) ->
             let l := for_loop 0 k
                        (fun i LSBs => for_loop 0 C (fun c LSBs => LSBs ++ [f i c]) LSBs) [] in
             alen l = k * C
             /\ forall i c, 0 <= i < k -> 0 <= c < C -> l.[i * C + c] = f i c).
  { intros k Hk. cbv zeta.
    apply (for_loop_ind (fun k l => alen l = k * C
                                    /\ forall i c, 0 <= i < k -> 0 <= c < C ->
                                                   l.[i * C + c] = f i c)); [lia| |].
    - split; [reflexivity|]. intros; lia.
    - intros j l Hj [Hlen Hget].
      rewrite (for_loop_collect (f j)). rewrite Z.sub_0_r. split.
      + unfold alen in *. rewrite length_app, length_map, length_seq. lia.
      + intros i' c' Hi' Hc'. destruct (Z_lt_dec i' j) as [Hlt|Hge].
        * rewrite get_app_l by nia. apply Hget; lia.
        * assert (i' = j) by lia. subst i'. rewrite get_app_r by lia.
          rewrite Hlen. replace (j * C + c' - j * C) with c' by lia.
          apply (get_map_seq (f j)). lia. }
  destruct (Hinv (alen (channel channels 0)) ltac:(lia)) as [_ H]. apply (H i c); lia.
Qed.

Lemma extract_MSBs_get (encoder : Encoder.alac_context) (channels : list (list Z))
      (c i : Z) :
  0 <= c < alen_channels channels -> 0 <= i < alen (channel channels 0) ->
  (channel (Encoder.extract_MSBs encoder channels) c).[i]
  = Z.shiftr (channel channels c).[i] (Encoder.bits_per_sample encoder - 16).
Proof.
  intros Hc Hi. unfold Encoder.extract_MSBs.
  set (g := fun c => for_loop 0 (alen (channel channels 0))
                       (fun i channel_MSB =>
                          channel_MSB ++
                          [Z.shiftr (channel channels c).[i]
                                    (Encoder.bits_per_sample encoder - 16)]) []).
  rewrite (for_loop_collect g). cbn [app]. rewrite Z.sub_0_r.
  unfold channel at 1.
  rewrite (nth_indep _ [] (g (0 + Z.of_nat 0)))
    by (rewrite length_map, length_seq; lia).
  rewrite (map_nth (fun k => g (0 + Z.of_nat k))), seq_nth by lia.
  cbn [Nat.add]. rewrite Z.add_0_l, Z2Nat.id by lia. subst g. cbv beta.
  rewrite (for_loop_collect
             (fun i => Z.shiftr (channel channels c).[i]
                                (Encoder.bits_per_sample encoder - 16))).
  cbn [app]. rewrite Z.sub_0_r.
  apply (get_map_seq (fun i => Z.shiftr (channel channels c).[i]
                                        (Encoder.bits_per_sample encoder - 16))).
  unfold alen in *. lia.
Qed.

Lemma split_recombined (s k : Z) :
  0 <= k ->
  Z.lor (Z.shiftl (Z.shiftr s k) k) (Z.land s (2 ^ k - 1)) = s.
Proof.
  intros Hk. apply Z.bits_inj'. intros j Hj.
  rewrite Z.lor_spec, Z.land_spec, Z.shiftl_spec by lia.
  replace (2 ^ k - 1) with (Z.ones k) by (rewrite Z.ones_equiv; lia).
  destruct (Z_lt_dec j k) as [Hlt|Hge].
  - rewrite Z.testbit_neg_r by lia. rewrite Z.ones_spec_low by lia.
    now rewrite andb_true_r.
  - rewrite Z.shiftr_spec by lia. rewrite Z.ones_spec_high by lia.
    rewrite andb_false_r, orb_false_r. f_equal. lia.
Qed.

Lemma split_sample (bps k s : Z) :
  bps - 16 = k -> k = 8 \/ k = 16 -> fits_signed bps s ->
  int32 (shl32 1 k - 1) = 2 ^ k - 1
  /\ 0 <= Z.land s (2 ^ k - 1) < 2 ^ k
  /\ fits_signed 16 (Z.shiftr s k)
  /\ Z.lor (int32 (Z.shiftl (Z.shiftr s k) k)) (Z.land s (2 ^ k - 1)) = s.
Proof.
  intros Hk1 Hk Hfit.
  assert (Hmask : int32 (shl32 1 k - 1) = 2 ^ k - 1)
    by (destruct Hk as [-> | ->]; reflexivity).
  assert (Hland : Z.land s (2 ^ k - 1) = s mod 2 ^ k).
  { replace (2 ^ k - 1) with (Z.ones k) by (rewrite Z.ones_equiv; lia).
    now rewrite Z.land_ones by lia. }
  pose proof (Z.mod_pos_bound s (2 ^ k) ltac:(destruct Hk as [-> | ->]; reflexivity)) as Hm.
  split; [exact Hmask|]. split; [now rewrite Hland|].
  assert (Hmsb : fits_signed 16 (Z.shiftr s k)).
  { rewrite Z.shiftr_div_pow2 by lia.
    unfold fits_signed in *. replace bps with (k + 16) in Hfit by lia.
    change (2 ^ (16 - 1)) with 32768.
    assert (Hp : 2 ^ (k + 16 - 1) = 32768 * 2 ^ k).
    { destruct Hk as [-> | ->]; reflexivity. }
    rewrite Hp in Hfit.
    assert (0 < 2 ^ k) by (destruct Hk as [-> | ->]; reflexivity).
    split.
    - apply Z.div_le_lower_bound; lia.
    - apply Z.div_lt_upper_bound; lia. }
  split; [exact Hmsb|].
  rewrite int32_id; [apply split_recombined; lia|].
  unfold is_int. rewrite Z.shiftl_mul_pow2 by lia.
  unfold fits_signed in Hmsb. change (2 ^ (16 - 1)) with 32768 in Hmsb.
  assert (0 < 2 ^ k <= 65536) by (destruct Hk as [-> | ->]; vm_compute; split; congruence).
  change (2 ^ 31) with 2147483648. nia.
Qed.

Lemma map_get_seq (l : list Z) :
  map (fun k => l.[0 + Z.of_nat k]) (seq 0 (length l)) = l.
Proof.
  apply (nth_ext _ _ 0 0); [now rewrite length_map, length_seq|].
  intros n Hn. rewrite length_map, length_seq in Hn.
  rewrite (nth_indep _ 0 (l.[0 + Z.of_nat 0])) by (rewrite length_map, length_seq; lia).
  rewrite (map_nth (fun k => l.[0 + Z.of_nat k])), seq_nth by lia.
  cbn [Nat.add]. rewrite Z.add_0_l. apply get_nat.
Qed.

(** For samples of 24 or 32 bits [write_compressed_frame] splits every
    sample into its low [uncompressed_LSBs] bytes and the 16 bits above
    them, and nothing is lost: every low part fits the bits it is written
    with, every high part fits 16 bits, and the last loop of
    [decode_compressed_frame], run over the low parts in the order of
    [LSBs] and over a channel of [channels_MSB], gives the channel back. *)
Theorem apply_LSBs_extract_LSBs (encoder : Encoder.alac_context)
        (channels : list (list Z)) (c : Z) :
  let bps := Encoder.bits_per_sample encoder in
  let uncompressed_LSBs := (bps - 16) / 8 in
  let uncompressed_bits := uncompressed_LSBs * 8 in
  let block_size := alen (channel channels 0) in
  let LSBs := Encoder.extract_LSBs encoder channels in
  let channels_MSB := Encoder.extract_MSBs encoder channels in
  16 < bps <= 32 -> bps mod 8 = 0 ->
  0 <= c < alen_channels channels ->
  alen (channel channels c) = block_size ->
  Forall (fits_signed bps) (channel channels c) ->
  (forall i, 0 <= i < block_size ->
             0 <= LSBs.[i * alen_channels channels + c] < 2 ^ uncompressed_bits
             /\ fits_signed 16 (channel channels_MSB c).[i])
  /\ Decoder.apply_LSBs uncompressed_bits block_size (alen_channels channels) LSBs c
                        (channel channels_MSB c)
     = channel channels c.
Proof.
  intros bps uncompressed_LSBs uncompressed_bits block_size LSBs channels_MSB
         Hb Hmod Hc Hlen Hfit.
  assert (Hk : exists k, bps - 16 = k /\ uncompressed_bits = k /\ (k = 8 \/ k = 16)).
  { subst uncompressed_bits uncompressed_LSBs.
    assert (bps = 24 \/ bps = 32) as [-> | ->].
    { apply Z.mod_divide in Hmod; [|lia]. destruct Hmod as [q Hq]. lia. }
    - exists 8. repeat split. now left.
    - exists 16. repeat split. now right. }
  destruct Hk as (k & Hk1 & Hk2 & Hk).
  assert (Hpoint : forall i, 0 <= i < block_size ->
             0 <= LSBs.[i * alen_channels channels + c] < 2 ^ k
             /\ fits_signed 16 (channel channels_MSB c).[i]
             /\ Z.lor (int32 (Z.shiftl (channel channels_MSB c).[i] k))
                      LSBs.[i * alen_channels channels + c]
                = (channel channels c).[i]).
  { intros i Hi. subst LSBs channels_MSB.
    rewrite extract_LSBs_get, extract_MSBs_get by assumption.
    fold bps. rewrite Hk1.
    destruct (split_sample bps k (channel channels c).[i] Hk1 Hk) as (-> & H1 & H2 & H3).
    - apply Forall_get; [exact Hfit|lia].
    - auto. }
  rewrite Hk2. split.
  - intros i Hi. destruct (Hpoint i Hi) as (H1 & H2 & _). auto.
  - unfold Decoder.apply_LSBs.
    rewrite (for_loop_collect
               (fun i => Z.lor (int32 (Z.shiftl (channel channels_MSB c).[i] k))
                               LSBs.[i * alen_channels channels + c])).
    cbn [app]. rewrite Z.sub_0_r.
    replace (Z.to_nat block_size) with (length (channel channels c))
      by (unfold alen in Hlen; lia).
    etransitivity; [|apply (map_get_seq (channel channels c))].
    apply map_ext_in. intros n Hn. apply in_seq in Hn.
    apply Hpoint. unfold alen in Hlen. lia.
Qed.

Lemma apply_LSBs_extract_LSBs_witness :
  (forall i, 0 <= i < alen (channel [[1; -8388608]; [70000; -3]] 0) ->
             0 <= (Encoder.extract_LSBs
                     (Encoder.init_encoder cos_0_pi (Encoder.options encoder10) 24)
                     [[1; -8388608]; [70000; -3]]).[i * alen_channels
                                                         [[1; -8388608]; [70000; -3]] + 0]
                < 2 ^ ((24 - 16) / 8 * 8)
             /\ fits_signed 16
                  (channel (Encoder.extract_MSBs
                              (Encoder.init_encoder cos_0_pi (Encoder.options encoder10) 24)
                              [[1; -8388608]; [70000; -3]]) 0).[i])
  /\ Decoder.apply_LSBs ((24 - 16) / 8 * 8) (alen (channel [[1; -8388608]; [70000; -3]] 0))
       (alen_channels [[1; -8388608]; [70000; -3]])
       (Encoder.extract_LSBs (Encoder.init_encoder cos_0_pi (Encoder.options encoder10) 24)
          [[1; -8388608]; [70000; -3]])
       0
       (channel (Encoder.extract_MSBs
                   (Encoder.init_encoder cos_0_pi (Encoder.options encoder10) 24)
                   [[1; -8388608]; [70000; -3]]) 0)
     = [1; -8388608].
Proof.
  apply (apply_LSBs_extract_LSBs
           (Encoder.init_encoder cos_0_pi (Encoder.options encoder10) 24)
           [[1; -8388608]; [70000; -3]] 0).
  - cbn. lia.
  - reflexivity.
  - vm_compute. split; [discriminate|reflexivity].
  - reflexivity.
  - repeat constructor; vm_compute; discriminate.
Defined.
